(** * HTML redaction engine: patterns, scanning and rewriting

    A shallow embedding of [redactor-app/services/redaction.js]:
    [DEFAULT_PATTERNS], [compilePatterns], [identifySensitiveText],
    [previewSensitiveContent] and [redactSensitiveContent], together with
    the part of the host's [RegExp] and [String] objects the module calls
    ([RegExp.prototype.exec], [String.prototype.replace],
    [String.prototype.match], [split], [trim]); and of
    [services/fileProcessor.js]: [findHtmlFiles], [ensureOutputDir],
    [processHTMLFilesForPreview] and [processHTMLFilesForRedaction], over
    a file system given by what its calls settle to. *)

From Stdlib Require Import Ascii String.
From stdpp Require Import base list.
From Stdlib Require Import Lia.

Set Default Proof Using "Type".
Open Scope list_scope.

(** ** Strings

    A host string is a sequence of code units; the model keeps the
    eight-bit ones. *)

Abbreviation jsstring := (list ascii) (only parsing).

Definition str (s : string) : jsstring := list_ascii_of_string s.
Arguments str : simpl never.

Definition code (c : ascii) : nat := nat_of_ascii c.

Definition in_range (lo hi c : ascii) : bool :=
  (code lo <=? code c) && (code c <=? code hi).

Definition is_digit (c : ascii) : bool := in_range "0" "9" c.

(** [\w]: letters, digits and the underscore. *)
Definition is_word_char (c : ascii) : bool :=
  in_range "a" "z" c || in_range "A" "Z" c || is_digit c || (code c =? 95).

(** [\s], and what [trim] removes: TAB, LF, VT, FF, CR, SP, NBSP. *)
Definition is_white_space (c : ascii) : bool :=
  ((9 <=? code c) && (code c <=? 13)) || (code c =? 32) || (code c =? 160).

Definition is_line_terminator (c : ascii) : bool :=
  (code c =? 10) || (code c =? 13).

(** [S.substring(from, to)] for [from <= to]. *)
Definition substring (from to : nat) (s : jsstring) : jsstring :=
  take (to - from) (drop from s).

(** ** Patterns *)

Inductive ClassAtom :=
| CChar (c : ascii)
| CRange (lo hi : ascii)
| CDigit (negated : bool)
| CWord (negated : bool)
| CSpace (negated : bool).

Inductive regex :=
| REmpty
| RChar (c : ascii)
| RDot
| RClass (negated : bool) (atoms : list ClassAtom)
| RStart
| REnd
| RWordBoundary (negated : bool)
| RSeq (r1 r2 : regex)
| RAlt (r1 r2 : regex)
| RQuant (greedy : bool) (min : nat) (max : option nat) (r : regex)
| RGroup (r : regex)
| RLookahead (negated : bool) (r : regex).

Definition atom_matches (a : ClassAtom) (c : ascii) : bool :=
  match a with
  | CChar c' => code c =? code c'
  | CRange lo hi => in_range lo hi c
  | CDigit neg => xorb neg (is_digit c)
  | CWord neg => xorb neg (is_word_char c)
  | CSpace neg => xorb neg (is_white_space c)
  end.

Definition class_matches (negated : bool) (atoms : list ClassAtom) (c : ascii) : bool :=
  xorb negated (existsb (fun a => atom_matches a c) atoms).

(** [IsWordChar(e)] of the host's pattern semantics: false outside the input. *)
Definition word_at (s : jsstring) (i : nat) : bool :=
  match s !! i with
  | Some c => is_word_char c
  | None => false
  end.

Definition at_word_boundary (s : jsstring) (i : nat) : bool :=
  xorb (match i with 0 => false | S j => word_at s j end) (word_at s i).

(** One character test at position [i], then the continuation. *)
Definition match_char (p : ascii -> bool) (s : jsstring) (i : nat)
    (k : nat -> option nat) : option nat :=
  match s !! i with
  | Some c => if p c then k (S i) else None
  | None => None
  end.

(** RepeatMatcher of the host's pattern semantics, for a body matcher [m]
    and a continuation [k]: stop when [max] is 0; an iteration that
    consumes nothing once [min] is exhausted is rejected; a greedy
    quantifier tries one more iteration before the continuation, a lazy one
    the continuation first. [fuel] bounds the number of iterations. *)
Definition repeat_matcher (m : nat -> (nat -> option nat) -> option nat)
    (greedy : bool) (k : nat -> option nat)
    : nat -> nat -> option nat -> nat -> option nat :=
  fix rep (fuel min : nat) (max : option nat) (i : nat) {struct fuel} : option nat :=
    match fuel with
    | 0 => None
    | S fuel' =>
        match max with
        | Some 0 => k i
        | _ =>
            let d := fun j =>
              if (min =? 0) && (j =? i) then None
              else rep fuel' (pred min) (pred <$> max) j in
            if negb (min =? 0) then m i d
            else if greedy then
              match m i d with
              | Some z => Some z
              | None => k i
              end
            else
              match k i with
              | Some z => Some z
              | None => m i d
              end
        end
    end.

(** The host's backtracking matcher in continuation-passing form:
    [matchR r s i k] matches [r] at position [i] of [s] and hands the end
    position to [k]; [None] is failure. A quantifier needs at most
    [min + length s + 1] rounds: [min] mandatory ones, then rounds that
    each consume a character. *)
Fixpoint matchR (r : regex) (s : jsstring) (i : nat) (k : nat -> option nat)
    {struct r} : option nat :=
  match r with
  | REmpty => k i
  | RChar c => match_char (fun c' => code c' =? code c) s i k
  | RDot => match_char (fun c' => negb (is_line_terminator c')) s i k
  | RClass neg atoms => match_char (class_matches neg atoms) s i k
  | RStart => if i =? 0 then k i else None
  | REnd => if i =? length s then k i else None
  | RWordBoundary neg => if xorb neg (at_word_boundary s i) then k i else None
  | RSeq r1 r2 => matchR r1 s i (fun j => matchR r2 s j k)
  | RAlt r1 r2 =>
      match matchR r1 s i k with
      | Some z => Some z
      | None => matchR r2 s i k
      end
  | RGroup r1 => matchR r1 s i k
  | RLookahead neg r1 =>
      match matchR r1 s i Some with
      | Some _ => if neg then None else k i
      | None => if neg then k i else None
      end
  | RQuant greedy min max r1 =>
      repeat_matcher (matchR r1 s) greedy k (min + length s + 1) min max i
  end.

(** Two continuations agree from position [i] to the end of the input. *)
Definition continuations_agree (s : jsstring) (i : nat) (k1 k2 : nat -> option nat) : Prop :=
  forall j, i <= j <= length s -> k1 j = k2 j.

(** The pattern's matcher applied at one position: the end of the match. *)
Definition match_at (r : regex) (s : jsstring) (i : nat) : option nat :=
  matchR r s i Some.

Definition RPlus (r : regex) : regex := RQuant true 1 None r.
Definition RStar (r : regex) : regex := RQuant true 0 None r.
Definition ROpt (r : regex) : regex := RQuant true 0 (Some 1) r.
Definition RTimes (n : nat) (r : regex) : regex := RQuant true n (Some n) r.
Definition RDigit : regex := RClass false [CDigit false].

Fixpoint RSeqs (rs : list regex) : regex :=
  match rs with
  | [] => REmpty
  | [r] => r
  | r :: rs' => RSeq r (RSeqs rs')
  end.

(** [/([a-zA-Z0-9_.+-]+@[a-zA-Z0-9-]+\.[a-zA-Z0-9-.]+)/g] *)
Definition email_pattern : regex :=
  RGroup (RSeqs
    [ RPlus (RClass false [CRange "a" "z"; CRange "A" "Z"; CRange "0" "9";
                           CChar "_"; CChar "."; CChar "+"; CChar "-"]);
      RChar "@";
      RPlus (RClass false [CRange "a" "z"; CRange "A" "Z"; CRange "0" "9"; CChar "-"]);
      RChar ".";
      RPlus (RClass false [CRange "a" "z"; CRange "A" "Z"; CRange "0" "9";
                           CChar "-"; CChar "."]) ]).

(** [/(\+\d{1,3}[\s-])?\(?\d{3}\)?[\s.-]?\d{3}[\s.-]?\d{4}/g] *)
Definition phone_pattern : regex :=
  RSeqs
    [ ROpt (RGroup (RSeqs [ RChar "+"; RQuant true 1 (Some 3) RDigit;
                            RClass false [CSpace false; CChar "-"] ]));
      ROpt (RChar "(");
      RTimes 3 RDigit;
      ROpt (RChar ")");
      ROpt (RClass false [CSpace false; CChar "."; CChar "-"]);
      RTimes 3 RDigit;
      ROpt (RClass false [CSpace false; CChar "."; CChar "-"]);
      RTimes 4 RDigit ].

(** [/\b\d{3}[-.]?\d{2}[-.]?\d{4}\b/g] *)
Definition ssn_pattern : regex :=
  RSeqs
    [ RWordBoundary false;
      RTimes 3 RDigit;
      ROpt (RClass false [CChar "-"; CChar "."]);
      RTimes 2 RDigit;
      ROpt (RClass false [CChar "-"; CChar "."]);
      RTimes 4 RDigit;
      RWordBoundary false ].

(** [/\b(?:\d[ -]*?){13,16}\b/g] *)
Definition card_pattern : regex :=
  RSeqs
    [ RWordBoundary false;
      RQuant true 13 (Some 16)
        (RSeq RDigit (RQuant false 0 None (RClass false [CChar " "; CChar "-"])));
      RWordBoundary false ].

(** ** Host objects

    A [RegExp] instance: the immutable pattern with its source text and
    flags, and the mutable scan position [lastIndex]. *)

Record RegExpObj := mkRegExp {
  source : jsstring;
  pattern : regex;
  global : bool;
  sticky : bool;
  lastIndex : nat
}.

Definition set_lastIndex (n : nat) (R : RegExpObj) : RegExpObj :=
  {| source := source R; pattern := pattern R; global := global R;
     sticky := sticky R; lastIndex := n |}.

(** [new RegExp(src, 'g')] once the source has been parsed. *)
Definition new_global (src : jsstring) (r : regex) : RegExpObj :=
  {| source := src; pattern := r; global := true; sticky := false; lastIndex := 0 |}.

(** [R.toString()]: the display form [/source/flags]. *)
Definition RegExp_toString (R : RegExpObj) : jsstring :=
  str "/" ++ source R ++ str "/"
    ++ (if global R then str "g" else []) ++ (if sticky R then str "y" else []).

(** The store of [RegExp] instances; a reference is an index into it, and
    a reference past its end is an object that is not a [RegExp]. *)
Abbreviation heap := (list RegExpObj) (only parsing).
Abbreviation ref := nat (only parsing).

(** The values of [content] the model covers: a string and, of the values
    that are not strings, [undefined], [null] and the booleans. Numbers,
    Symbols and objects are not modelled. *)
Inductive JSValue :=
| VUndefined
| VNull
| VBool (b : bool)
| VString (s : jsstring).

(** Error kinds: the two the host raises here, and the [InvalidInput]
    kind of the specification, which the module never constructs. *)
Inductive JSError := TypeError | SyntaxError | InvalidInputError.

(** How a call ends: normally, by an exception, or not within the given
    number of loop rounds. *)
Inductive Outcome (A : Type) :=
| Returned (a : A) (h : heap)
| Threw (e : JSError) (h : heap)
| OutOfFuel.
Arguments Returned {A} a h.
Arguments Threw {A} e h.
Arguments OutOfFuel {A}.

Definition bind {A B : Type} (m : heap -> Outcome A) (k : A -> heap -> Outcome B)
    (h : heap) : Outcome B :=
  match m h with
  | Returned a h' => k a h'
  | Threw e h' => Threw e h'
  | OutOfFuel => OutOfFuel
  end.

Notation "'do' x <- m ; k" := (bind m (fun x => k))
  (at level 10, x name, m at level 100, k at level 200).

Definition ToString (v : JSValue) : jsstring :=
  match v with
  | VUndefined => str "undefined"
  | VNull => str "null"
  | VBool true => str "true"
  | VBool false => str "false"
  | VString s => s
  end.

(** ** [RegExp.prototype.exec] *)

(** The result array of [exec]: [match.index] and [match[0]]. *)
Record ExecResult := mkExec { index : nat; matched : jsstring }.

(** Try positions [i], [i+1], ... ([n] of them) until the matcher succeeds. *)
Fixpoint search (r : regex) (s : jsstring) (i n : nat) : option (nat * nat) :=
  match n with
  | 0 => None
  | S n' =>
      match match_at r s i with
      | Some e => Some (i, e)
      | None => search r s (S i) n'
      end
  end.

(** A pattern keeps its scan position when it is global or sticky. *)
Definition tracking (R : RegExpObj) : bool := global R || sticky R.

Definition scan_start (R : RegExpObj) : nat :=
  if tracking R then lastIndex R else 0.

(** RegExpBuiltinExec: start at [lastIndex] when the pattern is global or
    sticky and at 0 otherwise; fail once the position passes the end of
    the input; a sticky pattern tries one position only. The scan
    position is written back only for global or sticky patterns. *)
Definition RegExpBuiltinExec (R : RegExpObj) (s : jsstring)
    : option ExecResult * RegExpObj :=
  let positions := S (length s) - scan_start R in
  match search (pattern R) s (scan_start R)
          (if sticky R then min 1 positions else positions) with
  | None => (None, if tracking R then set_lastIndex 0 R else R)
  | Some (i, e) =>
      (Some (mkExec i (substring i e s)), if tracking R then set_lastIndex e R else R)
  end.

Definition exec (p : ref) (content : JSValue) (h : heap) : Outcome (option ExecResult) :=
  match h !! p with
  | None => Threw TypeError h
  | Some R =>
      let '(m, R') := RegExpBuiltinExec R (ToString content) in
      Returned m (<[p := R']> h)
  end.

(** ** [String.prototype.replace] and [String.prototype.match] on a pattern *)

(** The loop of [RegExp.prototype[@@replace]] and [[@@match]] for a global
    pattern: [exec] until it fails, stepping over an empty match. *)
Fixpoint collect (fuel : nat) (R : RegExpObj) (s : jsstring)
    : list ExecResult * RegExpObj :=
  match fuel with
  | 0 => ([], R)
  | S fuel' =>
      match RegExpBuiltinExec R s with
      | (None, R') => ([], R')
      | (Some m, R') =>
          let R'' := match matched m with
                     | [] => set_lastIndex (S (lastIndex R')) R'
                     | _ => R'
                     end in
          let '(ms, Rf) := collect fuel' R'' s in
          (m :: ms, Rf)
      end
  end.

Definition RegExp_results (R : RegExpObj) (s : jsstring) : list ExecResult * RegExpObj :=
  if global R then collect (length s + 2) (set_lastIndex 0 R) s
  else
    match RegExpBuiltinExec R s with
    | (None, R') => ([], R')
    | (Some m, R') => ([m], R')
    end.

(** The second half of [[@@replace]]: copy the text between results and
    put the replacement for each result that does not start before the
    previous one ended. *)
Fixpoint splice (s : jsstring) (results : list ExecResult)
    (replaceValue : jsstring -> jsstring) (nextSourcePosition : nat) : jsstring :=
  match results with
  | [] => drop nextSourcePosition s
  | m :: rest =>
      let position := min (index m) (length s) in
      if nextSourcePosition <=? position then
        substring nextSourcePosition position s ++ replaceValue (matched m)
          ++ splice s rest replaceValue (position + length (matched m))
      else splice s rest replaceValue nextSourcePosition
  end.

Definition RegExpReplace (R : RegExpObj) (s : jsstring)
    (replaceValue : jsstring -> jsstring) : jsstring * RegExpObj :=
  let '(results, R') := RegExp_results R s in
  (splice s results replaceValue 0, R').

(** [this.replace(pattern, replaceValue)]: only a string has the method. *)
Definition String_replace (this : JSValue) (p : ref)
    (replaceValue : jsstring -> jsstring) (h : heap) : Outcome JSValue :=
  match this with
  | VString s =>
      match h !! p with
      | None => Threw TypeError h
      | Some R =>
          let '(out, R') := RegExpReplace R s replaceValue in
          Returned (VString out) (<[p := R']> h)
      end
  | _ => Threw TypeError h
  end.

(** [(this.match(pattern) || []).length] *)
Definition String_match (this : JSValue) (p : ref) (h : heap) : Outcome nat :=
  match this with
  | VString s =>
      match h !! p with
      | None => Threw TypeError h
      | Some R =>
          let '(results, R') := RegExp_results R s in
          Returned (length results) (<[p := R']> h)
      end
  | _ => Threw TypeError h
  end.

(** ** The module [services/redaction.js] *)

(** The four [RegExp] objects the module creates when it is loaded, in the
    order of the array literal. *)
Definition DEFAULT_HEAP : heap :=
  [ new_global (str "([a-zA-Z0-9_.+-]+@[a-zA-Z0-9-]+\.[a-zA-Z0-9-.]+)") email_pattern;
    new_global (str "(\+\d{1,3}[\s-])?\(?\d{3}\)?[\s.-]?\d{3}[\s.-]?\d{4}") phone_pattern;
    new_global (str "\b\d{3}[-.]?\d{2}[-.]?\d{4}\b") ssn_pattern;
    new_global (str "\b(?:\d[ -]*?){13,16}\b") card_pattern ].

(** The array [DEFAULT_PATTERNS]: references to those four objects. *)
Definition DEFAULT_PATTERNS : list ref := [0; 1; 2; 3].

(** The argument [customPatterns]: absent ([null] or [undefined]), one
    string, an array, or a [RegExp] object itself. An array element is a
    string, a [RegExp] object, or anything else ([null], a number, ...). *)
Inductive PatternSource :=
| SrcString (s : jsstring)
| SrcRegExp (p : ref)
| SrcOther.

Inductive PatternSpec :=
| SpecAbsent
| SpecString (s : jsstring)
| SpecList (l : list PatternSource)
| SpecRegExp (p : ref).

(** What the module takes from the host's [RegExp] constructor: the pattern
    parser ([None] is a SyntaxError) and the source text the new object
    keeps for display. *)
Class Host := {
  RegExpCompile : jsstring -> option regex;
  EscapeRegExpPattern : jsstring -> jsstring
}.

(** [customPatterns.split(',')] *)
Fixpoint split_comma (s : jsstring) : list jsstring :=
  match s with
  | [] => [[]]
  | c :: s' =>
      if code c =? 44 then [] :: split_comma s'
      else match split_comma s' with
           | piece :: pieces => (c :: piece) :: pieces
           | [] => [[c]]
           end
  end.

Fixpoint trim_start (s : jsstring) : jsstring :=
  match s with
  | c :: s' => if is_white_space c then trim_start s' else s
  | [] => []
  end.

(** [p.trim()] *)
Definition trim (s : jsstring) : jsstring :=
  reverse (trim_start (reverse (trim_start s))).

(** The pattern literal [/^\/|\/[gimuy]*$/g] of the arrow function. *)
Definition delimiters : regex :=
  RAlt (RSeq RStart (RChar "/"))
       (RSeqs [ RChar "/";
                RStar (RClass false [CChar "g"; CChar "i"; CChar "m"; CChar "u"; CChar "y"]);
                REnd ]).

(** [pattern.replace(/^\/|\/[gimuy]*$/g, '')] *)
Definition strip_delimiters (s : jsstring) : jsstring :=
  fst (RegExpReplace (new_global (str "^\/|\/[gimuy]*$") delimiters) s (fun _ => [])).

Section Redaction.
Context {host : Host}.

(** The body of the [map] callback with its [try]/[catch]: [None] is the
    [null] the [catch] block returns. A string that is not a valid pattern
    makes [new RegExp] throw; an element that is neither a [RegExp] nor a
    string has no [replace] method. *)
Definition compile_source (src : PatternSource) (h : heap) : option ref * heap :=
  match src with
  | SrcRegExp p => if decide (p < length h) then (Some p, h) else (None, h)
  | SrcOther => (None, h)
  | SrcString s =>
      let patternStr := strip_delimiters s in
      match RegExpCompile patternStr with
      | Some r => (Some (length h), h ++ [new_global (EscapeRegExpPattern patternStr) r])
      | None => (None, h)
      end
  end.

Fixpoint map_sources (patterns : list PatternSource) (h : heap)
    : list (option ref) * heap :=
  match patterns with
  | [] => ([], h)
  | src :: rest =>
      let '(r, h1) := compile_source src h in
      let '(rs, h2) := map_sources rest h1 in
      (r :: rs, h2)
  end.

(** [.filter(Boolean)]: a reference is truthy, [null] is not. *)
Definition filter_Boolean (rs : list (option ref)) : list ref := omap id rs.

Definition compilePatterns (customPatterns : PatternSpec) (h : heap)
    : Outcome (list ref) :=
  match customPatterns with
  | SpecAbsent => Returned DEFAULT_PATTERNS h
  | SpecString [] => Returned DEFAULT_PATTERNS h
  | SpecString s =>
      let '(rs, h') := map_sources (SrcString <$> (trim <$> split_comma s)) h in
      Returned (filter_Boolean rs) h'
  | SpecList l =>
      let '(rs, h') := map_sources l h in
      Returned (filter_Boolean rs) h'
  | SpecRegExp _ => Threw TypeError h
  end.

(** One element of [matches]. *)
Record Match := mkMatch {
  m_text : jsstring;
  m_index : nat;
  m_length : nat;
  m_pattern : jsstring
}.

Record ScanResult := mkScan { matches : list Match; count : nat }.

Definition pattern_toString (p : ref) (h : heap) : jsstring :=
  match h !! p with
  | Some R => RegExp_toString R
  | None => []
  end.

(** The [while] loop of [identifySensitiveText] for one pattern; [fuel]
    bounds the number of rounds. *)
Fixpoint exec_while (fuel : nat) (p : ref) (content : JSValue) (acc : list Match)
    (h : heap) : Outcome (list Match) :=
  match fuel with
  | 0 => OutOfFuel
  | S fuel' =>
      match exec p content h with
      | Returned None h' => Returned acc h'
      | Returned (Some m) h' =>
          exec_while fuel' p content
            (acc ++ [mkMatch (matched m) (index m) (length (matched m))
                             (pattern_toString p h')]) h'
      | Threw e h' => Threw e h'
      | OutOfFuel => OutOfFuel
      end
  end.

Fixpoint identify_forEach (fuel : nat) (ps : list ref) (content : JSValue)
    (acc : list Match) (h : heap) : Outcome (list Match) :=
  match ps with
  | [] => Returned acc h
  | p :: ps' =>
      (do acc' <- exec_while fuel p content acc;
       identify_forEach fuel ps' content acc') h
  end.

Definition identifySensitiveText (fuel : nat) (content : JSValue)
    (patterns : PatternSpec) (h : heap) : Outcome ScanResult :=
  (do compiledPatterns <- compilePatterns patterns;
   do found <- identify_forEach fuel compiledPatterns content [];
   fun h' => Returned (mkScan found (length found)) h') h.

Definition dquote : ascii := ascii_of_nat 34.

Definition mark_open : jsstring :=
  str "<mark class=" ++ [dquote] ++ str "redact-highlight" ++ [dquote] ++ str ">".
Definition mark_close : jsstring := str "</mark>".

(** The arrow function of [previewSensitiveContent]. *)
Definition highlight (m : jsstring) : jsstring := mark_open ++ m ++ mark_close.

Fixpoint preview_forEach (ps : list ref) (previewContent : JSValue) (h : heap)
    : Outcome JSValue :=
  match ps with
  | [] => Returned previewContent h
  | p :: ps' =>
      (do next <- String_replace previewContent p highlight;
       preview_forEach ps' next) h
  end.

Definition previewSensitiveContent (content : JSValue) (patterns : PatternSpec)
    (h : heap) : Outcome JSValue :=
  (do compiledPatterns <- compilePatterns patterns;
   preview_forEach compiledPatterns content) h.

Definition REDACTED : jsstring := str "[REDACTED]".

Fixpoint redact_forEach (ps : list ref) (redactedContent : JSValue) (h : heap)
    : Outcome JSValue :=
  match ps with
  | [] => Returned redactedContent h
  | p :: ps' =>
      (do matchCount <- String_match redactedContent p;
       do next <- String_replace redactedContent p (fun _ => REDACTED);
       redact_forEach ps' next) h
  end.

(** [content.length] for the first log line: reading a property of
    [null] or [undefined] throws. *)
Definition get_length (content : JSValue) (h : heap) : Outcome unit :=
  match content with
  | VUndefined | VNull => Threw TypeError h
  | _ => Returned tt h
  end.

Definition redactSensitiveContent (content : JSValue) (patterns : PatternSpec)
    (h : heap) : Outcome JSValue :=
  (do _ <- get_length content;
   do compiledPatterns <- compilePatterns patterns;
   redact_forEach compiledPatterns content) h.

(** *** The scan loop on one object

    The [while] loop of [identifySensitiveText] seen from the pattern
    object alone: the results of the successive [exec] calls and the
    object's final state, or [None] when [fuel] rounds do not end it. *)
Fixpoint scan_while (fuel : nat) (R : RegExpObj) (s : jsstring)
    : option (list ExecResult * RegExpObj) :=
  match fuel with
  | 0 => None
  | S fuel' =>
      match RegExpBuiltinExec R s with
      | (None, R') => Some ([], R')
      | (Some m, R') =>
          match scan_while fuel' R' s with
          | Some (ms, Rf) => Some (m :: ms, Rf)
          | None => None
          end
      end
  end.

Definition to_match (R : RegExpObj) (m : ExecResult) : Match :=
  mkMatch (matched m) (index m) (length (matched m)) (RegExp_toString R).

(** Successive results of one scan: each starts at or after the end of
    the one before, the first at or after [from]. *)
Fixpoint results_from (from : nat) (ms : list ExecResult) : Prop :=
  match ms with
  | [] => True
  | m :: ms' => from <= index m /\ results_from (index m + length (matched m)) ms'
  end.

(** [scanned r y label s from g]: [g] is the complete run of successive
    matches of the pattern [r] in [s] from position [from] on, as a
    pattern with display form [label] reports them. Each match is the
    leftmost one at or after the end of the match before it, the first at
    or after [from]; for a sticky pattern ([y] true) it starts exactly
    there. It is not empty and lies within [s], its text is the piece of
    [s] at its offset, and the run ends only where no further match
    exists. *)
Inductive scanned (r : regex) (y : bool) (label : jsstring) (s : jsstring)
    : nat -> list Match -> Prop :=
| scanned_end from :
    (forall b, from <= b <= length s -> (y = true -> b = from) ->
       match_at r s b = None) ->
    scanned r y label s from []
| scanned_match from a e g :
    from <= a -> (y = true -> a = from) ->
    (forall b, from <= b < a -> match_at r s b = None) ->
    match_at r s a = Some e -> a < e <= length s ->
    scanned r y label s e g ->
    scanned r y label s from (mkMatch (substring a e s) a (e - a) label :: g).

(** [grouped s h ps groups h']: one group per reference of [ps], in the
    order of [ps]. The group of a pattern is its complete run from the
    scan position the pattern has when its turn comes; its turn leaves a
    global or sticky pattern at scan position 0; [h'] is the store after
    the last turn. *)
Inductive grouped (s : jsstring)
    : list RegExpObj -> list nat -> list (list Match) -> list RegExpObj -> Prop :=
| grouped_nil h : grouped s h [] [] h
| grouped_cons h p R ps g groups h' :
    h !! p = Some R ->
    scanned (pattern R) (sticky R) (RegExp_toString R) s (scan_start R) g ->
    grouped s (<[p := if tracking R then set_lastIndex 0 R else R]> h) ps groups h' ->
    grouped s h (p :: ps) (g :: groups) h'.

(** A pattern whose scan loop ends on [s]: it keeps its scan position and
    has no empty match, or it has no match at all. *)
Definition scan_ends (R : RegExpObj) (s : jsstring) : Prop :=
  (tracking R = true /\
   forall i, i <= length s -> match_at (pattern R) s i <> Some i)
  \/ search (pattern R) s 0 (S (length s)) = None.

(** The executable form of the first alternative's second half. *)
Definition no_empty_match (r : regex) (s : jsstring) : bool :=
  forallb (fun i => negb (bool_decide (match_at r s i = Some i))) (seq 0 (S (length s))).

(** The store without the scan positions. *)
Definition erase (h : heap) : heap := set_lastIndex 0 <$> h.

(** *** Rewritten buffers

    [wrapped s out]: [out] is [s] with some of its pieces, one after the
    other, each enclosed in one highlight marker, and the rest copied. *)
Inductive wrapped : jsstring -> jsstring -> Prop :=
| wrapped_end : wrapped [] []
| wrapped_copy c s out : wrapped s out -> wrapped (c :: s) (c :: out)
| wrapped_mark m s out : wrapped s out -> wrapped (m ++ s) (highlight m ++ out).

(** One pass of a global pattern [r] over the buffer [s], from position
    [i] on, with replacement function [f]: a character where no match
    starts is copied; a match that starts here is replaced as a whole and
    the pass goes on at its end; after an empty match the character at
    its position is copied. *)
Inductive replaced_at (f : jsstring -> jsstring) (r : regex) (s : jsstring)
    : nat -> jsstring -> Prop :=
| replaced_end i :
    length s <= i -> match_at r s i = None ->
    replaced_at f r s i []
| replaced_copy i c out :
    s !! i = Some c -> match_at r s i = None ->
    replaced_at f r s (S i) out ->
    replaced_at f r s i (c :: out)
| replaced_match i e out :
    match_at r s i = Some e -> i < e <= length s ->
    replaced_at f r s e out ->
    replaced_at f r s i (f (substring i e s) ++ out)
| replaced_empty_end i :
    match_at r s i = Some i -> length s <= i ->
    replaced_at f r s i (f [])
| replaced_empty i c out :
    match_at r s i = Some i -> s !! i = Some c ->
    replaced_at f r s (S i) out ->
    replaced_at f r s i (f [] ++ c :: out).

(** The passes of a pattern list, each over the buffer the pass before
    it left. *)
Inductive passes (f : jsstring -> jsstring) (h : heap)
    : list ref -> jsstring -> jsstring -> Prop :=
| passes_nil s : passes f h [] s s
| passes_cons p ps R s mid out :
    h !! p = Some R ->
    replaced_at f (pattern R) s 0 mid ->
    passes f h ps mid out ->
    passes f h (p :: ps) s out.

(** *** What a source denotes

    The object a valid source contributes to the compiled list: the
    [RegExp] the reference names, or a new global pattern compiled from
    the string; an invalid source contributes none. *)
Definition fresh_object (src : PatternSource) : option RegExpObj :=
  match src with
  | SrcString s =>
      new_global (EscapeRegExpPattern (strip_delimiters s))
        <$> RegExpCompile (strip_delimiters s)
  | _ => None
  end.

Definition compiled_object (h : heap) (src : PatternSource) : option RegExpObj :=
  match src with
  | SrcRegExp p => h !! p
  | _ => fresh_object src
  end.

(** The pattern sources of a spec that has any. *)
Definition spec_sources (spec : PatternSpec) : option (list PatternSource) :=
  match spec with
  | SpecList l => Some l
  | SpecString (c :: s) => Some (SrcString <$> (trim <$> split_comma (c :: s)))
  | _ => None
  end.

(** *** Sequences of calls

    One call of an exported operation on a text content, what the caller
    sees of its outcome, and the store a sequence of calls leaves. *)
Inductive Call :=
| CallIdentify (fuel : nat) (content : jsstring) (patterns : PatternSpec)
| CallPreview (content : jsstring) (patterns : PatternSpec)
| CallRedact (content : jsstring) (patterns : PatternSpec).

Inductive Answer :=
| AScan (r : ScanResult)
| AValue (v : JSValue).

Definition lift {A B : Type} (f : A -> B) (o : Outcome A) : Outcome B :=
  match o with
  | Returned a h => Returned (f a) h
  | Threw e h => Threw e h
  | OutOfFuel => OutOfFuel
  end.

Definition run_call (c : Call) (h : heap) : Outcome Answer :=
  match c with
  | CallIdentify fuel content patterns =>
      lift AScan (identifySensitiveText fuel (VString content) patterns h)
  | CallPreview content patterns =>
      lift AValue (previewSensitiveContent (VString content) patterns h)
  | CallRedact content patterns =>
      lift AValue (redactSensitiveContent (VString content) patterns h)
  end.

(** The result or the exception of a call that ends. *)
Definition answer {A : Type} (o : Outcome A) : option (A + JSError) :=
  match o with
  | Returned a _ => Some (inl a)
  | Threw e _ => Some (inr e)
  | OutOfFuel => None
  end.

Definition heap_after {A : Type} (o : Outcome A) : option heap :=
  match o with
  | Returned _ h => Some h
  | Threw _ h => Some h
  | OutOfFuel => None
  end.

Fixpoint run_calls (cs : list Call) (h : heap) : option heap :=
  match cs with
  | [] => Some h
  | c :: cs' =>
      match heap_after (run_call c h) with
      | Some h' => run_calls cs' h'
      | None => None
      end
  end.

Definition call_spec (c : Call) : PatternSpec :=
  match c with
  | CallIdentify _ _ patterns => patterns
  | CallPreview _ patterns => patterns
  | CallRedact _ patterns => patterns
  end.

End Redaction.

(** A pattern object at rest: not sticky, and at scan position 0 when it
    is global. The objects the module creates are at rest. *)
Definition at_rest (R : RegExpObj) : Prop :=
  sticky R = false /\ (global R = true -> lastIndex R = 0).

Definition calm (h : heap) : Prop := Forall at_rest h.

(** The reference names a pattern that matches nowhere in [s]. *)
Definition no_match_in (s : jsstring) (h : heap) (p : ref) : Prop :=
  exists R, h !! p = Some R /\ search (pattern R) s 0 (S (length s)) = None.

(** Two references name the same object, each in its store. *)
Definition same_object (h1 h2 : heap) (p1 p2 : ref) : Prop :=
  exists R, h1 !! p1 = Some R /\ h2 !! p2 = Some R.

(** Every [RegExp] reference of the caller names an object of the store. *)
Definition source_wf (h : heap) (src : PatternSource) : Prop :=
  match src with
  | SrcRegExp p => p < length h
  | _ => True
  end.

(** The specs the specification calls absent or empty. *)
Definition spec_is_empty (spec : PatternSpec) : Prop :=
  spec = SpecAbsent \/ spec = SpecString [] \/ spec = SpecList [].

Definition spec_wf (h : heap) (spec : PatternSpec) : Prop :=
  match spec with
  | SpecList l => Forall (source_wf h) l
  | SpecRegExp p => p < length h
  | _ => True
  end.

(** A host for the examples: it compiles a source free of syntax
    characters to the sequence of its characters, as every host does, and
    refuses every other source (a real host accepts more). *)
Definition is_syntax_character (c : ascii) : bool :=
  existsb (fun d => code c =? code d) (str "^$\.*+?()[]{}|/").

Definition literal_host : Host :=
  {| RegExpCompile := fun s =>
       if existsb is_syntax_character s then None else Some (RSeqs (RChar <$> s));
     EscapeRegExpPattern := fun s => match s with [] => str "(?:)" | _ => s end |}.

(** ** Patterns that consume a character

    A syntactic test: every match of the pattern takes at least one
    character of the input. *)
Fixpoint consumes (r : regex) : bool :=
  match r with
  | RChar _ | RDot | RClass _ _ => true
  | RSeq r1 r2 => consumes r1 || consumes r2
  | RAlt r1 r2 => consumes r1 && consumes r2
  | RQuant _ min max r1 =>
      negb (min =? 0) && negb (bool_decide (max = Some 0)) && consumes r1
  | RGroup r1 => consumes r1
  | REmpty | RStart | REnd | RWordBoundary _ | RLookahead _ _ => false
  end.

(** ** Matches as spans

    The [exec] result an entry of [matches] was made from, and the total
    length of the matched texts. *)
Definition to_exec (m : Match) : ExecResult := mkExec (m_index m) (m_text m).

Definition matched_length (ms : list Match) : nat := sum_list (m_length <$> ms).


(** ** The module [services/fileProcessor.js]

    [findHtmlFiles], [ensureOutputDir], [processHTMLFilesForPreview] and
    [processHTMLFilesForRedaction], with the part of the host's [path] and
    [fs] modules they call. A path is the sequence of entry names that
    leads from the input folder to a file: [path.join(directory,
    entry.name)] adds a name, and [path.relative(inputFolder, filePath)] is
    that sequence. A listing never holds an empty name or a name with a
    separator, so two paths are the same string exactly when they are the
    same sequence; the keys of [errors], which are full paths, and those
    of [results], which are relative, are both given by the sequence. An
    [await] is modelled by what its promise settles to, and one run is
    followed from its start to its end: the pattern store is not touched
    by another request in between. The console output is not part of the
    model. *)

#[global] Instance ascii_eq_decision : EqDecision ascii := ascii_dec.

Abbreviation Path := (list (list ascii)) (only parsing).

(** *** [toLowerCase] and [path.extname] *)

(** The lower case of an eight-bit code unit: [A]-[Z] and the accented
    capitals 192-222, the multiplication sign 215 apart. *)
Definition toLowerCase_unit (c : ascii) : ascii :=
  if ((65 <=? code c) && (code c <=? 90))
     || ((192 <=? code c) && (code c <=? 222) && negb (code c =? 215))
  then ascii_of_nat (code c + 32) else c.

Definition toLowerCase (s : jsstring) : jsstring := toLowerCase_unit <$> s.

(** The variables of [path.extname]; [None] is the [-1] of an index that
    is not yet set. *)
Record ExtnameState := mkExtnameState {
  startDot : option nat;
  startPart : nat;
  ext_end : option nat;
  matchedSlash : bool;
  preDotState : Z
}.

(** [if (end === -1) { matchedSlash = false; end = i + 1; }] *)
Definition mark_end (i : nat) (st : ExtnameState) : ExtnameState :=
  match ext_end st with
  | None => mkExtnameState (startDot st) (startPart st) (Some (S i)) false (preDotState st)
  | Some _ => st
  end.

(** The dot branch and the non-dot branch of the loop body. *)
Definition mark_dot (i : nat) (st : ExtnameState) : ExtnameState :=
  match startDot st with
  | None => mkExtnameState (Some i) (startPart st) (ext_end st) (matchedSlash st)
              (preDotState st)
  | Some _ =>
      if (preDotState st =? 1)%Z then st
      else mkExtnameState (startDot st) (startPart st) (ext_end st) (matchedSlash st) 1%Z
  end.

Definition mark_other (st : ExtnameState) : ExtnameState :=
  match startDot st with
  | Some _ => mkExtnameState (startDot st) (startPart st) (ext_end st) (matchedSlash st)
                (-1)%Z
  | None => st
  end.

(** The loop of [path.extname], from the last code unit to the first: the
    argument is the part of the path still to visit, last unit first, so
    the index [i] of its head is the length of its tail. *)
Fixpoint extname_for (backwards : jsstring) (st : ExtnameState) : ExtnameState :=
  match backwards with
  | [] => st
  | c :: rest =>
      let i := length rest in
      if code c =? 47 then
        if negb (matchedSlash st) then
          mkExtnameState (startDot st) (i + 1) (ext_end st) (matchedSlash st) (preDotState st)
        else extname_for rest st
      else
        let st1 := mark_end i st in
        extname_for rest (if code c =? 46 then mark_dot i st1 else mark_other st1)
  end.

(** [path.extname(path)] of the POSIX flavour. *)
Definition extname (path : jsstring) : jsstring :=
  let st := extname_for (reverse path) (mkExtnameState None 0 None true 0%Z) in
  match startDot st, ext_end st with
  | Some d, Some e =>
      if (preDotState st =? 0)%Z
         || ((preDotState st =? 1)%Z && (d =? e - 1) && (d =? startPart st + 1))
      then []
      else substring d e path
  | _, _ => []
  end.

(** [path.extname(entry.name).toLowerCase() === '.html'] *)
Definition is_html (name : jsstring) : bool :=
  bool_decide (toLowerCase (extname name) = str ".html").

(** *** The file system *)

(** A promise of the file system, once settled. *)
Inductive Settled (A : Type) : Type :=
| Rejected (message : jsstring)
| Fulfilled (value : A).

Arguments Rejected {A} message.
Arguments Fulfilled {A} value.

(** An entry of a listing ([fs.Dirent]): a regular file, a directory with
    what [fs.readdir] settles to for it, or something else (a link, a
    socket). *)
#[warnings="-register-all"] Inductive Dirent :=
| File (name : jsstring)
| Directory (name : jsstring) (listing : Settled (list Dirent))
| Other (name : jsstring).

Definition name (entry : Dirent) : jsstring :=
  match entry with
  | File n => n
  | Directory n _ => n
  | Other n => n
  end.

(** A call of the run that changes the file system, with its path below
    the output folder. *)
Inductive FsCall :=
| Mkdir (outputDir : Path)
| WriteFile (outputPath : Path) (data : JSValue).

(** The error of a rejected [fs.mkdir]. *)
Record FsError := mkFsError { err_code : jsstring; err_message : jsstring }.

(** What one run sees of the file system: the listing of the input folder
    with the listings below it, which the run asks for before it changes
    anything, and what the other calls settle to once the run has made the
    given calls: [fs.readFile(filePath, 'utf8')] for a path below the input
    folder, [fs.mkdir(outputDir, {recursive: true})] ([None] when it is
    fulfilled) and [fs.writeFile(outputPath, data, 'utf8')] for a path
    below the output folder. The output folder may lie inside the input
    folder: a read may depend on the writes before it. *)
Record FileSystem := mkFileSystem {
  readdir : Settled (list Dirent);
  readFile : list FsCall -> Path -> Settled jsstring;
  mkdir : list FsCall -> Path -> option FsError;
  writeFile : list FsCall -> Path -> JSValue -> Settled unit
}.

(** *** [findHtmlFiles] *)

Section Scan.
Variable scan_entry : Path -> Dirent -> list Path -> Settled (list Path).

(** The [for...of] loop of [scan]; a rejection leaves the loop. *)
Fixpoint scan_for (directory : Path) (entries : list Dirent) (files : list Path)
    : Settled (list Path) :=
  match entries with
  | [] => Fulfilled files
  | entry :: rest =>
      match scan_entry directory entry files with
      | Rejected m => Rejected m
      | Fulfilled files' => scan_for directory rest files'
      end
  end.

End Scan.

(** The body of the loop for one entry, with the array [files] passed
    along; for a directory it is the recursive call of [scan], whose
    [catch] block throws the rejection of [fs.readdir] again. *)
Fixpoint scan_entry (directory : Path) (entry : Dirent) (files : list Path)
    {struct entry} : Settled (list Path) :=
  let fullPath := directory ++ [name entry] in
  match entry with
  | Directory _ (Fulfilled entries) => scan_for scan_entry fullPath entries files
  | Directory _ (Rejected m) => Rejected m
  | File n => Fulfilled (if is_html n then files ++ [fullPath] else files)
  | Other _ => Fulfilled files
  end.

Definition scan (directory : Path) (listing : Settled (list Dirent)) (files : list Path)
    : Settled (list Path) :=
  match listing with
  | Rejected m => Rejected m
  | Fulfilled entries => scan_for scan_entry directory entries files
  end.

Definition findHtmlFiles (fs : FileSystem) : Settled (list Path) :=
  scan [] (readdir fs) [].

(** *** [processHTMLFilesForPreview] *)

(** [object[key] = value] on a plain object used as a map: a new key goes
    last, an existing key keeps its place. *)
Fixpoint obj_set {V : Type} (key : Path) (value : V) (object : list (Path * V))
    : list (Path * V) :=
  match object with
  | [] => [(key, value)]
  | (k, v) :: rest =>
      if decide (k = key) then (key, value) :: rest
      else (k, v) :: obj_set key value rest
  end.

Definition obj_get {V : Type} (key : Path) (object : list (Path * V)) : option V :=
  snd <$> find (fun kv => bool_decide (fst kv = key)) object.

(** The object the function resolves to; an absent property is [None],
    and so is [null]. *)
Record PreviewReport := mkPreviewReport {
  success : bool;
  results : option (list (Path * JSValue));
  errors : option (list (Path * jsstring));
  error : option jsstring;
  fileCount : nat
}.

Section FileProcessor.
Context {host : Host}.

(** [error.message] of an exception of the host. *)
Variable message_of : JSError -> jsstring.

(** The [for...of] loop over [htmlFiles] with its [try]/[catch]; the run
    changes nothing in the file system. *)
Fixpoint preview_for (fs : FileSystem) (patterns : PatternSpec) (htmlFiles : list Path)
    (results : list (Path * JSValue)) (errors : list (Path * jsstring)) (h : heap)
    : Outcome (list (Path * JSValue) * list (Path * jsstring)) :=
  match htmlFiles with
  | [] => Returned (results, errors) h
  | filePath :: rest =>
      match readFile fs [] filePath with
      | Rejected m =>
          preview_for fs patterns rest results
            (obj_set filePath (str "Error processing file: " ++ m) errors) h
      | Fulfilled content =>
          match previewSensitiveContent (VString content) patterns h with
          | Returned previewContent h' =>
              preview_for fs patterns rest (obj_set filePath previewContent results)
                errors h'
          | Threw e h' =>
              preview_for fs patterns rest results
                (obj_set filePath (str "Error processing file: " ++ message_of e) errors) h'
          | OutOfFuel => OutOfFuel
          end
      end
  end.

Definition processHTMLFilesForPreview (fs : FileSystem) (patterns : PatternSpec)
    (h : heap) : Outcome PreviewReport :=
  match findHtmlFiles fs with
  | Rejected m =>
      Returned (mkPreviewReport false None None
                  (Some (str "Failed to process directory: " ++ m)) 0) h
  | Fulfilled htmlFiles =>
      (do objects <- preview_for fs patterns htmlFiles [] [] ;
       let '(results, errors) := objects in
       Returned (mkPreviewReport true (Some results)
                   (if 0 <? length errors then Some errors else None)
                   None (length results))) h
  end.

End FileProcessor.

(** *** [ensureOutputDir] and [processHTMLFilesForRedaction] *)

(** [ensureOutputDir(inputPath, inputRoot, outputRoot)] once the run has
    made the calls [calls], for the path of a file, which has a last name:
    the directory of the file below the input folder is created below the
    output folder, a rejection whose code is [EEXIST] is ignored, and the
    result is the path of the file below the output folder. The second
    component is the calls made so far. *)
Definition ensureOutputDir (fs : FileSystem) (calls : list FsCall) (inputPath : Path)
    : Settled Path * list FsCall :=
  let relativePath := removelast inputPath in
  let outputDir := relativePath in
  let outputPath := outputDir ++ [default [] (last inputPath)] in
  match mkdir fs calls outputDir with
  | None => (Fulfilled outputPath, calls ++ [Mkdir outputDir])
  | Some err =>
      if decide (err_code err = str "EEXIST")
      then (Fulfilled outputPath, calls ++ [Mkdir outputDir])
      else (Rejected (err_message err), calls ++ [Mkdir outputDir])
  end.

Module Redacted.

(** The object [processHTMLFilesForRedaction] resolves to. *)
Record Report := mkReport {
  success : bool;
  processed : list Path;
  errors : option (list (Path * jsstring));
  error : option jsstring;
  fileCount : nat;
  outputFolder : option jsstring
}.

End Redacted.

Section Redactor.
Context {host : Host}.
Variable message_of : JSError -> jsstring.

(** The [for...of] loop over [htmlFiles] with its [try]/[catch]; [calls]
    is what the run has changed in the file system so far. *)
Fixpoint redact_for (fs : FileSystem) (patterns : PatternSpec) (htmlFiles : list Path)
    (processed : list Path) (errors : list (Path * jsstring)) (calls : list FsCall)
    (h : heap) : Outcome (list Path * list (Path * jsstring) * list FsCall) :=
  match htmlFiles with
  | [] => Returned (processed, errors, calls) h
  | filePath :: rest =>
      match readFile fs calls filePath with
      | Rejected m =>
          redact_for fs patterns rest processed
            (obj_set filePath (str "Error processing file: " ++ m) errors) calls h
      | Fulfilled content =>
          match redactSensitiveContent (VString content) patterns h with
          | Returned redactedContent h' =>
              match ensureOutputDir fs calls filePath with
              | (Rejected m, calls1) =>
                  redact_for fs patterns rest processed
                    (obj_set filePath (str "Error processing file: " ++ m) errors) calls1 h'
              | (Fulfilled outputPath, calls1) =>
                  match writeFile fs calls1 outputPath redactedContent with
                  | Rejected m =>
                      redact_for fs patterns rest processed
                        (obj_set filePath (str "Error processing file: " ++ m) errors)
                        (calls1 ++ [WriteFile outputPath redactedContent]) h'
                  | Fulfilled _ =>
                      redact_for fs patterns rest (processed ++ [filePath]) errors
                        (calls1 ++ [WriteFile outputPath redactedContent]) h'
                  end
              end
          | Threw e h' =>
              redact_for fs patterns rest processed
                (obj_set filePath (str "Error processing file: " ++ message_of e) errors)
                calls h'
          | OutOfFuel => OutOfFuel
          end
      end
  end.

(** The report, and the calls that changed the file system. *)
Definition processHTMLFilesForRedaction (fs : FileSystem) (outputFolder : jsstring)
    (patterns : PatternSpec) (h : heap) : Outcome (Redacted.Report * list FsCall) :=
  match findHtmlFiles fs with
  | Rejected m =>
      Returned (Redacted.mkReport false [] None
                  (Some (str "Failed to process directory: " ++ m)) 0 None, []) h
  | Fulfilled htmlFiles =>
      (do state <- redact_for fs patterns htmlFiles [] [] [] ;
       let '(processed, errors, calls) := state in
       Returned (Redacted.mkReport true processed
                   (if 0 <? length errors then Some errors else None)
                   None (length processed) (Some outputFolder), calls)) h
  end.

(** A write of [data] at [outputPath], made after the calls [before], is
    the redaction of a file the scan found: the same path below the input
    folder was read just before its directory was created, and [data] is
    what [redactSensitiveContent] returns for the content read, on the
    store [h]. *)
Definition is_redaction (fs : FileSystem) (patterns : PatternSpec) (h : heap)
    (htmlFiles : list Path) (before : list FsCall) (outputPath : Path) (data : JSValue)
    : Prop :=
  outputPath ∈ htmlFiles /\
  exists earlier content h1,
    before = earlier ++ [Mkdir (removelast outputPath)] /\
    readFile fs earlier outputPath = Fulfilled content /\
    redactSensitiveContent (VString content) patterns h = Returned data h1.

Definition writes_are_redactions (fs : FileSystem) (patterns : PatternSpec) (h : heap)
    (htmlFiles : list Path) (calls : list FsCall) : Prop :=
  forall before outputPath data after,
    calls = before ++ WriteFile outputPath data :: after ->
    is_redaction fs patterns h htmlFiles before outputPath data.

(** [processed] lists the files whose write was fulfilled. *)
Definition processed_are_written (fs : FileSystem) (calls : list FsCall)
    (processed : list Path) : Prop :=
  forall p, p ∈ processed <->
    exists before data after,
      calls = before ++ WriteFile p data :: after /\
      writeFile fs before p data = Fulfilled tt.

End Redactor.


(** *** What a listing holds *)

(** [holds entries path entry]: [path] leads from the listing to [entry]
    through directories that can be listed. *)
Inductive holds : list Dirent -> Path -> Dirent -> Prop :=
| holds_here entries entry :
    entry ∈ entries -> holds entries [name entry] entry
| holds_below entries n sub path entry :
    Directory n (Fulfilled sub) ∈ entries -> holds sub path entry ->
    holds entries (n :: path) entry.

(** Some directory of the tree, the input folder included, cannot be
    listed. *)
Definition locked (listing : Settled (list Dirent)) (m : jsstring) : Prop :=
  listing = Rejected m \/
  exists entries path n,
    listing = Fulfilled entries /\ holds entries path (Directory n (Rejected m)).


(** What a scan of [entries] below [directory] settles to, started with
    the array [files]: a rejection comes from a directory that cannot be
    listed; otherwise there is none, and the scan has added the paths of
    the files that pass [is_html]. *)
Definition scan_spec (entries : list Dirent) (directory : Path) (files : list Path)
    (r : Settled (list Path)) : Prop :=
  match r with
  | Rejected m => exists q n, holds entries q (Directory n (Rejected m))
  | Fulfilled files' =>
      (forall q n m, ~ holds entries q (Directory n (Rejected m))) /\
      exists found, files' = files ++ found /\
        forall p, p ∈ found <->
          exists q n, p = directory ++ q /\ holds entries q (File n) /\ is_html n = true
  end.


Section FileOutcome.
Context {host : Host}.
Variable message_of : JSError -> jsstring.

(** What one file alone comes to on the store [h]: its preview, or the
    text kept for it in [errors]. *)
Definition file_outcome (fs : FileSystem) (patterns : PatternSpec) (h : heap)
    (filePath : Path) : option (JSValue + jsstring) :=
  match readFile fs [] filePath with
  | Rejected m => Some (inr (str "Error processing file: " ++ m))
  | Fulfilled content =>
      match previewSensitiveContent (VString content) patterns h with
      | Returned previewContent _ => Some (inl previewContent)
      | Threw e _ => Some (inr (str "Error processing file: " ++ message_of e))
      | OutOfFuel => None
      end
  end.

(** The two objects of [processHTMLFilesForPreview] hold, for the paths
    of [seen] and for no other, what each file alone comes to on [h]. *)
Definition filed (fs : FileSystem) (patterns : PatternSpec) (h : heap)
    (seen : list Path) (results : list (Path * JSValue))
    (errors : list (Path * jsstring)) : Prop :=
  forall p,
    (p ∈ seen ->
       match file_outcome fs patterns h p with
       | Some (inl previewContent) =>
           obj_get p results = Some previewContent /\ obj_get p errors = None
       | Some (inr text) => obj_get p results = None /\ obj_get p errors = Some text
       | None => False
       end) /\
    (p ∉ seen -> obj_get p results = None /\ obj_get p errors = None).

End FileOutcome.


(** Two folders for the examples. In the first, [index.html] can be
    read and [docs/Guide.HTML] cannot; [.html], [notes.txt] and the link
    are not HTML files. The second has a directory that cannot be listed. *)
Definition example_folder : FileSystem :=
  mkFileSystem
    (Fulfilled [ File (str "index.html");
                 Directory (str "docs")
                   (Fulfilled [File (str "Guide.HTML"); Other (str "link.html")]);
                 File (str ".html");
                 File (str "notes.txt") ])
    (fun _ p => if decide (p = [str "index.html"])
                then Fulfilled (str "<p>mail bob@x.io</p>")
                else Rejected (str "EACCES: permission denied"))
    (fun _ _ => None)
    (fun _ _ _ => Fulfilled tt).

Definition locked_folder : FileSystem :=
  mkFileSystem
    (Fulfilled [ File (str "index.html");
                 Directory (str "private") (Rejected (str "EACCES: permission denied")) ])
    (fun _ _ => Fulfilled (str "<p></p>"))
    (fun _ _ => None)
    (fun _ _ _ => Fulfilled tt).

Definition example_message (e : JSError) : jsstring :=
  match e with
  | TypeError => str "customPatterns.map is not a function"
  | SyntaxError => str "Invalid regular expression"
  | InvalidInputError => str "Invalid input"
  end.


(** * Properties *)

(** ** The matcher stays inside the input

    A successful match hands a position between the start and the end of
    the input to its continuation. *)

Lemma repeat_matcher_bounds m greedy k (s : jsstring) :
  (forall i d z, i <= length s -> m i d = Some z ->
     exists j, i <= j <= length s /\ d j = Some z) ->
  forall fuel min max i z,
    i <= length s ->
    repeat_matcher m greedy k fuel min max i = Some z ->
    exists j, i <= j <= length s /\ k j = Some z.
Proof.
  intros Hm. induction fuel as [|fuel IH]; intros min max i z Hi Hrep; [discriminate|].
  simpl in Hrep.
  assert (Hd : forall y,
    (if (min =? 0) && (y =? i) then None
     else repeat_matcher m greedy k fuel (pred min) (pred <$> max) y) = Some z ->
    i <= y <= length s -> exists j, i <= j <= length s /\ k j = Some z).
  { intros y Hy [Hy1 Hy2]. destruct ((min =? 0) && (y =? i)); [discriminate|].
    destruct (IH _ _ _ _ Hy2 Hy) as (j & Hj & Hk). exists j. split; [lia|done]. }
  assert (Hbody : forall z',
    m i (fun j => if (min =? 0) && (j =? i) then None
                  else repeat_matcher m greedy k fuel (pred min) (pred <$> max) j) = Some z' ->
    z' = z -> exists j, i <= j <= length s /\ k j = Some z).
  { intros z' Hz' ->. destruct (Hm _ _ _ Hi Hz') as (y & Hy & Hdy). eauto. }
  assert (Hk : forall z', k i = Some z' -> z' = z ->
    exists j, i <= j <= length s /\ k j = Some z).
  { intros z' Hz' ->. exists i. split; [lia|done]. }
  destruct max as [[|max]|]; [by eapply Hk| |].
  all: destruct (negb (min =? 0)); [by eapply Hbody|].
  all: destruct greedy.
  all: repeat match type of Hrep with
       | match ?x with _ => _ end = _ => destruct x eqn:?
       end; simplify_eq; eauto.
Qed.

Lemma match_char_bounds p (s : jsstring) i k z :
  match_char p s i k = Some z -> exists j, i <= j <= length s /\ k j = Some z.
Proof.
  unfold match_char. destruct (s !! i) as [c|] eqn:Hc; [|discriminate].
  apply lookup_lt_Some in Hc. destruct (p c); [|discriminate].
  intros Hk. exists (S i). split; [lia|done].
Qed.

Lemma matchR_bounds r (s : jsstring) :
  forall i k z, i <= length s -> matchR r s i k = Some z ->
    exists j, i <= j <= length s /\ k j = Some z.
Proof.
  induction r as [ |c| |neg atoms| | |neg|r1 IH1 r2 IH2|r1 IH1 r2 IH2
                 |greedy min max r1 IH1|r1 IH1|neg r1 IH1];
    intros i k z Hi Hm; simpl in Hm.
  - exists i. split; [lia|done].
  - by eapply match_char_bounds.
  - by eapply match_char_bounds.
  - by eapply match_char_bounds.
  - destruct (i =? 0); [|discriminate]. exists i. split; [lia|done].
  - destruct (i =? length s); [|discriminate]. exists i. split; [lia|done].
  - destruct (xorb neg _); [|discriminate]. exists i. split; [lia|done].
  - destruct (IH1 _ _ _ Hi Hm) as (j & Hj & Hm2).
    destruct (IH2 j k z) as (j' & Hj' & Hk); [lia|done|].
    exists j'. split; [lia|done].
  - destruct (matchR r1 s i k) eqn:H1; simplify_eq; eauto.
  - eapply repeat_matcher_bounds; [|done|done]. intros; eauto.
  - eauto.
  - exists i. split; [lia|].
    destruct (matchR r1 s i Some); destruct neg; done.
Qed.

Lemma match_at_bounds r (s : jsstring) i e :
  i <= length s -> match_at r s i = Some e -> i <= e <= length s.
Proof.
  intros Hi Hm. destruct (matchR_bounds r s i Some e Hi Hm) as (j & Hj & Hk).
  by simplify_eq.
Qed.

(** ** The round bounds are never reached

    The matcher calls its continuation only at positions of the input, so
    a quantifier gives the same result with any number of rounds above
    [min + (length s - i)]: the bound in [matchR] cuts nothing off. *)

Lemma repeat_matcher_ext m greedy (s : jsstring) :
  (forall i k1 k2, i <= length s -> continuations_agree s i k1 k2 -> m i k1 = m i k2) ->
  forall fuel min max i k1 k2,
    i <= length s -> continuations_agree s i k1 k2 ->
    repeat_matcher m greedy k1 fuel min max i = repeat_matcher m greedy k2 fuel min max i.
Proof.
  intros Hm. induction fuel as [|fuel IH]; intros min max i k1 k2 Hi Hk; [done|].
  simpl. rewrite (Hk i) by lia.
  rewrite (Hm i _ (fun j => if (min =? 0) && (j =? i) then None
                            else repeat_matcher m greedy k2 fuel (pred min) (pred <$> max) j));
    [done|done|].
  intros j Hj. destruct ((min =? 0) && (j =? i)); [done|].
  apply IH; [lia|]. intros j' Hj'. apply Hk. lia.
Qed.

Lemma match_char_ext p (s : jsstring) i k1 k2 :
  continuations_agree s i k1 k2 -> match_char p s i k1 = match_char p s i k2.
Proof.
  intros Hk. unfold match_char. destruct (s !! i) as [c|] eqn:Hc; [|done].
  apply lookup_lt_Some in Hc. destruct (p c); [|done]. apply Hk. lia.
Qed.

Lemma matchR_ext r (s : jsstring) : forall i k1 k2,
  i <= length s -> continuations_agree s i k1 k2 -> matchR r s i k1 = matchR r s i k2.
Proof.
  induction r as [ |c| |neg atoms| | |neg|r1 IH1 r2 IH2|r1 IH1 r2 IH2
                 |greedy min max r1 IH1|r1 IH1|neg r1 IH1];
    intros i k1 k2 Hi Hk; simpl;
    try (by apply match_char_ext); try (rewrite (Hk i) by lia; done).
  - apply IH1; [done|]. intros j Hj. apply IH2; [lia|].
    intros j' Hj'. apply Hk. lia.
  - by rewrite (IH1 i k1 k2), (IH2 i k1 k2).
  - by apply (repeat_matcher_ext _ _ s).
  - by apply IH1.
Qed.

Lemma repeat_matcher_fuel m greedy k (s : jsstring) :
  (forall i k1 k2, i <= length s -> continuations_agree s i k1 k2 -> m i k1 = m i k2) ->
  forall fuel1 fuel2 min max i,
    i <= length s ->
    min + (length s - i) < fuel1 -> min + (length s - i) < fuel2 ->
    repeat_matcher m greedy k fuel1 min max i = repeat_matcher m greedy k fuel2 min max i.
Proof.
  intros Hm. induction fuel1 as [|fuel1 IH]; intros fuel2 min max i Hi H1 H2; [lia|].
  destruct fuel2 as [|fuel2]; [lia|]. simpl.
  rewrite (Hm i _ (fun j => if (min =? 0) && (j =? i) then None
                            else repeat_matcher m greedy k fuel2 (pred min) (pred <$> max) j));
    [done|done|].
  intros j Hj. destruct (min =? 0) eqn:Hmin; simpl.
  - apply Nat.eqb_eq in Hmin as ->. destruct (j =? i) eqn:Hji; [done|].
    apply Nat.eqb_neq in Hji. apply IH; simpl; lia.
  - apply Nat.eqb_neq in Hmin. apply IH; lia.
Qed.

Lemma quantifier_rounds_suffice greedy min max r (s : jsstring) i k fuel :
  i <= length s -> min + length s + 1 <= fuel ->
  repeat_matcher (matchR r s) greedy k fuel min max i
    = matchR (RQuant greedy min max r) s i k.
Proof.
  intros Hi Hfuel. simpl. apply (repeat_matcher_fuel _ _ _ s); [|done|lia|lia].
  intros. by apply matchR_ext.
Qed.

(** ** The forward search of [exec] *)

Lemma search_Some r (s : jsstring) n : forall i a e,
  search r s i n = Some (a, e) ->
  i <= a < i + n /\ match_at r s a = Some e /\
  forall b, i <= b < a -> match_at r s b = None.
Proof.
  induction n as [|n IH]; intros i a e Hs; [discriminate|]. simpl in Hs.
  destruct (match_at r s i) as [e'|] eqn:Hm.
  - simplify_eq. split; [lia|]. split; [done|]. intros b Hb. lia.
  - destruct (IH _ _ _ Hs) as (Ha & Hma & Hbefore).
    split; [lia|]. split; [done|]. intros b Hb.
    destruct (decide (b = i)) as [->|]; [done|]. apply Hbefore. lia.
Qed.

Lemma search_None r (s : jsstring) n : forall i,
  search r s i n = None <-> forall b, i <= b < i + n -> match_at r s b = None.
Proof.
  induction n as [|n IH]; intros i; simpl.
  - split; [intros _ b Hb; lia|done].
  - destruct (match_at r s i) as [e|] eqn:Hm.
    + split; [done|]. intros Hall. rewrite Hall in Hm; [done|lia].
    + rewrite IH. split; intros Hall b Hb.
      * destruct (decide (b = i)) as [->|]; [done|]. apply Hall. lia.
      * apply Hall. lia.
Qed.

(** ** The two worked examples of the specification *)

(** C1: on "Contact me at a@b.com or 555-123-4567" with the default
    patterns, [identifySensitiveText] returns exactly two matches, the
    e-mail address found by the first default pattern and the phone number
    found by the second, and [redactSensitiveContent] returns
    "Contact me at [REDACTED] or [REDACTED]". Two rounds of each scan loop
    are enough, and the default patterns are left at scan position 0. *)
Theorem contact_example `{Host} (fuel : nat) :
  let content := VString (str "Contact me at a@b.com or 555-123-4567") in
  identifySensitiveText (S (S fuel)) content SpecAbsent DEFAULT_HEAP =
    Returned
      (mkScan
         [ mkMatch (str "a@b.com") 14 7
             (str "/([a-zA-Z0-9_.+-]+@[a-zA-Z0-9-]+\.[a-zA-Z0-9-.]+)/g");
           mkMatch (str "555-123-4567") 25 12
             (str "/(\+\d{1,3}[\s-])?\(?\d{3}\)?[\s.-]?\d{3}[\s.-]?\d{4}/g") ]
         2)
      DEFAULT_HEAP
  /\ redactSensitiveContent content SpecAbsent DEFAULT_HEAP =
       Returned (VString (str "Contact me at [REDACTED] or [REDACTED]")) DEFAULT_HEAP.
Proof. split; vm_compute; reflexivity. Qed.

(** C6: on "123-45-6789" with the default patterns,
    [identifySensitiveText] returns exactly one match, the whole token,
    found by the third default pattern (the SSN one); the phone pattern
    before it and the card pattern after it find nothing. *)
Theorem ssn_example `{Host} (fuel : nat) :
  let content := str "123-45-6789" in
  identifySensitiveText (S (S fuel)) (VString content) SpecAbsent DEFAULT_HEAP =
    Returned
      (mkScan [ mkMatch content 0 11 (str "/\b\d{3}[-.]?\d{2}[-.]?\d{4}\b/g") ] 1)
      DEFAULT_HEAP
  /\ search email_pattern content 0 (S (length content)) = None
  /\ search phone_pattern content 0 (S (length content)) = None
  /\ search ssn_pattern content 0 (S (length content)) = Some (0, 11)
  /\ search card_pattern content 0 (S (length content)) = None.
Proof. repeat split; vm_compute; reflexivity. Qed.

(** ** [exec] on one object *)

Lemma set_lastIndex_same (R : RegExpObj) : set_lastIndex (lastIndex R) R = R.
Proof. by destruct R. Qed.

Lemma substring_length (s : jsstring) i e :
  i <= e <= length s -> length (substring i e s) = e - i.
Proof. intros H. unfold substring. rewrite length_take, length_drop. lia. Qed.

Lemma exec_Some (R : RegExpObj) (s : jsstring) m R' :
  RegExpBuiltinExec R s = (Some m, R') ->
  exists e,
    match_at (pattern R) s (index m) = Some e /\
    scan_start R <= index m <= e /\ e <= length s /\
    (sticky R = true -> index m = scan_start R) /\
    (forall b, scan_start R <= b < index m -> match_at (pattern R) s b = None) /\
    matched m = substring (index m) e s /\
    length (matched m) = e - index m /\
    R' = (if tracking R then set_lastIndex e R else R).
Proof.
  unfold RegExpBuiltinExec. intros Hexec.
  destruct (search _ _ _ _) as [[a e]|] eqn:Hs; [|by simplify_eq].
  apply search_Some in Hs as (Ha & Hm & Hbefore). simplify_eq. simpl.
  assert (a <= length s) by (destruct (sticky R); lia).
  destruct (match_at_bounds _ _ _ _ ltac:(done) Hm).
  exists e. split; [done|]. split; [lia|]. split; [done|].
  split; [intros Hy; rewrite Hy in Ha; lia|]. split; [done|]. split; [done|].
  split; [apply substring_length; lia|done].
Qed.

Lemma exec_None (R : RegExpObj) (s : jsstring) R' :
  RegExpBuiltinExec R s = (None, R') ->
  R' = (if tracking R then set_lastIndex 0 R else R) /\
  (sticky R = false ->
     forall b, scan_start R <= b <= length s -> match_at (pattern R) s b = None).
Proof.
  unfold RegExpBuiltinExec. intros Hexec.
  destruct (search _ _ _ _) as [[a e]|] eqn:Hs; [by simplify_eq|].
  simplify_eq. split; [done|]. intros Hy b Hb. rewrite Hy in Hs.
  eapply search_None; [exact Hs|]. lia.
Qed.

(** A pattern without matches in the input makes [exec] fail whatever the
    flags and the scan position. *)
Lemma exec_no_match (R : RegExpObj) (s : jsstring) :
  search (pattern R) s 0 (S (length s)) = None ->
  RegExpBuiltinExec R s = (None, if tracking R then set_lastIndex 0 R else R).
Proof.
  intros Hnone. unfold RegExpBuiltinExec.
  destruct (search _ _ (scan_start R) _) as [[a e]|] eqn:Hs; [|done].
  apply search_Some in Hs as (Ha & Hm & _).
  assert (a <= length s) by (destruct (sticky R); lia).
  rewrite search_None in Hnone. rewrite Hnone in Hm; [done|lia].
Qed.

Lemma exec_fields (R : RegExpObj) (s : jsstring) m R' :
  RegExpBuiltinExec R s = (m, R') -> R' = set_lastIndex (lastIndex R') R.
Proof.
  unfold RegExpBuiltinExec.
  destruct (search _ _ _ _) as [[a e]|]; intros; simplify_eq;
    destruct (tracking R); simpl; by rewrite ?set_lastIndex_same.
Qed.

Lemma toString_set_lastIndex n (R : RegExpObj) :
  RegExp_toString (set_lastIndex n R) = RegExp_toString R.
Proof. done. Qed.

Lemma exec_toString (R : RegExpObj) (s : jsstring) m R' :
  RegExpBuiltinExec R s = (m, R') -> RegExp_toString R' = RegExp_toString R.
Proof. intros Hexec. by rewrite (exec_fields _ _ _ _ Hexec). Qed.

(** ** The scan loop of [identifySensitiveText] *)

(** A successful [exec] that leaves the object as it was will succeed in
    the same way for ever. *)
Lemma scan_while_stuck (R : RegExpObj) (s : jsstring) m :
  RegExpBuiltinExec R s = (Some m, R) -> forall fuel, scan_while fuel R s = None.
Proof.
  intros Hexec. induction fuel as [|fuel IH]; [done|].
  simpl. by rewrite Hexec, IH.
Qed.

Lemma scan_while_toString fuel : forall (R : RegExpObj) (s : jsstring) ms Rf,
  scan_while fuel R s = Some (ms, Rf) -> RegExp_toString Rf = RegExp_toString R.
Proof.
  induction fuel as [|fuel IH]; intros R s ms Rf Hscan; [done|]. simpl in Hscan.
  destruct (RegExpBuiltinExec R s) as [[m|] R'] eqn:Hexec.
  - destruct (scan_while fuel R' s) as [[ms' Rf']|] eqn:Hrest; simplify_eq.
    rewrite (IH _ _ _ _ Hrest). by eapply exec_toString.
  - simplify_eq. by eapply exec_toString.
Qed.

(** The loop on the store is the loop on the object the reference names. *)
Lemma exec_while_scan fuel : forall p content acc (h : heap) (R : RegExpObj),
  h !! p = Some R ->
  exec_while fuel p content acc h =
    match scan_while fuel R (ToString content) with
    | Some (ms, Rf) => Returned (acc ++ (to_match R <$> ms)) (<[p := Rf]> h)
    | None => OutOfFuel
    end.
Proof.
  induction fuel as [|fuel IH]; intros p content acc h R Hp; [done|].
  simpl. unfold exec. rewrite Hp.
  destruct (RegExpBuiltinExec R (ToString content)) as [[m|] R'] eqn:Hexec.
  - assert (Hp' : <[p := R']> h !! p = Some R').
    { apply list_lookup_insert_eq. by eapply lookup_lt_Some. }
    rewrite (IH _ _ _ _ _ Hp').
    destruct (scan_while fuel R' (ToString content)) as [[ms Rf]|]; [|done].
    rewrite list_insert_insert_eq. unfold pattern_toString. rewrite Hp'.
    rewrite <- app_assoc. simpl. unfold to_match.
    by rewrite (exec_toString _ _ _ _ Hexec).
  - by rewrite app_nil_r.
Qed.

Lemma identify_compiled `{Host} fuel content spec (h : heap) ps h1 :
  compilePatterns spec h = Returned ps h1 ->
  identifySensitiveText fuel content spec h =
    match identify_forEach fuel ps content [] h1 with
    | Returned found h' => Returned (mkScan found (length found)) h'
    | Threw e h' => Threw e h'
    | OutOfFuel => OutOfFuel
    end.
Proof. intros Hc. unfold identifySensitiveText, bind. by rewrite Hc. Qed.

Lemma identify_forEach_cons fuel p ps content acc (h : heap) :
  identify_forEach fuel (p :: ps) content acc h =
    match exec_while fuel p content acc h with
    | Returned acc' h' => identify_forEach fuel ps content acc' h'
    | Threw e h' => Threw e h'
    | OutOfFuel => OutOfFuel
    end.
Proof. done. Qed.

(** C3 fails on the code: for the content "abc" and the global pattern
    [/x*/g], which matches the empty string at position 0,
    [identifySensitiveText] never returns, whatever number of rounds it is
    given: [exec] leaves the scan position at 0 after the empty match and
    the loop makes no step forward. *)
Theorem empty_match_loops_forever `{Host} (fuel : nat) :
  identifySensitiveText fuel (VString (str "abc")) (SpecList [SrcRegExp 4])
    (DEFAULT_HEAP ++ [new_global (str "x*") (RStar (RChar "x"))]) = OutOfFuel.
Proof.
  rewrite (identify_compiled _ _ _ _ [4]
             (DEFAULT_HEAP ++ [new_global (str "x*") (RStar (RChar "x"))]));
    [|reflexivity].
  rewrite identify_forEach_cons.
  rewrite (exec_while_scan fuel 4 _ _ _ (new_global (str "x*") (RStar (RChar "x"))));
    [|reflexivity].
  rewrite (scan_while_stuck _ _ (mkExec 0 [])); [done|].
  vm_compute. reflexivity.
Qed.

(** ** The pattern compiler *)

Section Compiler.
Context {host : Host}.

Lemma map_sources_spec (h0 : heap) (l : list PatternSource) :
  Forall (source_wf h0) l ->
  forall (h : heap) rs h',
    h0 `prefix_of` h ->
    map_sources l h = (rs, h') ->
    h' = h ++ omap fresh_object l /\
    Forall2 (fun p R => h' !! p = Some R) (filter_Boolean rs) (omap (compiled_object h0) l).
Proof.
  induction 1 as [|src l Hsrc Hl IH]; intros h rs h' Hpre Hmap; simpl in Hmap.
  - simplify_eq. rewrite app_nil_r. split; [done|constructor].
  - destruct (compile_source src h) as [r h1] eqn:Hc.
    destruct (map_sources l h1) as [rs' h2] eqn:Hrest. simplify_eq.
    destruct src as [s|p|]; simpl in Hc, Hsrc.
    + destruct (RegExpCompile (strip_delimiters s)) as [r0|] eqn:Hr; simplify_eq.
      * destruct (IH (h ++ [new_global (EscapeRegExpPattern (strip_delimiters s)) r0]) rs' h')
          as [Heq HF]; [by apply prefix_app_r|done|].
        assert (Hfresh : omap fresh_object (SrcString s :: l)
                  = new_global (EscapeRegExpPattern (strip_delimiters s)) r0
                    :: omap fresh_object l) by (simpl; by rewrite Hr).
        assert (Hobj : omap (compiled_object h0) (SrcString s :: l)
                  = new_global (EscapeRegExpPattern (strip_delimiters s)) r0
                    :: omap (compiled_object h0) l) by (simpl; by rewrite Hr).
        rewrite Hfresh, Hobj. rewrite <- app_assoc in Heq. split; [done|].
        unfold filter_Boolean in *. simpl. constructor; [|done].
        rewrite Heq. by apply list_lookup_middle.
      * assert (Hfresh : omap fresh_object (SrcString s :: l) = omap fresh_object l)
          by (simpl; by rewrite Hr).
        assert (Hobj : omap (compiled_object h0) (SrcString s :: l)
                  = omap (compiled_object h0) l) by (simpl; by rewrite Hr).
        rewrite Hfresh, Hobj. by apply (IH _ rs').
    + assert (p < length h) by (apply prefix_length in Hpre; lia).
      destruct (decide (p < length h)); [|lia]. simplify_eq.
      destruct (IH _ _ _ Hpre Hrest) as [-> HF]. split; [done|].
      destruct (lookup_lt_is_Some_2 h0 p Hsrc) as [R HR].
      change (omap (compiled_object h0) (SrcRegExp p :: l))
        with (match h0 !! p with
              | Some R => R :: omap (compiled_object h0) l
              | None => omap (compiled_object h0) l
              end).
      rewrite HR. unfold filter_Boolean in *. simpl. constructor; [|done].
      rewrite lookup_app_l; [|done]. by eapply prefix_lookup_Some.
    + simplify_eq. by apply (IH _ rs').
Qed.

Lemma compilePatterns_sources spec l (h : heap) :
  spec_sources spec = Some l ->
  compilePatterns spec h = Returned (filter_Boolean (map_sources l h).1) (map_sources l h).2.
Proof.
  destruct spec as [|[|c s]|l'|p]; simpl; intros Hs; simplify_eq.
  - by destruct (map_sources _ h).
  - by destruct (map_sources _ h).
Qed.

Lemma compilePatterns_spec spec l (h : heap) :
  spec_sources spec = Some l ->
  Forall (source_wf h) l ->
  exists ps,
    compilePatterns spec h = Returned ps (h ++ omap fresh_object l) /\
    Forall2 (fun p R => (h ++ omap fresh_object l) !! p = Some R) ps
      (omap (compiled_object h) l).
Proof.
  intros Hs Hwf. rewrite (compilePatterns_sources _ _ _ Hs).
  destruct (map_sources l h) as [rs h'] eqn:Hmap.
  destruct (map_sources_spec h l Hwf h rs h') as [-> HF]; [done|done|].
  eauto.
Qed.

Lemma omap_all_None {A B} (f : A -> option B) (l : list A) :
  (forall x, x ∈ l -> f x = None) -> omap f l = [].
Proof.
  induction l as [|x l IH]; intros Hall; [done|]. simpl.
  rewrite Hall; [|left]. apply IH. intros y Hy. apply Hall. by right.
Qed.

Lemma map_sources_refs (l : list PatternSource) :
  forall (h : heap) rs h',
    map_sources l h = (rs, h') ->
    length h <= length h' /\
    forall p, p ∈ filter_Boolean rs ->
      (SrcRegExp p ∈ l /\ p < length h') \/ length h <= p < length h'.
Proof.
  induction l as [|src l IH]; intros h rs h' Hmap; simpl in Hmap.
  - simplify_eq. split; [done|]. intros p Hp. by apply elem_of_nil in Hp.
  - destruct (compile_source src h) as [r h1] eqn:Hc.
    destruct (map_sources l h1) as [rs' h2] eqn:Hrest. simplify_eq.
    destruct (IH _ _ _ Hrest) as [Hlen Hrefs].
    assert (Htail : forall p, p ∈ filter_Boolean rs' -> length h <= length h1 ->
              (SrcRegExp p ∈ src :: l /\ p < length h') \/ length h <= p < length h').
    { intros p Hp Hle. destruct (Hrefs p Hp) as [[? ?]|?];
        [left; split; [by right|done]|right; lia]. }
    destruct src as [s|q|]; simpl in Hc.
    + destruct (RegExpCompile (strip_delimiters s)) as [r0|]; simplify_eq.
      * rewrite length_app in *. simpl in *. split; [lia|].
        intros p Hp. unfold filter_Boolean in Hp. simpl in Hp.
        apply elem_of_cons in Hp as [->|Hp]; [right; lia|].
        apply Htail; [done|lia].
      * split; [done|]. intros p Hp. by apply Htail.
    + destruct (decide (q < length h)); simplify_eq.
      * split; [done|]. intros p Hp. unfold filter_Boolean in Hp. simpl in Hp.
        apply elem_of_cons in Hp as [->|Hp]; [left; split; [left|lia]|by apply Htail].
      * split; [done|]. intros p Hp. by apply Htail.
    + simplify_eq. split; [done|]. intros p Hp. by apply Htail.
Qed.

(** C2, as the code has it: the default list is the result exactly for an
    absent spec and for the empty string (the falsy specs); the empty array
    compiles to the empty list; a bare [RegExp] object makes the compiler
    throw a TypeError; for every string with characters and every array
    the compiled references are [RegExp] objects listed in the spec or
    objects allocated by this very call, so the defaults are never mixed
    in, and the result can be the default list only when the spec lists
    those four objects itself. *)
Theorem defaults_only_for_falsy_specs spec (h : heap) :
  length DEFAULT_PATTERNS <= length h ->
  (spec = SpecAbsent \/ spec = SpecString [] ->
     compilePatterns spec h = Returned DEFAULT_PATTERNS h)
  /\ (spec = SpecList [] -> compilePatterns spec h = Returned [] h)
  /\ (forall p, spec = SpecRegExp p -> compilePatterns spec h = Threw TypeError h)
  /\ (forall l, spec_sources spec = Some l ->
        exists ps h', compilePatterns spec h = Returned ps h' /\
          forall p, p ∈ ps -> SrcRegExp p ∈ l \/ length h <= p < length h')
  /\ (forall h', compilePatterns spec h = Returned DEFAULT_PATTERNS h' ->
        spec = SpecAbsent \/ spec = SpecString [] \/
        exists l, spec = SpecList l /\ forall p, p ∈ DEFAULT_PATTERNS -> SrcRegExp p ∈ l).
Proof.
  intros Hloaded.
  assert (Hsrc : forall l, spec_sources spec = Some l ->
            exists ps h', compilePatterns spec h = Returned ps h' /\
              forall p, p ∈ ps -> SrcRegExp p ∈ l \/ length h <= p < length h').
  { intros l Hs. rewrite (compilePatterns_sources _ _ _ Hs).
    destruct (map_sources l h) as [rs h'] eqn:Hmap.
    destruct (map_sources_refs _ _ _ _ Hmap) as [_ Hrefs].
    eexists _, _. split; [done|]. intros p Hp.
    destruct (Hrefs p Hp) as [[? ?]|?]; [by left|by right]. }
  split; [by intros [->| ->]|]. split; [by intros ->|].
  split; [by intros p ->|]. split; [done|].
  intros h' Hdef. destruct spec as [|[|c s]|l|p]; [by left|right; by left| | |done].
  - exfalso. destruct (Hsrc _ eq_refl) as (ps & h2 & Hc & Hrefs).
    rewrite Hc in Hdef. simplify_eq.
    destruct (Hrefs 0) as [Hin|Hfresh]; [by left| |simpl in Hloaded; lia].
    apply list_elem_of_fmap in Hin as (? & ? & ?). done.
  - right; right. exists l. split; [done|]. intros p Hp.
    destruct (Hsrc _ eq_refl) as (ps & h2 & Hc & Hrefs).
    rewrite Hc in Hdef. simplify_eq.
    destruct (Hrefs p Hp) as [Hin|Hfresh]; [done|].
    exfalso. simpl in Hloaded.
    repeat (apply elem_of_cons in Hp as [->|Hp]; [lia|]). by apply elem_of_nil in Hp.
Qed.

(** C4: a spec made of pattern sources always compiles; the compiled list
    holds, in the order of the sources, exactly the objects of the valid
    ones (a source that fails to compile contributes nothing); if no source
    is valid the compiled list is empty and [identifySensitiveText] returns
    no match and a count of 0, without an error. *)
Theorem invalid_sources_dropped spec l (h : heap) :
  spec_sources spec = Some l ->
  Forall (source_wf h) l ->
  exists ps h',
    compilePatterns spec h = Returned ps h' /\
    Forall2 (fun p R => h' !! p = Some R) ps (omap (compiled_object h) l) /\
    ((forall src, src ∈ l -> compiled_object h src = None) ->
       ps = [] /\
       forall fuel content,
         identifySensitiveText fuel content spec h = Returned (mkScan [] 0) h').
Proof.
  intros Hs Hwf. destruct (compilePatterns_spec _ _ _ Hs Hwf) as (ps & Hc & HF).
  exists ps, (h ++ omap fresh_object l). split; [done|]. split; [done|].
  intros Hnone. rewrite (omap_all_None _ _ Hnone) in HF.
  apply Forall2_nil_inv_r in HF as ->. split; [done|].
  intros fuel content. unfold identifySensitiveText, bind. by rewrite Hc.
Qed.

(** Every compiled reference names an object of the store. *)
Lemma compilePatterns_valid spec (h : heap) ps h1 :
  length DEFAULT_PATTERNS <= length h ->
  compilePatterns spec h = Returned ps h1 ->
  length h <= length h1 /\ forall p, p ∈ ps -> p < length h1.
Proof.
  intros Hloaded Hc.
  destruct (spec_sources spec) as [l|] eqn:Hs.
  - rewrite (compilePatterns_sources _ _ _ Hs) in Hc.
    destruct (map_sources l h) as [rs h'] eqn:Hmap. simpl in Hc. simplify_eq.
    destruct (map_sources_refs _ _ _ _ Hmap) as [Hlen Hrefs].
    split; [done|]. intros p Hp. destruct (Hrefs p Hp) as [[? ?]|?]; lia.
  - destruct spec as [|[|c s]|l|p]; simpl in Hs, Hc; simplify_eq.
    all: split; [done|]; intros p Hp; simpl in Hloaded.
    all: repeat (apply elem_of_cons in Hp as [->|Hp]; [lia|]); by apply elem_of_nil in Hp.
Qed.

(** The compiler throws TypeErrors only. *)
Lemma compilePatterns_throws spec (h : heap) e h' :
  compilePatterns spec h = Threw e h' -> e = TypeError /\ h' = h.
Proof.
  destruct spec as [|[|c s]|l|p]; simpl; try done.
  - by destruct (map_sources _ h).
  - by destruct (map_sources _ h).
  - intros; by simplify_eq.
Qed.

Lemma compilePatterns_ends spec (h : heap) : compilePatterns spec h <> OutOfFuel.
Proof.
  destruct spec as [|[|c s]|l|p]; simpl; try done.
  - by destruct (map_sources _ h).
  - by destruct (map_sources _ h).
Qed.

End Compiler.

(** ** Content that is not a string *)

Section NonText.
Context {host : Host}.

Lemma exec_while_coerces fuel : forall p content acc (h : heap),
  exec_while fuel p content acc h
    = exec_while fuel p (VString (ToString content)) acc h.
Proof.
  induction fuel as [|fuel IH]; intros p content acc h; [done|].
  simpl. unfold exec. simpl.
  destruct (h !! p) as [R|]; [|done].
  destruct (RegExpBuiltinExec R (ToString content)) as [[m|] R']; [|done].
  apply IH.
Qed.

Lemma identify_forEach_coerces fuel ps : forall content acc (h : heap),
  identify_forEach fuel ps content acc h
    = identify_forEach fuel ps (VString (ToString content)) acc h.
Proof.
  induction ps as [|p ps IH]; intros content acc h; [done|].
  rewrite !identify_forEach_cons, <- exec_while_coerces.
  destruct (exec_while fuel p content acc h); [apply IH|done|done].
Qed.

Lemma exec_while_throws fuel : forall p content acc (h : heap) e h',
  exec_while fuel p content acc h = Threw e h' -> e = TypeError.
Proof.
  induction fuel as [|fuel IH]; intros p content acc h e h' Hw; [done|].
  simpl in Hw. unfold exec in Hw. destruct (h !! p) as [R|]; [|by simplify_eq].
  destruct (RegExpBuiltinExec R (ToString content)) as [[m|] R']; [|done].
  by eapply IH.
Qed.

Lemma identify_forEach_throws fuel ps : forall content acc (h : heap) e h',
  identify_forEach fuel ps content acc h = Threw e h' -> e = TypeError.
Proof.
  induction ps as [|p ps IH]; intros content acc h e h' Hf; [done|].
  rewrite identify_forEach_cons in Hf.
  destruct (exec_while fuel p content acc h) eqn:Hw; [by eapply IH| |done].
  simplify_eq. by eapply exec_while_throws.
Qed.

Lemma String_replace_throws this p f (h : heap) e h' :
  String_replace this p f h = Threw e h' -> e = TypeError.
Proof.
  unfold String_replace. destruct this; try (intros; by simplify_eq).
  destruct (h !! p) as [R|]; [|intros; by simplify_eq].
  by destruct (RegExpReplace R s f).
Qed.

Lemma String_match_throws this p (h : heap) e h' :
  String_match this p h = Threw e h' -> e = TypeError.
Proof.
  unfold String_match. destruct this; try (intros; by simplify_eq).
  destruct (h !! p) as [R|]; [|intros; by simplify_eq].
  by destruct (RegExp_results R s).
Qed.

Lemma preview_forEach_throws ps : forall this (h : heap) e h',
  preview_forEach ps this h = Threw e h' -> e = TypeError.
Proof.
  induction ps as [|p ps IH]; intros this h e h' Hf; [done|].
  simpl in Hf. unfold bind in Hf.
  destruct (String_replace this p highlight h) eqn:Hr; [by eapply IH| |done].
  simplify_eq. by eapply String_replace_throws.
Qed.

Lemma redact_forEach_throws ps : forall this (h : heap) e h',
  redact_forEach ps this h = Threw e h' -> e = TypeError.
Proof.
  induction ps as [|p ps IH]; intros this h e h' Hf; [done|].
  simpl in Hf. unfold bind in Hf.
  destruct (String_match this p h) eqn:Hm; [| |done].
  - destruct (String_replace this p (fun _ => REDACTED) h0) eqn:Hr; [by eapply IH| |done].
    simplify_eq. by eapply String_replace_throws.
  - simplify_eq. by eapply String_match_throws.
Qed.

(** [previewSensitiveContent] and [redactSensitiveContent] always end:
    [replace] and [match] step over empty matches. *)
Lemma preview_forEach_ends ps : forall this (h : heap),
  preview_forEach ps this h <> OutOfFuel.
Proof.
  induction ps as [|p ps IH]; intros this h; [done|]. simpl. unfold bind.
  destruct (String_replace this p highlight h) eqn:Hr; [apply IH|done|].
  unfold String_replace in Hr. destruct this; try done.
  destruct (h !! p); [|done]. by destruct (RegExpReplace _ _ _).
Qed.

Lemma redact_forEach_ends ps : forall this (h : heap),
  redact_forEach ps this h <> OutOfFuel.
Proof.
  induction ps as [|p ps IH]; intros this h; [done|]. simpl. unfold bind.
  destruct (String_match this p h) as [n h1|e h1|] eqn:Hm; [|done|].
  - destruct (String_replace this p (fun _ => REDACTED) h1) eqn:Hr; [apply IH|done|].
    unfold String_replace in Hr. destruct this; try done.
    destruct (h1 !! p); [|done]. by destruct (RegExpReplace _ _ _).
  - unfold String_match in Hm. destruct this; try done.
    destruct (h !! p); [|done]. by destruct (RegExp_results _ _).
Qed.

Lemma preview_and_redact_end content spec (h : heap) :
  previewSensitiveContent content spec h <> OutOfFuel /\
  redactSensitiveContent content spec h <> OutOfFuel.
Proof.
  unfold previewSensitiveContent, redactSensitiveContent, bind. split.
  - destruct (compilePatterns spec h) eqn:Hc; [apply preview_forEach_ends|done|].
    by apply compilePatterns_ends in Hc.
  - destruct (get_length content h) as [u h0|e h0|] eqn:Hg; [|done|].
    + destruct (compilePatterns spec h0) eqn:Hc; [apply redact_forEach_ends|done|].
      by apply compilePatterns_ends in Hc.
    + by destruct content.
Qed.

(** None of the three operations ever raises an InvalidInput error. *)
Lemma never_InvalidInput fuel content spec (h : heap) h' :
  identifySensitiveText fuel content spec h <> Threw InvalidInputError h' /\
  previewSensitiveContent content spec h <> Threw InvalidInputError h' /\
  redactSensitiveContent content spec h <> Threw InvalidInputError h'.
Proof.
  unfold identifySensitiveText, previewSensitiveContent, redactSensitiveContent, bind.
  repeat split.
  - destruct (compilePatterns spec h) as [ps h1|e h1|] eqn:Hc; [| |done].
    + destruct (identify_forEach fuel ps content [] h1) as [found h2|e h2|] eqn:Hf;
        [done| |done].
      apply identify_forEach_throws in Hf as ->. done.
    + apply compilePatterns_throws in Hc as [-> _]. done.
  - destruct (compilePatterns spec h) as [ps h1|e h1|] eqn:Hc; [| |done].
    + intros Hp. by apply preview_forEach_throws in Hp.
    + apply compilePatterns_throws in Hc as [-> _]. done.
  - destruct (get_length content h) as [u h0|e h0|] eqn:Hg; [| |done].
    + destruct (compilePatterns spec h0) as [ps h1|e h1|] eqn:Hc; [| |done].
      * intros Hp. by apply redact_forEach_throws in Hp.
      * apply compilePatterns_throws in Hc as [-> _]. done.
    + destruct content; simpl in Hg; by simplify_eq.
Qed.

(** C5, as the code has it: no operation checks the type of [content] and
    none raises an InvalidInput error. For a content that is [undefined],
    [null] or a boolean, [identifySensitiveText] does exactly what it does
    for the content's string conversion, as if that string had been
    passed: the same result, the same exception or the same failure to
    end. When the spec compiles, [previewSensitiveContent] returns the
    content itself if the compiled list is empty and otherwise throws the
    host's TypeError (the value has no [replace] method);
    [redactSensitiveContent] does the same for a boolean, and for [null]
    and [undefined] throws the TypeError already at [content.length]. *)
Theorem non_text_content fuel content spec (h : heap) :
  (forall s, content <> VString s) ->
  identifySensitiveText fuel content spec h
    = identifySensitiveText fuel (VString (ToString content)) spec h
  /\ (forall ps h1, compilePatterns spec h = Returned ps h1 ->
        previewSensitiveContent content spec h
          = match ps with [] => Returned content h1 | _ => Threw TypeError h1 end
        /\ redactSensitiveContent content spec h
          = match content with
            | VUndefined | VNull => Threw TypeError h
            | _ => match ps with [] => Returned content h1 | _ => Threw TypeError h1 end
            end)
  /\ (forall h',
        identifySensitiveText fuel content spec h <> Threw InvalidInputError h' /\
        previewSensitiveContent content spec h <> Threw InvalidInputError h' /\
        redactSensitiveContent content spec h <> Threw InvalidInputError h').
Proof.
  intros Hnot. split; [|split; [|apply never_InvalidInput]].
  - unfold identifySensitiveText, bind.
    destruct (compilePatterns spec h) as [ps h1|e h1|]; [|done|done].
    by rewrite identify_forEach_coerces.
  - intros ps h1 Hc.
    unfold previewSensitiveContent, redactSensitiveContent, bind.
    destruct content as [| |b|s]; simpl; rewrite ?Hc; try by destruct ps.
    by destruct (Hnot s).
Qed.

End NonText.

(** ** What the scan loop returns *)

Lemma search_here r (s : jsstring) i n e :
  match_at r s i = Some e -> 0 < n -> search r s i n = Some (i, e).
Proof. intros Hm Hn. destruct n as [|n]; [lia|]. simpl. by rewrite Hm. Qed.

Lemma exec_at_match (R : RegExpObj) (s : jsstring) a e :
  tracking R = true -> lastIndex R = a -> a <= length s ->
  match_at (pattern R) s a = Some e ->
  RegExpBuiltinExec R s = (Some (mkExec a (substring a e s)), set_lastIndex e R).
Proof.
  intros Htr Hli Ha Hm. unfold RegExpBuiltinExec.
  assert (Hstart : scan_start R = a) by (unfold scan_start; by rewrite Htr).
  rewrite Hstart, (search_here _ _ _ _ e), Htr; [done|done|].
  destruct (sticky R); lia.
Qed.

Lemma exec_empty_stuck (R : RegExpObj) (s : jsstring) m R' :
  RegExpBuiltinExec R s = (Some m, R') -> matched m = [] -> tracking R = true ->
  exists m', RegExpBuiltinExec R' s = (Some m', R').
Proof.
  intros Hexec Hempty Htr.
  destruct (exec_Some _ _ _ _ Hexec) as (e & Hm & Hidx & He & _ & _ & _ & Hlen & ->).
  rewrite Hempty in Hlen. simpl in Hlen. assert (e = index m) as -> by lia.
  rewrite Htr. eexists.
  by rewrite (exec_at_match (set_lastIndex (index m) R) s (index m) (index m)).
Qed.

Lemma scan_while_results fuel : forall (R : RegExpObj) (s : jsstring) ms Rf,
  scan_while fuel R s = Some (ms, Rf) ->
  Rf = (if tracking R then set_lastIndex 0 R else R) /\
  Forall (fun m => exists e,
            match_at (pattern R) s (index m) = Some e /\
            index m < e <= length s /\ matched m = substring (index m) e s) ms /\
  results_from (scan_start R) ms.
Proof.
  induction fuel as [|fuel IH]; intros R s ms Rf Hscan; [done|].
  pose proof Hscan as Hscan'. simpl in Hscan.
  destruct (RegExpBuiltinExec R s) as [[m|] R'] eqn:Hexec.
  - destruct (scan_while fuel R' s) as [[ms' Rf']|] eqn:Hrest; simplify_eq.
    destruct (exec_Some _ _ _ _ Hexec) as (e & Hm & Hidx & He & _ & _ & Htext & Hlen & HR').
    destruct (tracking R) eqn:Htr.
    + destruct (decide (matched m = [])) as [Hempty|Hne].
      { destruct (exec_empty_stuck _ _ _ _ Hexec Hempty Htr) as [m' Hstuck].
        by rewrite (scan_while_stuck _ _ _ Hstuck) in Hrest. }
      assert (index m < e).
      { destruct (matched m) eqn:Hmm; [done|]. simpl in Hlen. lia. }
      destruct (IH _ _ _ _ Hrest) as (HRf & Hall & Hfrom). subst R'.
      assert (Htr' : tracking (set_lastIndex e R) = true) by done.
      rewrite Htr' in HRf. split; [done|]. split.
      * constructor; [exists e; repeat split; [done|lia|lia|done]|done].
      * simpl. split; [lia|]. unfold scan_start in Hfrom. rewrite Htr' in Hfrom.
        simpl in Hfrom. by replace (index m + length (matched m)) with e by lia.
    + subst R'. by rewrite (scan_while_stuck _ _ _ Hexec) in Hscan'.
  - simplify_eq. apply exec_None in Hexec as [-> _]. repeat split; done.
Qed.

(** With enough rounds the loop ends for a pattern that keeps its scan
    position and has no empty match in [s]. *)
Lemma scan_while_ends_tracking fuel : forall (R : RegExpObj) (s : jsstring),
  tracking R = true ->
  (forall i, i <= length s -> match_at (pattern R) s i <> Some i) ->
  S (length s) - scan_start R < fuel ->
  exists ms Rf, scan_while fuel R s = Some (ms, Rf).
Proof.
  induction fuel as [|fuel IH]; intros R s Htr Hne Hfuel; [lia|].
  simpl. destruct (RegExpBuiltinExec R s) as [[m|] R'] eqn:Hexec; [|by eexists _, _].
  destruct (exec_Some _ _ _ _ Hexec) as (e & Hm & Hidx & He & _ & _ & _ & _ & ->).
  rewrite Htr. assert (index m <> e).
  { intros Heq. rewrite Heq in Hm. by eapply (Hne e). }
  destruct (IH (set_lastIndex e R) s) as (ms & Rf & ->); [done|done| |by eexists _, _].
  unfold scan_start in *. rewrite Htr in *.
  assert (Htr' : tracking (set_lastIndex e R) = true) by done.
  rewrite Htr'. simpl. lia.
Qed.

Lemma scan_while_ends fuel (R : RegExpObj) (s : jsstring) :
  scan_ends R s -> length s + 1 < fuel ->
  exists ms Rf, scan_while fuel R s = Some (ms, Rf).
Proof.
  intros [[Htr Hne]|Hnone] Hfuel.
  - apply scan_while_ends_tracking; [done|done|lia].
  - destruct fuel as [|fuel]; [lia|]. simpl. rewrite exec_no_match; [|done].
    by eexists _, _.
Qed.

Lemma erase_insert (h : heap) p (R : RegExpObj) n :
  h !! p = Some R -> erase (<[p := set_lastIndex n R]> h) = erase h.
Proof.
  intros Hp. unfold erase. rewrite list_fmap_insert. apply list_insert_id.
  by rewrite list_lookup_fmap, Hp.
Qed.

Lemma erase_lookup (h h' : heap) p (R : RegExpObj) :
  erase h = erase h' -> h !! p = Some R ->
  exists R', h' !! p = Some R' /\ set_lastIndex 0 R' = set_lastIndex 0 R.
Proof.
  intros Heq Hp. assert (Hl : erase h !! p = Some (set_lastIndex 0 R))
    by (unfold erase; by rewrite list_lookup_fmap, Hp).
  rewrite Heq in Hl. unfold erase in Hl. rewrite list_lookup_fmap in Hl.
  destruct (h' !! p) as [R'|]; [|done]. simpl in Hl. exists R'.
  split; [done|congruence].
Qed.

Lemma erased_fields (R R' : RegExpObj) :
  set_lastIndex 0 R' = set_lastIndex 0 R ->
  pattern R' = pattern R /\ RegExp_toString R' = RegExp_toString R /\
  tracking R' = tracking R.
Proof.
  intros Heq. destruct R, R'. unfold set_lastIndex in Heq. simpl in Heq.
  by simplify_eq.
Qed.

Lemma scan_while_final fuel (R : RegExpObj) (s : jsstring) ms Rf :
  scan_while fuel R s = Some (ms, Rf) -> exists n, Rf = set_lastIndex n R.
Proof.
  intros Hscan. apply scan_while_results in Hscan as (-> & _).
  destruct (tracking R); [by exists 0|exists (lastIndex R); by rewrite set_lastIndex_same].
Qed.

(** The scan never returns, on any content, for the empty pattern source,
    which a spec with a trailing comma such as "foo," contains: a host
    that compiles the empty source to the empty pattern gives a pattern
    that matches at position 0 without consuming anything. *)
Lemma empty_source_loops_forever `{Host} (fuel : nat) (s : jsstring) (h : heap) :
  RegExpCompile [] = Some REmpty ->
  identifySensitiveText fuel (VString s) (SpecList [SrcString []]) h = OutOfFuel.
Proof.
  intros Hempty.
  set (R := new_global (EscapeRegExpPattern []) REmpty).
  rewrite (identify_compiled _ _ _ _ [length h] (h ++ [R])).
  - rewrite identify_forEach_cons.
    rewrite (exec_while_scan fuel (length h) _ _ _ R); [|by apply list_lookup_middle].
    rewrite (scan_while_stuck _ _ (mkExec 0 (substring 0 0 s))); [done|].
    apply (exec_at_match R s 0 0); [done|done|lia|done].
  - simpl. change (strip_delimiters []) with (@nil ascii). by rewrite Hempty.
Qed.

Lemma no_empty_match_spec r (s : jsstring) :
  no_empty_match r s = true ->
  forall i, i <= length s -> match_at r s i <> Some i.
Proof.
  unfold no_empty_match. rewrite forallb_forall. intros Hall i Hi Hm.
  specialize (Hall i). rewrite bool_decide_eq_true_2 in Hall; [|done].
  discriminate Hall. apply in_seq. lia.
Qed.

Lemma scan_ends_erased (R R' : RegExpObj) (s : jsstring) :
  set_lastIndex 0 R' = set_lastIndex 0 R -> scan_ends R s -> scan_ends R' s.
Proof.
  intros Heq. apply erased_fields in Heq as (Hpat & _ & Htr).
  unfold scan_ends. by rewrite Hpat, Htr.
Qed.

Lemma erase_length (h h' : heap) : erase h = erase h' -> length h = length h'.
Proof.
  intros Heq. apply (f_equal length) in Heq. unfold erase in Heq.
  by rewrite !length_fmap in Heq.
Qed.

Lemma identify_forEach_ends fuel (s : jsstring) (h1 : heap) ps :
  length s + 1 < fuel ->
  forall acc (h : heap),
    erase h = erase h1 ->
    Forall (fun p => exists R, h1 !! p = Some R /\ scan_ends R s) ps ->
    exists found h2, identify_forEach fuel ps (VString s) acc h = Returned found h2.
Proof.
  intros Hfuel. induction ps as [|p ps IH]; intros acc h Herase Hends; [by eexists _, _|].
  apply Forall_cons in Hends as [(R1 & HR1 & Hend) Hends].
  destruct (erase_lookup h1 h p R1) as (R & HR & Hsame); [done|done|].
  rewrite identify_forEach_cons, (exec_while_scan _ _ _ _ _ _ HR). simpl.
  destruct (scan_while_ends fuel R s) as (ms & Rf & Hscan);
    [by eapply scan_ends_erased|done|].
  rewrite Hscan. destruct (scan_while_final _ _ _ _ _ Hscan) as [n ->].
  apply IH; [by rewrite erase_insert|done].
Qed.

(** ** One rewriting pass of a global pattern *)

Lemma substring_cons (s : jsstring) a b c :
  s !! a = Some c -> a < b -> substring a b s = c :: substring (S a) b s.
Proof.
  intros Hc Hab. unfold substring. rewrite (drop_S _ _ _ Hc).
  replace (b - a) with (S (b - S a)) by lia. done.
Qed.

Lemma substring_split (s : jsstring) a e :
  a <= e <= length s -> drop a s = substring a e s ++ drop e s.
Proof.
  intros H. unfold substring. rewrite <- (take_drop (e - a) (drop a s)) at 1.
  rewrite drop_drop. by replace (a + (e - a)) with e by lia.
Qed.

Lemma copy_rest f r (s : jsstring) n : forall i,
  n = length s - i -> i <= length s ->
  (forall b, i <= b <= length s -> match_at r s b = None) ->
  replaced_at f r s i (drop i s).
Proof.
  induction n as [|n IH]; intros i Hn Hi Hnone.
  - rewrite drop_ge; [|lia]. apply replaced_end; [lia|]. apply Hnone. lia.
  - destruct (lookup_lt_is_Some_2 s i) as [c Hc]; [lia|].
    rewrite (drop_S _ _ _ Hc). apply replaced_copy; [done|apply Hnone; lia|].
    apply IH; [lia|lia|]. intros b Hb. apply Hnone. lia.
Qed.

Lemma copy_gap f r (s : jsstring) a out n : forall i,
  n = a - i -> i <= a <= length s ->
  (forall b, i <= b < a -> match_at r s b = None) ->
  replaced_at f r s a out ->
  replaced_at f r s i (substring i a s ++ out).
Proof.
  induction n as [|n IH]; intros i Hn Hi Hnone Hout.
  - assert (i = a) as -> by lia. unfold substring.
    by replace (a - a) with 0 by lia.
  - destruct (lookup_lt_is_Some_2 s i) as [c Hc]; [lia|].
    rewrite (substring_cons _ _ _ _ Hc); [|lia]. simpl.
    apply replaced_copy; [done|apply Hnone; lia|].
    apply IH; [lia|lia| |done]. intros b Hb. apply Hnone. lia.
Qed.

Lemma splice_cons_le f (s : jsstring) m ms next :
  next <= index m <= length s ->
  splice s (m :: ms) f next =
    substring next (index m) s ++ f (matched m)
      ++ splice s ms f (index m + length (matched m)).
Proof.
  intros [Hlo Hhi]. cbn [splice]. rewrite Nat.min_l; [|done].
  destruct (next <=? index m) eqn:Hle; [done|]. apply Nat.leb_gt in Hle. lia.
Qed.

Lemma splice_step f (s : jsstring) a c ms :
  s !! a = Some c ->
  Forall (fun m => S a <= index m <= length s) ms ->
  splice s ms f a = c :: splice s ms f (S a).
Proof.
  intros Hc Hall. destruct Hall as [|m ms [Hlo Hhi] Hall].
  - by apply drop_S.
  - rewrite !splice_cons_le; [|lia|lia].
    by rewrite (substring_cons _ _ _ _ Hc); [|lia].
Qed.

Lemma collect_past_end fuel (R : RegExpObj) (s : jsstring) :
  tracking R = true -> length s < lastIndex R ->
  collect (S fuel) R s = ([], set_lastIndex 0 R).
Proof.
  intros Htr Hpast. simpl. unfold RegExpBuiltinExec, scan_start. rewrite Htr.
  replace (S (length s) - lastIndex R) with 0 by lia.
  by destruct (sticky R).
Qed.

Lemma collect_replaced f fuel : forall (R : RegExpObj) (s : jsstring) ms Rf,
  global R = true -> sticky R = false ->
  lastIndex R <= length s -> S (length s) - lastIndex R < fuel ->
  collect fuel R s = (ms, Rf) ->
  Rf = set_lastIndex 0 R /\
  Forall (fun m => lastIndex R <= index m <= length s) ms /\
  replaced_at f (pattern R) s (lastIndex R) (splice s ms f (lastIndex R)).
Proof.
  induction fuel as [|fuel IH]; intros R s ms Rf Hg Hy Hli Hfuel Hcol; [lia|].
  assert (Htr : tracking R = true) by (unfold tracking; by rewrite Hg).
  assert (Hstart : scan_start R = lastIndex R) by (unfold scan_start; by rewrite Htr).
  simpl in Hcol. destruct (RegExpBuiltinExec R s) as [[m|] R'] eqn:Hexec.
  - destruct (exec_Some _ _ _ _ Hexec)
      as (e & Hm & Hidx & He & _ & Hgap & Htext & Hlen & ->).
    rewrite Htr in Hcol. rewrite Hstart in Hidx, Hgap.
    destruct (collect fuel _ s) as [ms' Rf'] eqn:Hrest.
    injection Hcol as <- <-.
    rewrite splice_cons_le; [|lia].
    destruct (matched m) as [|c0 text] eqn:Hmm.
    + simpl in Hlen. assert (e = index m) as -> by lia.
      change (collect fuel (set_lastIndex (S (index m)) R) s = (ms', Rf')) in Hrest.
      rewrite Nat.add_0_r.
      destruct (decide (index m < length s)) as [Hin|Hend].
      * apply (IH (set_lastIndex (S (index m)) R) _ _ _ Hg Hy) in Hrest
          as (-> & Hall & Hrep);
          [|simpl; lia|simpl; lia].
        simpl in Hall, Hrep. split; [done|]. split.
        { constructor; [lia|]. eapply Forall_impl; [exact Hall|]. simpl. lia. }
        destruct (lookup_lt_is_Some_2 s (index m) Hin) as [c Hc].
        rewrite (splice_step _ _ _ _ _ Hc Hall).
        apply (copy_gap _ _ _ _ _ _ _ eq_refl); [lia|done|].
        by apply replaced_empty.
      * destruct fuel as [|fuel]; [lia|].
        rewrite collect_past_end in Hrest; [|done|simpl; lia].
        injection Hrest as <- <-.
        split; [done|]. split; [constructor; [lia|done]|]. cbn [splice].
        rewrite drop_ge; [|lia]. rewrite app_nil_r.
        apply (copy_gap _ _ _ _ _ _ _ eq_refl); [lia|done|].
        apply replaced_empty_end; [done|lia].
    + simpl in Hlen. assert (index m < e) by lia.
      change (collect fuel (set_lastIndex e R) s = (ms', Rf')) in Hrest.
      apply (IH (set_lastIndex e R) _ _ _ Hg Hy) in Hrest as (-> & Hall & Hrep);
        [|simpl; lia|simpl; lia].
      simpl in Hall, Hrep. split; [done|]. split.
      { constructor; [lia|]. eapply Forall_impl; [exact Hall|]. simpl. lia. }
      replace (index m + length (c0 :: text)) with e by (simpl; lia).
      apply (copy_gap _ _ _ _ _ _ _ eq_refl); [lia|done|].
      rewrite Htext. apply replaced_match; [done|lia|done].
  - injection Hcol as <- <-. apply exec_None in Hexec as [-> Hnone]. rewrite Htr.
    split; [done|]. split; [done|]. cbn [splice].
    apply (copy_rest _ _ _ _ _ eq_refl); [done|]. rewrite <- Hstart. by apply Hnone.
Qed.

(** The loop of [replace] and [match] ends by a failing [exec] within
    [length s + 2] rounds: more rounds change nothing. *)
Lemma collect_fuel fuel1 : forall fuel2 (R : RegExpObj) (s : jsstring),
  tracking R = true ->
  S (length s) - lastIndex R < fuel1 -> S (length s) - lastIndex R < fuel2 ->
  collect fuel1 R s = collect fuel2 R s.
Proof.
  induction fuel1 as [|fuel1 IH]; intros fuel2 R s Htr H1 H2; [lia|].
  destruct fuel2 as [|fuel2]; [lia|]. simpl.
  destruct (RegExpBuiltinExec R s) as [[m|] R'] eqn:Hexec; [|done].
  destruct (exec_Some _ _ _ _ Hexec) as (e & _ & Hidx & He & _ & _ & _ & Hlen & ->).
  unfold scan_start in Hidx. rewrite Htr in *.
  rewrite (IH fuel2); [done| | |].
  - by destruct (matched m).
  - destruct (matched m); simpl in *; lia.
  - destruct (matched m); simpl in *; lia.
Qed.

Lemma collect_rounds_suffice (R : RegExpObj) (s : jsstring) fuel :
  global R = true -> length s + 2 <= fuel ->
  collect fuel (set_lastIndex 0 R) s = RegExp_results R s.
Proof.
  intros Hg Hfuel. unfold RegExp_results. rewrite Hg.
  apply collect_fuel; [|simpl; lia|simpl; lia].
  unfold tracking. simpl. by rewrite Hg.
Qed.

(** [replace] with a global, non-sticky pattern is one pass over the
    whole buffer, and leaves the pattern at scan position 0. *)
Lemma RegExpReplace_global f (R : RegExpObj) (s : jsstring) :
  global R = true -> sticky R = false ->
  exists out, RegExpReplace R s f = (out, set_lastIndex 0 R) /\
              replaced_at f (pattern R) s 0 out.
Proof.
  intros Hg Hy. unfold RegExpReplace, RegExp_results. rewrite Hg.
  destruct (collect (length s + 2) (set_lastIndex 0 R) s) as [ms Rf] eqn:Hcol.
  destruct (collect_replaced f (length s + 2) (set_lastIndex 0 R) s ms Rf Hg Hy)
    as (-> & _ & Hrep); [simpl; lia|simpl; lia|done|].
  eexists. split; [done|]. exact Hrep.
Qed.

Lemma erased_flags (R R' : RegExpObj) :
  set_lastIndex 0 R' = set_lastIndex 0 R ->
  global R' = global R /\ sticky R' = sticky R.
Proof.
  intros Heq. destruct R, R'. unfold set_lastIndex in Heq. simpl in Heq.
  by simplify_eq.
Qed.

Lemma replaced_wrapped r (s : jsstring) i out :
  replaced_at highlight r s i out -> wrapped (drop i s) out.
Proof.
  induction 1 as [i Hi _|i c out Hc _ _ IH|i e out Hm He _ IH|i Hm Hi|i c out Hm Hc _ IH].
  - rewrite drop_ge; [constructor|done].
  - rewrite (drop_S _ _ _ Hc). by constructor.
  - rewrite (substring_split s i e); [|lia]. by constructor.
  - rewrite drop_ge; [|done]. rewrite <- (app_nil_r (highlight [])).
    apply (wrapped_mark [] []). constructor.
  - rewrite (drop_S _ _ _ Hc). apply (wrapped_mark [] (c :: _)). by constructor.
Qed.

(** ** The passes of [previewSensitiveContent] *)

Lemma preview_forEach_passes (h1 : heap) ps : forall (s : jsstring) (h : heap),
  erase h = erase h1 ->
  (forall p, p ∈ ps -> exists R, h1 !! p = Some R /\ global R = true /\ sticky R = false) ->
  exists out h2,
    preview_forEach ps (VString s) h = Returned (VString out) h2 /\
    erase h2 = erase h1 /\
    passes highlight h1 ps s out.
Proof.
  induction ps as [|p ps IH]; intros s h Herase Hglobal.
  - exists s, h. repeat split; [done|constructor].
  - destruct (Hglobal p) as (R1 & HR1 & Hg & Hy); [left|].
    destruct (erase_lookup h1 h p R1) as (R & HR & Hsame); [done|done|].
    destruct (erased_flags _ _ Hsame) as [Hg' Hy'].
    destruct (erased_fields _ _ Hsame) as (Hpat & _ & _).
    destruct (RegExpReplace_global highlight R s) as (mid & Hrep & Hpass);
      [congruence|congruence|].
    destruct (IH mid (<[p := set_lastIndex 0 R]> h)) as (out & h2 & Hrest & Herase2 & Hpasses);
      [by rewrite erase_insert|intros q Hq; apply Hglobal; by right|].
    exists out, h2. split; [|split; [done|]].
    + simpl. unfold bind, String_replace. by rewrite HR, Hrep.
    + econstructor; [exact HR1| |exact Hpasses]. by rewrite <- Hpat.
Qed.

Lemma wrapped_refl (s : jsstring) : wrapped s s.
Proof. induction s as [|c s IH]; by constructor. Qed.

Section Preview.
Context {host : Host}.

(** C7, as the code has it: when every compiled pattern is global and not
    sticky (as the defaults and all patterns compiled from strings are),
    [previewSensitiveContent] runs one pass per pattern, in list order,
    each over the buffer the pass before it left: a pass encloses every
    successive match of its pattern in that buffer in exactly one marker
    and copies the rest of that buffer unchanged. For at most one
    pattern the result is therefore the content with each match wrapped
    once and all other text untouched; a pass after the first works on a
    buffer that already holds markers. *)
Theorem preview_runs_pass_by_pass (s : jsstring) spec (h : heap) ps h1 :
  length DEFAULT_PATTERNS <= length h ->
  compilePatterns spec h = Returned ps h1 ->
  (forall p R, p ∈ ps -> h1 !! p = Some R -> global R = true /\ sticky R = false) ->
  exists out h2,
    previewSensitiveContent (VString s) spec h = Returned (VString out) h2 /\
    passes highlight h1 ps s out /\
    (length ps <= 1 -> wrapped s out).
Proof.
  intros Hloaded Hc Hglobal.
  destruct (compilePatterns_valid _ _ _ _ Hloaded Hc) as [_ Hvalid].
  destruct (preview_forEach_passes h1 ps s h1 eq_refl) as (out & h2 & Hprev & _ & Hpasses).
  { intros p Hp. destruct (lookup_lt_is_Some_2 h1 p (Hvalid p Hp)) as [R HR].
    exists R. split; [done|]. by eapply Hglobal. }
  exists out, h2. split; [|split; [done|]].
  - unfold previewSensitiveContent, bind. by rewrite Hc.
  - intros Hlen. inversion Hpasses as [|p ps' R s' mid out' HR Hpass Hrest]; subst.
    + apply wrapped_refl.
    + destruct ps' as [|q ps']; [|simpl in Hlen; lia].
      inversion Hrest; subst. by apply (replaced_wrapped _ _ 0) in Hpass.
Qed.

End Preview.

(** ** Calls on a store at rest *)

Lemma set_lastIndex_rest (R : RegExpObj) : lastIndex R = 0 -> set_lastIndex 0 R = R.
Proof. intros <-. apply set_lastIndex_same. Qed.

Lemma at_rest_tracking (R : RegExpObj) :
  at_rest R -> (if tracking R then set_lastIndex 0 R else R) = R.
Proof.
  intros [Hy Hg]. unfold tracking. rewrite Hy, orb_false_r.
  destruct (global R) eqn:HgR; [|done]. apply set_lastIndex_rest. by apply Hg.
Qed.

Lemma calm_lookup (h : heap) p (R : RegExpObj) : calm h -> h !! p = Some R -> at_rest R.
Proof. intros Hcalm Hp. eapply Forall_lookup_1; [exact Hcalm|exact Hp]. Qed.

Lemma exec_while_calm fuel p content acc (h : heap) (R : RegExpObj) :
  h !! p = Some R -> at_rest R ->
  exec_while fuel p content acc h =
    match scan_while fuel R (ToString content) with
    | Some (ms, _) => Returned (acc ++ (to_match R <$> ms)) h
    | None => OutOfFuel
    end.
Proof.
  intros Hp Hrest. rewrite (exec_while_scan _ _ _ _ _ _ Hp).
  destruct (scan_while fuel R (ToString content)) as [[ms Rf]|] eqn:Hscan; [|done].
  apply scan_while_results in Hscan as (-> & _).
  rewrite at_rest_tracking; [|done]. by rewrite list_insert_id.
Qed.

Lemma results_calm (R : RegExpObj) (s : jsstring) :
  at_rest R -> (RegExp_results R s).2 = R.
Proof.
  intros Hrest. pose proof Hrest as [Hy Hg]. unfold RegExp_results.
  destruct (global R) eqn:HgR.
  - destruct (collect (length s + 2) (set_lastIndex 0 R) s) as [ms Rf] eqn:Hcol.
    destruct (collect_replaced id (length s + 2) (set_lastIndex 0 R) s ms Rf HgR Hy)
      as (-> & _); [simpl; lia|simpl; lia|done|].
    change (set_lastIndex 0 R = R). apply set_lastIndex_rest. by apply Hg.
  - assert (Htr : tracking R = false) by (unfold tracking; by rewrite HgR, Hy).
    destruct (RegExpBuiltinExec R s) as [[m|] R'] eqn:Hexec; simpl.
    + destruct (exec_Some _ _ _ _ Hexec) as (e & _ & _ & _ & _ & _ & _ & _ & ->).
      by rewrite Htr.
    + apply exec_None in Hexec as [-> _]. by rewrite Htr.
Qed.

Lemma String_replace_calm (s : jsstring) p f (h : heap) (R : RegExpObj) :
  h !! p = Some R -> at_rest R ->
  String_replace (VString s) p f h = Returned (VString (RegExpReplace R s f).1) h.
Proof.
  intros Hp Hrest. unfold String_replace, RegExpReplace. rewrite Hp.
  pose proof (results_calm R s Hrest) as Hres.
  destruct (RegExp_results R s) as [ms R']. simpl in *. subst R'.
  by rewrite list_insert_id.
Qed.

Lemma String_match_calm (s : jsstring) p (h : heap) (R : RegExpObj) :
  h !! p = Some R -> at_rest R ->
  String_match (VString s) p h = Returned (length (RegExp_results R s).1) h.
Proof.
  intros Hp Hrest. unfold String_match. rewrite Hp.
  pose proof (results_calm R s Hrest) as Hres.
  destruct (RegExp_results R s) as [ms R']. simpl in *. subst R'.
  by rewrite list_insert_id.
Qed.

(** On stores at rest the three loops leave the store as it is, and what
    they return depends on the objects of the compiled list only. *)
Lemma identify_forEach_calm fuel content (h1 h2 : heap) ps1 ps2 :
  calm h1 -> calm h2 -> Forall2 (same_object h1 h2) ps1 ps2 ->
  forall acc,
    answer (identify_forEach fuel ps1 content acc h1)
      = answer (identify_forEach fuel ps2 content acc h2) /\
    (forall h', heap_after (identify_forEach fuel ps1 content acc h1) = Some h' -> h' = h1) /\
    (forall h', heap_after (identify_forEach fuel ps2 content acc h2) = Some h' -> h' = h2).
Proof.
  intros Hc1 Hc2. induction 1 as [|p1 p2 ps1 ps2 (R & HR1 & HR2) _ IH]; intros acc.
  - split; [done|]. simpl. split; intros; by simplify_eq.
  - rewrite !identify_forEach_cons.
    rewrite (exec_while_calm _ _ _ _ _ _ HR1), (exec_while_calm _ _ _ _ _ _ HR2);
      [|by eapply calm_lookup|by eapply calm_lookup].
    destruct (scan_while fuel R (ToString content)) as [[ms Rf]|]; [apply IH|done].
Qed.

Lemma preview_forEach_calm (h1 h2 : heap) ps1 ps2 :
  calm h1 -> calm h2 -> Forall2 (same_object h1 h2) ps1 ps2 ->
  forall s : jsstring,
    answer (preview_forEach ps1 (VString s) h1)
      = answer (preview_forEach ps2 (VString s) h2) /\
    (forall h', heap_after (preview_forEach ps1 (VString s) h1) = Some h' -> h' = h1) /\
    (forall h', heap_after (preview_forEach ps2 (VString s) h2) = Some h' -> h' = h2).
Proof.
  intros Hc1 Hc2. induction 1 as [|p1 p2 ps1 ps2 (R & HR1 & HR2) _ IH]; intros s.
  - split; [done|]. simpl. split; intros; by simplify_eq.
  - simpl. unfold bind.
    rewrite (String_replace_calm _ _ _ _ _ HR1), (String_replace_calm _ _ _ _ _ HR2);
      [|by eapply calm_lookup|by eapply calm_lookup].
    apply IH.
Qed.

Lemma redact_forEach_calm (h1 h2 : heap) ps1 ps2 :
  calm h1 -> calm h2 -> Forall2 (same_object h1 h2) ps1 ps2 ->
  forall s : jsstring,
    answer (redact_forEach ps1 (VString s) h1)
      = answer (redact_forEach ps2 (VString s) h2) /\
    (forall h', heap_after (redact_forEach ps1 (VString s) h1) = Some h' -> h' = h1) /\
    (forall h', heap_after (redact_forEach ps2 (VString s) h2) = Some h' -> h' = h2).
Proof.
  intros Hc1 Hc2. induction 1 as [|p1 p2 ps1 ps2 (R & HR1 & HR2) _ IH]; intros s.
  - split; [done|]. simpl. split; intros; by simplify_eq.
  - simpl. unfold bind.
    rewrite (String_match_calm _ _ _ _ HR1), (String_match_calm _ _ _ _ HR2);
      [|by eapply calm_lookup|by eapply calm_lookup].
    rewrite (String_replace_calm _ _ _ _ _ HR1), (String_replace_calm _ _ _ _ _ HR2);
      [|by eapply calm_lookup|by eapply calm_lookup].
    apply IH.
Qed.

Lemma answer_lift {A B : Type} (f : A -> B) (o1 o2 : Outcome A) :
  answer o1 = answer o2 -> answer (lift f o1) = answer (lift f o2).
Proof. destruct o1, o2; simpl; intros; by simplify_eq. Qed.

Lemma heap_after_lift {A B : Type} (f : A -> B) (o : Outcome A) :
  heap_after (lift f o) = heap_after o.
Proof. by destruct o. Qed.

Lemma Forall2_common {A B C : Type} (P : A -> C -> Prop) (Q : B -> C -> Prop) cs :
  forall l1 l2, Forall2 P l1 cs -> Forall2 Q l2 cs ->
    Forall2 (fun a b => exists c, P a c /\ Q b c) l1 l2.
Proof.
  induction cs as [|c cs IH]; intros l1 l2 H1 H2.
  - apply Forall2_nil_inv_r in H1 as ->. apply Forall2_nil_inv_r in H2 as ->. constructor.
  - apply Forall2_cons_inv_r in H1 as (a & l1' & Ha & H1 & ->).
    apply Forall2_cons_inv_r in H2 as (b & l2' & Hb & H2 & ->).
    constructor; [by exists c|by apply IH].
Qed.

Section Stateless.
Context {host : Host}.

Lemma fresh_calm (l : list PatternSource) : calm (omap fresh_object l).
Proof.
  induction l as [|src l IH]; [constructor|]. simpl.
  destruct (fresh_object src) as [R|] eqn:Hf; [|done].
  constructor; [|done]. destruct src as [s| |]; simpl in Hf; [|done|done].
  destruct (RegExpCompile (strip_delimiters s)); simpl in Hf; by simplify_eq.
Qed.

Lemma compiled_object_app (h extra : heap) src :
  source_wf h src -> compiled_object (h ++ extra) src = compiled_object h src.
Proof. destruct src; simpl; [done| |done]. intros Hp. by apply lookup_app_l. Qed.

Lemma omap_compiled_app (h extra : heap) l :
  Forall (source_wf h) l ->
  omap (compiled_object (h ++ extra)) l = omap (compiled_object h) l.
Proof.
  intros Hwf. apply list_omap_ext, Forall_Forall2_diag.
  eapply Forall_impl; [exact Hwf|]. intros src. apply compiled_object_app.
Qed.

(** Compiling in a larger store yields the same objects. *)
Lemma compilePatterns_extend spec (h extra : heap) :
  length DEFAULT_PATTERNS <= length h -> spec_wf h spec ->
  (exists ps1 ps2 fresh,
     compilePatterns spec h = Returned ps1 (h ++ fresh) /\
     compilePatterns spec (h ++ extra) = Returned ps2 ((h ++ extra) ++ fresh) /\
     calm fresh /\
     Forall2 (same_object (h ++ fresh) ((h ++ extra) ++ fresh)) ps1 ps2)
  \/ (compilePatterns spec h = Threw TypeError h /\
      compilePatterns spec (h ++ extra) = Threw TypeError (h ++ extra)).
Proof.
  intros Hloaded Hwf.
  assert (Hdefault :
    exists ps1 ps2 fresh,
      Returned (A := list nat) DEFAULT_PATTERNS h = Returned ps1 (h ++ fresh) /\
      Returned (A := list nat) DEFAULT_PATTERNS (h ++ extra)
        = Returned ps2 ((h ++ extra) ++ fresh) /\
      calm fresh /\
      Forall2 (same_object (h ++ fresh) ((h ++ extra) ++ fresh)) ps1 ps2).
  { exists DEFAULT_PATTERNS, DEFAULT_PATTERNS, []. rewrite !app_nil_r.
    split; [done|]. split; [done|]. split; [constructor|].
    apply Forall_Forall2_diag, Forall_forall. intros p Hp.
    assert (p < length h).
    { simpl in Hloaded. repeat (apply elem_of_cons in Hp as [->|Hp]; [lia|]).
      by apply elem_of_nil in Hp. }
    destruct (lookup_lt_is_Some_2 h p) as [R HR]; [done|].
    exists R. split; [done|]. by rewrite lookup_app_l. }
  destruct (spec_sources spec) as [l|] eqn:Hs.
  - left. assert (Hl : Forall (source_wf h) l).
    { destruct spec as [|[|c s]|l'|p]; simpl in Hs, Hwf; simplify_eq; [|done].
      apply Forall_forall. intros src Hsrc.
      apply list_elem_of_fmap in Hsrc as (? & -> & _). done. }
    assert (Hl' : Forall (source_wf (h ++ extra)) l).
    { eapply Forall_impl; [exact Hl|]. intros [?|p|]; simpl; [done| |done].
      rewrite length_app. lia. }
    destruct (compilePatterns_spec _ _ h Hs Hl) as (ps1 & Hc1 & HF1).
    destruct (compilePatterns_spec _ _ (h ++ extra) Hs Hl') as (ps2 & Hc2 & HF2).
    rewrite omap_compiled_app in HF2; [|done].
    exists ps1, ps2, (omap fresh_object l). split; [done|]. split; [done|].
    split; [apply fresh_calm|]. exact (Forall2_common _ _ _ _ _ HF1 HF2).
  - destruct spec as [|[|c s]|l|p]; simpl in Hs; simplify_eq; [by left|by left|by right].
Qed.

Lemma identify_lift fuel content spec (h : heap) ps h1 :
  compilePatterns spec h = Returned ps h1 ->
  identifySensitiveText fuel content spec h =
    lift (fun found => mkScan found (length found))
      (identify_forEach fuel ps content [] h1).
Proof. intros Hc. unfold identifySensitiveText, bind. by rewrite Hc. Qed.

Lemma calm_app (h1 h2 : heap) : calm h1 -> calm h2 -> calm (h1 ++ h2).
Proof. apply Forall_app_2. Qed.

(** One call on a store at rest: the answer does not depend on what else
    the store holds, and the call only adds objects at rest. *)
Lemma run_call_extend (c : Call) (h extra : heap) :
  length DEFAULT_PATTERNS <= length h -> calm h -> calm extra ->
  spec_wf h (call_spec c) ->
  answer (run_call c (h ++ extra)) = answer (run_call c h) /\
  (forall h', heap_after (run_call c (h ++ extra)) = Some h' ->
     exists fresh, h' = (h ++ extra) ++ fresh /\ calm fresh).
Proof.
  intros Hloaded Hcalm Hextra Hwf.
  destruct (compilePatterns_extend _ _ extra Hloaded Hwf)
    as [(ps1 & ps2 & fresh & Hc1 & Hc2 & Hfresh & Hsame)|[Hc1 Hc2]].
  - assert (Hcalm1 : calm (h ++ fresh)) by by apply calm_app.
    assert (Hcalm2 : calm ((h ++ extra) ++ fresh)) by by repeat apply calm_app.
    destruct c as [fuel s spec|s spec|s spec]; simpl in *;
      rewrite !heap_after_lift.
    + rewrite (identify_lift _ _ _ _ _ _ Hc1), (identify_lift _ _ _ _ _ _ Hc2).
      destruct (identify_forEach_calm fuel (VString s) _ _ _ _ Hcalm1 Hcalm2 Hsame [])
        as (Hans & _ & Hheap).
      split; [by apply answer_lift, answer_lift|]. rewrite heap_after_lift.
      intros h' Hh'. exists fresh. split; [by apply Hheap|done].
    + unfold previewSensitiveContent, bind. rewrite Hc1, Hc2.
      destruct (preview_forEach_calm _ _ _ _ Hcalm1 Hcalm2 Hsame s) as (Hans & _ & Hheap).
      split; [by apply answer_lift|]. intros h' Hh'.
      exists fresh. split; [by apply Hheap|done].
    + unfold redactSensitiveContent, bind. simpl. rewrite Hc1, Hc2.
      destruct (redact_forEach_calm _ _ _ _ Hcalm1 Hcalm2 Hsame s) as (Hans & _ & Hheap).
      split; [by apply answer_lift|]. intros h' Hh'.
      exists fresh. split; [by apply Hheap|done].
  - assert (Hnil : forall h' : heap, Some (h ++ extra) = Some h' ->
              exists fresh, h' = (h ++ extra) ++ fresh /\ calm fresh).
    { intros h' Hh'. exists []. rewrite app_nil_r. split; [by simplify_eq|constructor]. }
    destruct c as [fuel s spec|s spec|s spec]; simpl in *;
      rewrite !heap_after_lift.
    + unfold identifySensitiveText, bind. by rewrite Hc1, Hc2.
    + unfold previewSensitiveContent, bind. by rewrite Hc1, Hc2.
    + unfold redactSensitiveContent, bind. simpl. by rewrite Hc1, Hc2.
Qed.

Lemma run_calls_extend (h : heap) cs :
  length DEFAULT_PATTERNS <= length h -> calm h ->
  Forall (fun c => spec_wf h (call_spec c)) cs ->
  forall extra h', calm extra -> run_calls cs (h ++ extra) = Some h' ->
    exists extra', h' = h ++ extra' /\ calm extra'.
Proof.
  intros Hloaded Hcalm. induction 1 as [|c cs Hwf _ IH]; intros extra h' Hextra Hrun.
  - simpl in Hrun. simplify_eq. by exists extra.
  - simpl in Hrun. destruct (heap_after (run_call c (h ++ extra))) as [h1|] eqn:Hafter;
      [|done].
    destruct (run_call_extend c h extra Hloaded Hcalm Hextra Hwf) as [_ Hheap].
    destruct (Hheap _ Hafter) as (fresh & -> & Hfresh).
    rewrite <- app_assoc in Hrun. eapply IH; [|exact Hrun]. by apply calm_app.
Qed.

(** C10, as the code has it: on a store at rest (no sticky pattern, every
    global pattern at scan position 0, as when the module is loaded) and
    for specs whose [RegExp] references name objects of that store, the
    answer of a call on a text content is the same before and after any
    sequence of other such calls, each of which ends; every call leaves
    the objects that were there as they were (the default patterns are
    back at scan position 0) and only adds objects at rest. *)
Theorem stateless_at_rest (h : heap) (c : Call) (cs : list Call) h' :
  length DEFAULT_PATTERNS <= length h -> calm h ->
  spec_wf h (call_spec c) ->
  Forall (fun c' => spec_wf h (call_spec c')) cs ->
  run_calls cs h = Some h' ->
  answer (run_call c h') = answer (run_call c h) /\
  h `prefix_of` h' /\ calm h'.
Proof.
  intros Hloaded Hcalm Hwf Hwfs Hrun.
  destruct (run_calls_extend h cs Hloaded Hcalm Hwfs [] h') as (extra & -> & Hextra);
    [constructor|by rewrite app_nil_r|].
  split; [|split; [by apply prefix_app_r|by apply calm_app]].
  by apply run_call_extend.
Qed.

End Stateless.

(** ** The groups of [identifySensitiveText] *)

Lemma exec_None_sticky (R : RegExpObj) (s : jsstring) R' :
  RegExpBuiltinExec R s = (None, R') -> sticky R = true ->
  scan_start R <= length s -> match_at (pattern R) s (scan_start R) = None.
Proof.
  unfold RegExpBuiltinExec. intros Hexec Hy Hstart. rewrite Hy in Hexec.
  replace (min 1 (S (length s) - scan_start R)) with 1 in Hexec by lia.
  simpl in Hexec. by destruct (match_at (pattern R) s (scan_start R)) as [e|].
Qed.

(** The loop on one object reports the complete run of the pattern from
    the object's scan position. *)
Lemma scan_while_scanned fuel : forall (R : RegExpObj) (s : jsstring) ms Rf,
  scan_while fuel R s = Some (ms, Rf) ->
  scanned (pattern R) (sticky R) (RegExp_toString R) s (scan_start R) (to_match R <$> ms).
Proof.
  induction fuel as [|fuel IH]; intros R s ms Rf Hscan; [done|].
  pose proof Hscan as Hscan'. simpl in Hscan.
  destruct (RegExpBuiltinExec R s) as [[m|] R'] eqn:Hexec.
  - destruct (scan_while fuel R' s) as [[ms' Rf']|] eqn:Hrest; simplify_eq.
    destruct (exec_Some _ _ _ _ Hexec)
      as (e & Hm & Hidx & He & Hy & Hbefore & Htext & Hlen & HR').
    destruct (tracking R) eqn:Htr.
    + destruct (decide (matched m = [])) as [Hempty|Hne].
      { destruct (exec_empty_stuck _ _ _ _ Hexec Hempty Htr) as [m' Hstuck].
        by rewrite (scan_while_stuck _ _ _ Hstuck) in Hrest. }
      assert (Hlt : index m < e).
      { destruct (matched m) eqn:Hmm; [done|]. simpl in Hlen. lia. }
      subst R'. apply IH in Hrest.
      assert (Htr' : tracking (set_lastIndex e R) = true) by done.
      assert (Hstart : scan_start (set_lastIndex e R) = e).
      { unfold scan_start. by rewrite Htr'. }
      rewrite Hstart in Hrest.
      change (pattern (set_lastIndex e R)) with (pattern R) in Hrest.
      change (sticky (set_lastIndex e R)) with (sticky R) in Hrest.
      change (RegExp_toString (set_lastIndex e R)) with (RegExp_toString R) in Hrest.
      change (to_match (set_lastIndex e R)) with (to_match R) in Hrest.
      rewrite fmap_cons. unfold to_match at 1. rewrite Hlen, Htext.
      apply scanned_match; [lia|done|done|done|lia|exact Hrest].
    + subst R'. by rewrite (scan_while_stuck _ _ _ Hexec) in Hscan'.
  - simplify_eq. apply scanned_end. intros b Hb Hsticky.
    destruct (sticky R) eqn:Hy.
    + rewrite (Hsticky eq_refl). eapply exec_None_sticky; [done|done|].
      rewrite <- (Hsticky eq_refl). lia.
    + apply exec_None in Hexec as [_ Hnone]. by apply Hnone.
Qed.

(** The matches come pattern by pattern: one complete run per compiled
    pattern, in the order of the list. *)
Lemma identify_forEach_grouped fuel (s : jsstring) ps :
  forall acc (h : heap) found h2,
    identify_forEach fuel ps (VString s) acc h = Returned found h2 ->
    exists groups, found = acc ++ concat groups /\ grouped s h ps groups h2.
Proof.
  induction ps as [|p ps IH]; intros acc h found h2 Hid.
  - simpl in Hid. simplify_eq. exists []. split; [by rewrite app_nil_r|constructor].
  - rewrite identify_forEach_cons in Hid.
    destruct (h !! p) as [R|] eqn:HR.
    + rewrite (exec_while_scan _ _ _ _ _ _ HR) in Hid. simpl in Hid.
      destruct (scan_while fuel R s) as [[ms Rf]|] eqn:Hscan; [|done].
      pose proof (scan_while_scanned _ _ _ _ _ Hscan) as Hrun.
      apply scan_while_results in Hscan as (-> & _).
      apply IH in Hid as (groups & -> & Hgroups).
      exists ((to_match R <$> ms) :: groups).
      split; [by rewrite <- app_assoc|]. by econstructor.
    + destruct fuel as [|fuel]; [done|]. simpl in Hid. unfold exec in Hid.
      by rewrite HR in Hid.
Qed.

(** On a store at rest every turn starts at offset 0 and leaves the
    store as it was. *)
Lemma grouped_calm (s : jsstring) (h : heap) ps groups h' :
  calm h -> grouped s h ps groups h' ->
  h' = h /\
  Forall2 (fun p g => exists R, h !! p = Some R /\
             scanned (pattern R) false (RegExp_toString R) s 0 g) ps groups.
Proof.
  intros Hcalm. induction 1 as [h|h p R ps g groups h' HR Hrun Hrest IH]; [done|].
  pose proof (calm_lookup _ _ _ Hcalm HR) as Hrest'.
  rewrite (at_rest_tracking R Hrest'), list_insert_id in Hrest, IH; [|done|done].
  destruct (IH Hcalm) as [-> Hall]. split; [done|]. constructor; [|done].
  exists R. split; [done|]. destruct Hrest' as [Hy Hg].
  rewrite Hy in Hrun. unfold scan_start, tracking in Hrun. rewrite Hy, orb_false_r in Hrun.
  destruct (global R); [by rewrite Hg in Hrun|done].
Qed.

(** A run is determined by the pattern, the content and the position it
    starts from. *)
Lemma scanned_unique r y label (s : jsstring) from g1 :
  scanned r y label s from g1 -> forall g2, scanned r y label s from g2 -> g1 = g2.
Proof.
  induction 1 as [from Hnone|from a e g Hfrom Hy Hbefore Hm Hlt Hrest IH];
    intros g2 Hrun2.
  - inversion Hrun2 as [|from' a e g Hfrom Hy Hbefore Hm Hlt Hrest]; subst; [done|].
    rewrite Hnone in Hm; [done|lia|done].
  - inversion Hrun2 as [from' Hnone|from' a' e' g' Hfrom' Hy' Hbefore' Hm' Hlt' Hrest'];
      subst.
    + rewrite Hnone in Hm; [done|lia|done].
    + assert (a = a') as <-.
      { destruct (decide (a < a')) as [Hlt1|Hge1].
        - rewrite Hbefore' in Hm; [done|lia].
        - destruct (decide (a' < a)) as [Hlt2|Hge2]; [|lia].
          rewrite Hbefore in Hm'; [done|lia]. }
      rewrite Hm in Hm'. injection Hm' as <-. f_equal. by apply IH.
Qed.

Section Identify.
Context {host : Host}.

(** C9, as the code has it. What [identifySensitiveText] returns is one
    group of matches per compiled pattern, in the order of the compiled
    list, and [count] is their number. The group of a pattern is the
    complete run of its successive matches from the scan position the
    pattern has when its turn comes: each match is the leftmost one at or
    after the end of the match before it, is not empty, and is reported
    with its offset in the content, the piece of the content there, its
    length and the display form of the pattern; the run ends only where no
    further match exists. When the patterns are at rest once the spec is
    compiled, every run starts at offset 0, so that a group holds every
    successive match of its pattern in the content, and the store is left
    as it was. A pattern handed over at another scan position leaves out
    the matches before that position. The content is only read. With
    more than [length s + 1] rounds per pattern the call does return when
    every compiled pattern keeps its scan position and has no empty match
    in the content, or has no match at all. *)
Theorem matches_are_pattern_major fuel (s : jsstring) spec (h : heap) ps h1 :
  compilePatterns spec h = Returned ps h1 ->
  (forall r h2,
     identifySensitiveText fuel (VString s) spec h = Returned r h2 ->
     count r = length (matches r) /\
     exists groups,
       matches r = concat groups /\
       grouped s h1 ps groups h2 /\
       (calm h1 ->
          h2 = h1 /\
          Forall2 (fun p g => exists R, h1 !! p = Some R /\
                     scanned (pattern R) false (RegExp_toString R) s 0 g) ps groups))
  /\ (Forall (fun p => exists R, h1 !! p = Some R /\ scan_ends R s) ps ->
      length s + 1 < fuel ->
      exists r h2, identifySensitiveText fuel (VString s) spec h = Returned r h2).
Proof.
  intros Hc. rewrite (identify_compiled _ _ _ _ _ _ Hc). split.
  - intros r h2 Hid.
    destruct (identify_forEach fuel ps (VString s) [] h1) as [found h'| |] eqn:Hf;
      [|done|done].
    simplify_eq. simpl. split; [done|].
    apply identify_forEach_grouped in Hf as (groups & -> & Hgroups).
    exists groups. split; [done|]. split; [done|].
    intros Hcalm. by eapply grouped_calm.
  - intros Hends Hfuel.
    destruct (identify_forEach_ends fuel s h1 ps Hfuel [] h1 eq_refl Hends)
      as (found & h2 & ->).
    by eexists _, _.
Qed.

End Identify.

(** ** Rewriting when nothing matches *)

Section NoMatch.
Context {host : Host}.

Lemma results_no_match (R : RegExpObj) (s : jsstring) :
  search (pattern R) s 0 (S (length s)) = None ->
  RegExp_results R s = ([], if tracking R then set_lastIndex 0 R else R).
Proof.
  intros Hnone. unfold RegExp_results. destruct (global R) eqn:Hg.
  - replace (length s + 2) with (S (S (length s))) by lia. simpl.
    rewrite exec_no_match; [|done]. unfold tracking. simpl. by rewrite Hg.
  - by rewrite exec_no_match.
Qed.

Lemma no_match_in_insert (s : jsstring) (h : heap) p q (R R' : RegExpObj) :
  h !! q = Some R -> pattern R' = pattern R ->
  no_match_in s h p -> no_match_in s (<[q := R']> h) p.
Proof.
  intros Hq Hpat (Rp & Hp & Hnone). destruct (decide (p = q)) as [->|Hne].
  - exists R'. rewrite list_lookup_insert_eq; [|by eapply lookup_lt_Some].
    split; [done|]. rewrite Hpat. by simplify_eq.
  - exists Rp. by rewrite list_lookup_insert_ne.
Qed.

Lemma redact_forEach_no_match (s : jsstring) ps : forall (h : heap),
  Forall (no_match_in s h) ps ->
  exists h2, redact_forEach ps (VString s) h = Returned (VString s) h2.
Proof.
  induction ps as [|p ps IH]; intros h Hall; [by eexists|].
  apply Forall_cons in Hall as [(R & Hp & Hnone) Hall].
  simpl. unfold bind, String_match, String_replace, RegExpReplace.
  rewrite Hp, results_no_match; [|done].
  set (R' := if tracking R then set_lastIndex 0 R else R).
  assert (Hpat : pattern R' = pattern R) by (unfold R'; by destruct (tracking R)).
  assert (Hp' : <[p := R']> h !! p = Some R').
  { apply list_lookup_insert_eq. by eapply lookup_lt_Some. }
  rewrite Hp', results_no_match; [|by rewrite Hpat].
  simpl. apply IH. rewrite list_insert_insert_eq.
  eapply Forall_impl; [exact Hall|]. intros q Hq.
  eapply no_match_in_insert; [exact Hp| |done].
  destruct (tracking R'); simpl; by rewrite ?Hpat.
Qed.

(** C8: when the spec compiles and none of the compiled patterns matches
    anywhere in the content, [redactSensitiveContent] returns the content
    itself, whatever the flags and scan positions of the patterns; this
    includes the empty compiled list. *)
Theorem redact_without_matches (s : jsstring) spec (h : heap) ps h1 :
  length DEFAULT_PATTERNS <= length h ->
  compilePatterns spec h = Returned ps h1 ->
  (forall p R, p ∈ ps -> h1 !! p = Some R ->
     search (pattern R) s 0 (S (length s)) = None) ->
  exists h2, redactSensitiveContent (VString s) spec h = Returned (VString s) h2.
Proof.
  intros Hloaded Hc Hnone.
  unfold redactSensitiveContent, bind. simpl. rewrite Hc.
  apply redact_forEach_no_match. apply Forall_forall. intros p Hp.
  destruct (compilePatterns_valid _ _ _ _ Hloaded Hc) as [_ Hvalid].
  destruct (lookup_lt_is_Some_2 h1 p (Hvalid p Hp)) as [R HR].
  exists R. split; [done|]. by eapply Hnone.
Qed.

End NoMatch.

(** * Further properties of [services/redaction.js] *)

(** ** Patterns that cannot match the empty string *)

Lemma match_char_consumes p (s : jsstring) i k z :
  match_char p s i k = Some z -> exists j, i < j <= length s /\ k j = Some z.
Proof.
  unfold match_char. destruct (s !! i) as [c|] eqn:Hc; [|discriminate].
  apply lookup_lt_Some in Hc. destruct (p c); [|discriminate].
  intros Hk. exists (S i). split; [lia|done].
Qed.

Lemma matchR_consumes r (s : jsstring) :
  consumes r = true ->
  forall i k z, i <= length s -> matchR r s i k = Some z ->
    exists j, i < j <= length s /\ k j = Some z.
Proof.
  induction r as [ |c| |neg atoms| | |neg|r1 IH1 r2 IH2|r1 IH1 r2 IH2
                 |greedy min max r1 IH1|r1 IH1|neg r1 IH1];
    simpl; intros Hcons i k z Hi Hm; try done;
    try (by eapply match_char_consumes).
  - destruct (consumes r1) eqn:Hc1.
    + destruct (IH1 eq_refl _ _ _ Hi Hm) as (j & Hj & Hm2).
      destruct (matchR_bounds r2 s j k z) as (j' & Hj' & Hk); [lia|done|].
      exists j'. split; [lia|done].
    + destruct (matchR_bounds r1 s i _ z Hi Hm) as (j & Hj & Hm2).
      destruct (IH2 Hcons j k z) as (j' & Hj' & Hk); [lia|done|].
      exists j'. split; [lia|done].
  - apply andb_true_iff in Hcons as [Hc1 Hc2].
    destruct (matchR r1 s i k) eqn:H1; simplify_eq; eauto.
  - apply andb_true_iff in Hcons as [Hcons Hc1].
    apply andb_true_iff in Hcons as [Hmin Hmax].
    apply negb_true_iff in Hmin, Hmax. apply bool_decide_eq_false in Hmax.
    replace (min + length s + 1) with (S (min + length s)) in Hm by lia.
    simpl in Hm. rewrite Hmin in Hm. simpl in Hm.
    assert (Hbody :
      matchR r1 s i (fun j =>
        repeat_matcher (matchR r1 s) greedy k (min + length s) (pred min) (pred <$> max) j)
      = Some z).
    { destruct max as [[|n]|]; [done|exact Hm|exact Hm]. }
    destruct (IH1 Hc1 _ _ _ Hi Hbody) as (j & Hj & Hrep).
    destruct (repeat_matcher_bounds (matchR r1 s) greedy k s) with
      (fuel := min + length s) (min := pred min) (max := pred <$> max) (i := j) (z := z)
      as (j' & Hj' & Hk); [intros; by eapply matchR_bounds|lia|done|].
    exists j'. split; [lia|done].
  - eauto.
Qed.

Lemma consumes_no_empty_match r (s : jsstring) i :
  consumes r = true -> i <= length s -> match_at r s i <> Some i.
Proof.
  intros Hcons Hi Hm.
  destruct (matchR_consumes r s Hcons i Some i Hi Hm) as (j & Hj & Hk).
  simplify_eq. lia.
Qed.

Lemma consumes_scan_ends (R : RegExpObj) (s : jsstring) :
  tracking R = true -> consumes (pattern R) = true -> scan_ends R s.
Proof. intros Htr Hcons. left. split; [done|]. intros i Hi. by apply consumes_no_empty_match. Qed.

Lemma consuming_patterns_end fuel (s : jsstring) (h1 : heap) ps :
  (forall p, p ∈ ps -> p < length h1) ->
  (forall p R, p ∈ ps -> h1 !! p = Some R ->
     tracking R = true /\ consumes (pattern R) = true) ->
  length s + 1 < fuel ->
  exists found h2, identify_forEach fuel ps (VString s) [] h1 = Returned found h2.
Proof.
  intros Hvalid Hall Hfuel.
  apply (identify_forEach_ends fuel s h1 ps Hfuel [] h1 eq_refl).
  apply Forall_forall. intros p Hp.
  destruct (lookup_lt_is_Some_2 h1 p (Hvalid p Hp)) as [R HR].
  exists R. split; [done|]. destruct (Hall p R Hp HR). by apply consumes_scan_ends.
Qed.

Section Termination.
Context {host : Host}.

(** [identifySensitiveText] returns, on every text, when each compiled
    pattern is global or sticky and its syntax forces every match to take
    at least one character; [length s + 2] rounds per pattern suffice. The
    scan positions the patterns start from do not matter. *)
Theorem identify_returns_for_consuming_patterns
    fuel (s : jsstring) spec (h : heap) ps h1 :
  length DEFAULT_PATTERNS <= length h ->
  compilePatterns spec h = Returned ps h1 ->
  (forall p R, p ∈ ps -> h1 !! p = Some R ->
     tracking R = true /\ consumes (pattern R) = true) ->
  length s + 1 < fuel ->
  exists r h2, identifySensitiveText fuel (VString s) spec h = Returned r h2.
Proof.
  intros Hloaded Hc Hall Hfuel.
  destruct (compilePatterns_valid _ _ _ _ Hloaded Hc) as [_ Hvalid].
  rewrite (identify_compiled _ _ _ _ _ _ Hc).
  destruct (consuming_patterns_end fuel s h1 ps Hvalid Hall Hfuel) as (found & h2 & ->).
  by eexists _, _.
Qed.

(** With the default patterns [identifySensitiveText] returns on every
    text: none of the four can match the empty string. This holds on any
    store that holds the four default objects in their places, at
    whatever scan positions. *)
Theorem identify_returns_with_defaults fuel (s : jsstring) (h : heap) :
  DEFAULT_HEAP `prefix_of` erase h ->
  length s + 1 < fuel ->
  exists r h2, identifySensitiveText fuel (VString s) SpecAbsent h = Returned r h2.
Proof.
  intros Hpre Hfuel.
  rewrite (identify_compiled fuel (VString s) SpecAbsent h DEFAULT_PATTERNS h eq_refl).
  destruct (consuming_patterns_end fuel s h DEFAULT_PATTERNS) as (found & h2 & ->);
    [| |done|by eexists _, _].
  - intros p Hp. apply prefix_length in Hpre. unfold erase in Hpre.
    rewrite length_fmap in Hpre. simpl in Hpre.
    repeat (apply elem_of_cons in Hp as [->|Hp]; [lia|]). by apply elem_of_nil in Hp.
  - intros p R Hp HR.
    assert (Hdef : exists D, DEFAULT_HEAP !! p = Some D /\ lastIndex D = 0 /\
                             tracking D = true /\ consumes (pattern D) = true).
    { repeat (apply elem_of_cons in Hp as [->|Hp];
              [eexists; split; [reflexivity|repeat split; reflexivity]|]).
      by apply elem_of_nil in Hp. }
    destruct Hdef as (D & HD & Hzero & Htr & Hcons).
    apply (prefix_lookup_Some _ _ _ _ HD) in Hpre.
    unfold erase in Hpre. rewrite list_lookup_fmap, HR in Hpre. simpl in Hpre.
    assert (Hsame : set_lastIndex 0 R = set_lastIndex 0 D).
    { injection Hpre as Hpre. rewrite Hpre. symmetry. by apply set_lastIndex_rest. }
    destruct (erased_fields _ _ Hsame) as (Hpat & _ & Htr').
    by rewrite Hpat, Htr'.
Qed.

End Termination.


(** ** The passes of [redactSensitiveContent] *)

Lemma results_global (R : RegExpObj) (s : jsstring) :
  global R = true -> sticky R = false ->
  (RegExp_results R s).2 = set_lastIndex 0 R.
Proof.
  intros Hg Hy. unfold RegExp_results. rewrite Hg.
  destruct (collect (length s + 2) (set_lastIndex 0 R) s) as [ms Rf] eqn:Hcol.
  by destruct (collect_replaced id (length s + 2) (set_lastIndex 0 R) s ms Rf Hg Hy)
    as (-> & _); [simpl; lia|simpl; lia|done|].
Qed.

Lemma redact_forEach_passes (h1 : heap) ps : forall (s : jsstring) (h : heap),
  erase h = erase h1 ->
  (forall p, p ∈ ps -> exists R, h1 !! p = Some R /\ global R = true /\ sticky R = false) ->
  exists out h2,
    redact_forEach ps (VString s) h = Returned (VString out) h2 /\
    erase h2 = erase h1 /\
    passes (fun _ => REDACTED) h1 ps s out.
Proof.
  induction ps as [|p ps IH]; intros s h Herase Hglobal.
  - exists s, h. repeat split; [done|constructor].
  - destruct (Hglobal p) as (R1 & HR1 & Hg & Hy); [left|].
    destruct (erase_lookup h1 h p R1) as (R & HR & Hsame); [done|done|].
    destruct (erased_flags _ _ Hsame) as [Hg' Hy'].
    destruct (erased_fields _ _ Hsame) as (Hpat & _ & _).
    assert (HgR : global R = true) by congruence.
    assert (HyR : sticky R = false) by congruence.
    pose proof (results_global R s HgR HyR) as Hres.
    destruct (RegExpReplace_global (fun _ => REDACTED) (set_lastIndex 0 R) s)
      as (mid & Hrep & Hpass); [done|done|].
    assert (HR' : <[p := set_lastIndex 0 R]> h !! p = Some (set_lastIndex 0 R)).
    { apply list_lookup_insert_eq. by eapply lookup_lt_Some. }
    destruct (IH mid (<[p := set_lastIndex 0 R]> h))
      as (out & h2 & Hrest & Herase2 & Hpasses);
      [by rewrite erase_insert|intros q Hq; apply Hglobal; by right|].
    exists out, h2. split; [|split; [done|]].
    + simpl. unfold bind, String_match, String_replace. rewrite HR.
      destruct (RegExp_results R s) as [ms R']. simpl in Hres. subst R'.
      rewrite HR', Hrep. by rewrite list_insert_insert_eq.
    + econstructor; [exact HR1| |exact Hpasses]. by rewrite <- Hpat.
Qed.

Section Redact.
Context {host : Host}.

(** [redactSensitiveContent] with global, non-sticky patterns (the
    defaults and all patterns compiled from strings) returns a string and
    runs one pass per pattern, in list order, each over the buffer the
    pass before it left: a pass puts one token for every successive match
    of its pattern in that buffer and copies the rest of it. The logging
    call to [match] before each [replace] changes nothing. *)
Theorem redact_runs_pass_by_pass (s : jsstring) spec (h : heap) ps h1 :
  length DEFAULT_PATTERNS <= length h ->
  compilePatterns spec h = Returned ps h1 ->
  (forall p R, p ∈ ps -> h1 !! p = Some R -> global R = true /\ sticky R = false) ->
  exists out h2,
    redactSensitiveContent (VString s) spec h = Returned (VString out) h2 /\
    passes (fun _ => REDACTED) h1 ps s out.
Proof.
  intros Hloaded Hc Hglobal.
  destruct (compilePatterns_valid _ _ _ _ Hloaded Hc) as [_ Hvalid].
  destruct (redact_forEach_passes h1 ps s h1 eq_refl) as (out & h2 & Hred & _ & Hpasses).
  { intros p Hp. destruct (lookup_lt_is_Some_2 h1 p (Hvalid p Hp)) as [R HR].
    exists R. split; [done|]. by eapply Hglobal. }
  exists out, h2. split; [|done].
  unfold redactSensitiveContent, bind. simpl. by rewrite Hc.
Qed.

End Redact.


(** ** The spans [identifySensitiveText] reports are the spans rewritten *)

Lemma scan_collect fuel : forall (R : RegExpObj) (s : jsstring) ms Rf,
  tracking R = true ->
  scan_while fuel R s = Some (ms, Rf) ->
  forall fuel2, fuel <= fuel2 -> collect fuel2 R s = (ms, Rf).
Proof.
  induction fuel as [|fuel IH]; intros R s ms Rf Htr Hscan fuel2 Hle; [done|].
  destruct fuel2 as [|fuel2]; [lia|]. simpl in Hscan |- *.
  destruct (RegExpBuiltinExec R s) as [[m|] R'] eqn:Hexec; [|by simplify_eq].
  destruct (scan_while fuel R' s) as [[ms' Rf']|] eqn:Hrest; [|done]. simplify_eq.
  destruct (matched m) as [|c text] eqn:Hm.
  - destruct (exec_empty_stuck _ _ _ _ Hexec Hm Htr) as [m' Hstuck].
    by rewrite (scan_while_stuck _ _ _ Hstuck) in Hrest.
  - assert (Htr' : tracking R' = true).
    { destruct (exec_Some _ _ _ _ Hexec) as (e & _ & _ & _ & _ & _ & _ & _ & ->).
      by rewrite Htr. }
    rewrite (IH _ _ _ _ Htr' Hrest fuel2); [done|lia].
Qed.

Lemma scan_results (R : RegExpObj) (s : jsstring) fuel ms Rf :
  global R = true -> lastIndex R = 0 ->
  scan_while fuel R s = Some (ms, Rf) ->
  (RegExp_results R s).1 = ms.
Proof.
  intros Hg Hzero Hscan. unfold RegExp_results. rewrite Hg.
  rewrite (set_lastIndex_rest R Hzero).
  assert (Htr : tracking R = true) by (unfold tracking; by rewrite Hg).
  destruct (decide (fuel <= length s + 2)) as [Hle|Hgt].
  - by rewrite (scan_collect _ _ _ _ _ Htr Hscan (length s + 2) Hle).
  - rewrite (collect_fuel (length s + 2) fuel R s Htr); [|lia|lia].
    by rewrite (scan_collect _ _ _ _ _ Htr Hscan fuel).
Qed.

Lemma to_exec_to_match (R : RegExpObj) (ms : list ExecResult) :
  to_exec <$> (to_match R <$> ms) = ms.
Proof.
  induction ms as [|m ms IH]; [done|]. rewrite !fmap_cons, IH. by destruct m.
Qed.

Lemma matched_length_to_match (R : RegExpObj) (ms : list ExecResult) :
  matched_length (to_match R <$> ms) = sum_list ((fun m => length (matched m)) <$> ms).
Proof.
  unfold matched_length. induction ms as [|m ms IH]; [done|].
  rewrite !fmap_cons. simpl. by rewrite IH.
Qed.

Lemma substring_bound (s : jsstring) a b :
  a <= b <= length s -> length (drop a s) = (b - a) + length (drop b s).
Proof. intros H. rewrite !length_drop. lia. Qed.

(** The length of a rewritten buffer: what the results cover is taken
    out, one replacement is put in for each. *)
Lemma splice_length f (s : jsstring) ms : forall next,
  next <= length s ->
  Forall (fun m => index m + length (matched m) <= length s) ms ->
  results_from next ms ->
  length (splice s ms f next) + sum_list ((fun m => length (matched m)) <$> ms) + next
    = length s + sum_list ((fun m => length (f (matched m))) <$> ms).
Proof.
  induction ms as [|m ms IH]; intros next Hnext Hall Hfrom.
  - simpl. rewrite length_drop. lia.
  - apply Forall_cons in Hall as [Hm Hall]. destruct Hfrom as [Hidx Hfrom].
    rewrite splice_cons_le; [|lia]. rewrite !length_app.
    rewrite substring_length; [|lia].
    specialize (IH (index m + length (matched m)) Hm Hall Hfrom).
    rewrite !fmap_cons. simpl in *. lia.
Qed.

Section Spans.
Context {host : Host}.

(** For a single global, non-sticky pattern at scan position 0, whenever
    [identifySensitiveText] returns, [redactSensitiveContent] and
    [previewSensitiveContent] rewrite exactly the spans it reports: their
    results are the content with each reported match, at its reported
    offset, replaced by the token or enclosed in the marker. The redacted
    length is the content's length less the matched text plus one token
    per match. *)
Theorem reported_spans_are_rewritten fuel (s : jsstring) spec (h : heap) p h1 R r h2 :
  length DEFAULT_PATTERNS <= length h ->
  compilePatterns spec h = Returned [p] h1 ->
  h1 !! p = Some R -> global R = true -> sticky R = false -> lastIndex R = 0 ->
  identifySensitiveText fuel (VString s) spec h = Returned r h2 ->
  let spans := to_exec <$> matches r in
  redactSensitiveContent (VString s) spec h
    = Returned (VString (splice s spans (fun _ => REDACTED) 0)) h1 /\
  previewSensitiveContent (VString s) spec h
    = Returned (VString (splice s spans highlight 0)) h1 /\
  length (splice s spans (fun _ => REDACTED) 0) + matched_length (matches r)
    = length s + count r * length REDACTED.
Proof.
  intros Hloaded Hc HR Hg Hy Hzero Hid spans. subst spans.
  assert (Hrest : at_rest R) by (split; [done|by intros _]).
  rewrite (identify_compiled _ _ _ _ _ _ Hc) in Hid.
  rewrite identify_forEach_cons, (exec_while_scan _ _ _ _ _ _ HR) in Hid.
  simpl in Hid. destruct (scan_while fuel R s) as [[ms Rf]|] eqn:Hscan; [|done].
  simpl in Hid. injection Hid as <- _. simpl.
  pose proof (scan_results R s fuel ms Rf Hg Hzero Hscan) as Hres.
  rewrite to_exec_to_match.
  split; [|split].
  - unfold redactSensitiveContent, bind. simpl. rewrite Hc. simpl. unfold bind.
    rewrite (String_match_calm _ _ _ _ HR Hrest).
    rewrite (String_replace_calm _ _ _ _ _ HR Hrest).
    unfold RegExpReplace. destruct (RegExp_results R s) as [ms' R']. simpl in *.
    by subst ms'.
  - unfold previewSensitiveContent, bind. rewrite Hc. simpl. unfold bind.
    rewrite (String_replace_calm _ _ _ _ _ HR Hrest).
    unfold RegExpReplace. destruct (RegExp_results R s) as [ms' R']. simpl in *.
    by subst ms'.
  - rewrite length_fmap, matched_length_to_match.
    apply scan_while_results in Hscan as (_ & Hall & Hfrom).
    unfold scan_start in Hfrom. rewrite Hzero in Hfrom.
    replace (if tracking R then 0 else 0) with 0 in Hfrom by by destruct (tracking R).
    assert (Hin : Forall (fun m => index m + length (matched m) <= length s) ms).
    { eapply Forall_impl; [exact Hall|]. intros m (e & _ & He & ->).
      rewrite substring_length; lia. }
    pose proof (splice_length (fun _ => REDACTED) s ms 0 ltac:(lia) Hin Hfrom) as Hlen.
    cbv beta in Hlen.
    assert (Hsum : sum_list ((fun _ : ExecResult => length REDACTED) <$> ms)
                   = length ms * length REDACTED).
    { clear. induction ms as [|m ms IH]; [done|]. rewrite fmap_cons. simpl in *. lia. }
    rewrite Hsum in Hlen. change (length REDACTED) with 10 in Hlen. lia.
Qed.

End Spans.


(** ** A scan without matches and the rewriting operations *)

Lemma preview_forEach_no_match (s : jsstring) ps : forall (h : heap),
  Forall (no_match_in s h) ps ->
  exists h2, preview_forEach ps (VString s) h = Returned (VString s) h2.
Proof.
  induction ps as [|p ps IH]; intros h Hall; [by eexists|].
  apply Forall_cons in Hall as [(R & Hp & Hnone) Hall].
  simpl. unfold bind, String_replace, RegExpReplace.
  rewrite Hp, results_no_match; [|done]. simpl. apply IH.
  eapply Forall_impl; [exact Hall|]. intros q Hq.
  eapply no_match_in_insert; [exact Hp| |done]. by destruct (tracking R).
Qed.

Lemma scan_while_nil fuel (R : RegExpObj) (s : jsstring) Rf :
  at_rest R -> scan_while fuel R s = Some ([], Rf) ->
  search (pattern R) s 0 (S (length s)) = None.
Proof.
  intros [Hy Hg] Hscan. destruct fuel as [|fuel]; [done|]. simpl in Hscan.
  destruct (RegExpBuiltinExec R s) as [[m|] R'] eqn:Hexec.
  - by destruct (scan_while fuel R' s) as [[ms Rf']|].
  - apply exec_None in Hexec as [_ Hnone]. apply search_None. intros b Hb.
    apply Hnone; [done|]. unfold scan_start, tracking. rewrite Hy, orb_false_r.
    destruct (global R); [rewrite Hg by done|]; lia.
Qed.

Lemma identify_forEach_nothing fuel (s : jsstring) (h : heap) ps :
  calm h -> (forall p, p ∈ ps -> p < length h) ->
  forall acc found h2,
    identify_forEach fuel ps (VString s) acc h = Returned found h2 ->
    exists rest, found = acc ++ rest /\ (rest = [] -> Forall (no_match_in s h) ps).
Proof.
  intros Hcalm. induction ps as [|p ps IH]; intros Hvalid acc found h2 Hid.
  - simpl in Hid. simplify_eq. exists []. by rewrite app_nil_r.
  - rewrite identify_forEach_cons in Hid.
    destruct (lookup_lt_is_Some_2 h p) as [R HR]; [apply Hvalid; left|].
    pose proof (calm_lookup _ _ _ Hcalm HR) as Hrest.
    rewrite (exec_while_calm _ _ _ _ _ _ HR Hrest) in Hid. simpl in Hid.
    destruct (scan_while fuel R s) as [[ms Rf]|] eqn:Hscan; [|done].
    apply IH in Hid as (rest & -> & Hnone); [|intros q Hq; apply Hvalid; by right].
    exists ((to_match R <$> ms) ++ rest). split; [by rewrite app_assoc|].
    intros Hnil. apply app_eq_nil in Hnil as [Hms ->].
    apply fmap_nil_inv in Hms as ->. constructor; [|by apply Hnone].
    exists R. split; [done|]. by eapply scan_while_nil.
Qed.

Section Nothing.
Context {host : Host}.

Lemma map_sources_calm (l : list PatternSource) : forall (h : heap) rs h',
  calm h -> map_sources l h = (rs, h') -> calm h'.
Proof.
  induction l as [|src l IH]; intros h rs h' Hcalm Hmap; simpl in Hmap.
  - by simplify_eq.
  - destruct (compile_source src h) as [r h1] eqn:Hc.
    destruct (map_sources l h1) as [rs' h2] eqn:Hrest. simplify_eq.
    eapply IH; [|exact Hrest]. destruct src as [s|q|]; simpl in Hc.
    + destruct (RegExpCompile (strip_delimiters s)); simplify_eq; [|done].
      apply calm_app; [done|]. by repeat constructor.
    + by destruct (decide (q < length h)); simplify_eq.
    + by simplify_eq.
Qed.

Lemma compilePatterns_calm spec (h : heap) ps h1 :
  calm h -> compilePatterns spec h = Returned ps h1 -> calm h1.
Proof.
  intros Hcalm Hc. destruct (spec_sources spec) as [l|] eqn:Hs.
  - rewrite (compilePatterns_sources _ _ _ Hs) in Hc.
    destruct (map_sources l h) as [rs h'] eqn:Hmap. simpl in Hc. simplify_eq.
    by eapply map_sources_calm.
  - destruct spec as [|[|c s]|l|p]; simpl in Hs, Hc; by simplify_eq.
Qed.

(** On a store at rest: when [identifySensitiveText] returns a count of
    0, both [redactSensitiveContent] and [previewSensitiveContent] return
    the content itself. *)
Theorem nothing_found_nothing_rewritten fuel (s : jsstring) spec (h : heap) r h2 :
  length DEFAULT_PATTERNS <= length h -> calm h ->
  identifySensitiveText fuel (VString s) spec h = Returned r h2 ->
  count r = 0 ->
  (exists h3, redactSensitiveContent (VString s) spec h = Returned (VString s) h3) /\
  (exists h3, previewSensitiveContent (VString s) spec h = Returned (VString s) h3).
Proof.
  intros Hloaded Hcalm Hid Hcount.
  destruct (compilePatterns spec h) as [ps h1|e h1|] eqn:Hc;
    [|by unfold identifySensitiveText, bind in Hid; rewrite Hc in Hid
     |by unfold identifySensitiveText, bind in Hid; rewrite Hc in Hid].
  destruct (compilePatterns_valid _ _ _ _ Hloaded Hc) as [_ Hvalid].
  pose proof (compilePatterns_calm _ _ _ _ Hcalm Hc) as Hcalm1.
  rewrite (identify_compiled _ _ _ _ _ _ Hc) in Hid.
  destruct (identify_forEach fuel ps (VString s) [] h1) as [found h'| |] eqn:Hf;
    [|done|done].
  injection Hid as <- _. simpl in Hcount.
  apply (identify_forEach_nothing _ _ _ _ Hcalm1 Hvalid) in Hf as (rest & -> & Hnone).
  destruct rest as [|m rest]; [|done]. specialize (Hnone eq_refl).
  unfold redactSensitiveContent, previewSensitiveContent, bind. simpl. rewrite Hc.
  split; [by apply redact_forEach_no_match|by apply preview_forEach_no_match].
Qed.

End Nothing.


(** ** Exceptions on text content *)

Lemma preview_forEach_returns ps : forall (s : jsstring) (h : heap),
  (forall p, p ∈ ps -> p < length h) ->
  exists out h2, preview_forEach ps (VString s) h = Returned (VString out) h2.
Proof.
  induction ps as [|p ps IH]; intros s h Hvalid; [by eexists _, _|].
  destruct (lookup_lt_is_Some_2 h p) as [R HR]; [apply Hvalid; left|].
  simpl. unfold bind, String_replace. rewrite HR.
  destruct (RegExpReplace R s highlight) as [out R']. apply IH.
  intros q Hq. rewrite length_insert. apply Hvalid. by right.
Qed.

Lemma redact_forEach_returns ps : forall (s : jsstring) (h : heap),
  (forall p, p ∈ ps -> p < length h) ->
  exists out h2, redact_forEach ps (VString s) h = Returned (VString out) h2.
Proof.
  induction ps as [|p ps IH]; intros s h Hvalid; [by eexists _, _|].
  destruct (lookup_lt_is_Some_2 h p) as [R HR]; [apply Hvalid; left|].
  simpl. unfold bind, String_match, String_replace. rewrite HR.
  destruct (RegExp_results R s) as [ms R1].
  rewrite list_lookup_insert_eq; [|by eapply lookup_lt_Some].
  destruct (RegExpReplace R1 s (fun _ => REDACTED)) as [out R']. apply IH.
  intros q Hq. rewrite !length_insert. apply Hvalid. by right.
Qed.

Lemma identify_forEach_no_throw fuel content ps : forall acc (h : heap) e h',
  (forall p, p ∈ ps -> p < length h) ->
  identify_forEach fuel ps content acc h <> Threw e h'.
Proof.
  induction ps as [|p ps IH]; intros acc h e h' Hvalid; [done|].
  destruct (lookup_lt_is_Some_2 h p) as [R HR]; [apply Hvalid; left|].
  rewrite identify_forEach_cons, (exec_while_scan _ _ _ _ _ _ HR).
  destruct (scan_while fuel R (ToString content)) as [[ms Rf]|]; [|done].
  apply IH. intros q Hq. rewrite length_insert. apply Hvalid. by right.
Qed.

Section TextErrors.
Context {host : Host}.

(** On a text content the three operations raise an exception for one
    kind of spec only, one that is neither absent nor a string nor an
    array (a [RegExp] object passed bare): the compiler's TypeError, with
    the store untouched. For every other spec, whatever its sources,
    [previewSensitiveContent] and [redactSensitiveContent] return a string
    and [identifySensitiveText] raises nothing. *)
Theorem text_fails_only_on_bare_pattern fuel (s : jsstring) spec (h : heap) :
  length DEFAULT_PATTERNS <= length h ->
  match spec with
  | SpecRegExp _ =>
      identifySensitiveText fuel (VString s) spec h = Threw TypeError h /\
      previewSensitiveContent (VString s) spec h = Threw TypeError h /\
      redactSensitiveContent (VString s) spec h = Threw TypeError h
  | _ =>
      (forall e h', identifySensitiveText fuel (VString s) spec h <> Threw e h') /\
      (exists out h', previewSensitiveContent (VString s) spec h
                        = Returned (VString out) h') /\
      (exists out h', redactSensitiveContent (VString s) spec h
                        = Returned (VString out) h')
  end.
Proof.
  intros Hloaded.
  assert (Hok : forall ps h1, compilePatterns spec h = Returned ps h1 ->
    (forall e h', identifySensitiveText fuel (VString s) spec h <> Threw e h') /\
    (exists out h', previewSensitiveContent (VString s) spec h
                      = Returned (VString out) h') /\
    (exists out h', redactSensitiveContent (VString s) spec h
                      = Returned (VString out) h')).
  { intros ps h1 Hc.
    destruct (compilePatterns_valid _ _ _ _ Hloaded Hc) as [_ Hvalid].
    unfold previewSensitiveContent, redactSensitiveContent, bind. simpl. rewrite Hc.
    split; [|split; [by apply preview_forEach_returns|by apply redact_forEach_returns]].
    intros e h'. rewrite (identify_compiled _ _ _ _ _ _ Hc).
    destruct (identify_forEach fuel ps (VString s) [] h1) eqn:Hf; [done| |done].
    by apply identify_forEach_no_throw in Hf. }
  destruct spec as [|t|l|p].
  - by eapply Hok.
  - destruct (compilePatterns (SpecString t) h) eqn:Hc; [by eapply Hok| |].
    + destruct t; simpl in Hc; [done|]. by destruct (map_sources _ h).
    + by apply compilePatterns_ends in Hc.
  - destruct (compilePatterns (SpecList l) h) eqn:Hc; [by eapply Hok| |].
    + simpl in Hc. by destruct (map_sources _ h).
    + by apply compilePatterns_ends in Hc.
  - unfold identifySensitiveText, previewSensitiveContent, redactSensitiveContent, bind.
    repeat split.
Qed.

End TextErrors.


(** ** Pattern literals in a spec: delimiters and flags *)

Lemma code_inj (a b : ascii) : code a = code b -> a = b.
Proof.
  unfold code. intros Heq. apply (f_equal ascii_of_nat) in Heq.
  by rewrite !ascii_nat_embedding in Heq.
Qed.

Lemma delimiters_need_slash (s : jsstring) i :
  s !! i <> Some "/"%char -> match_at delimiters s i = None.
Proof.
  intros Hno. unfold match_at, delimiters. simpl. unfold match_char.
  destruct (s !! i) as [c|] eqn:Hc; [|by destruct (i =? 0)].
  destruct (code c =? code "/") eqn:Hcode.
  - apply Nat.eqb_eq, code_inj in Hcode. by subst c.
  - by destruct (i =? 0).
Qed.

Lemma strip_delimiters_no_slash (s : jsstring) :
  "/"%char ∉ s -> strip_delimiters s = s.
Proof.
  intros Hno. unfold strip_delimiters, RegExpReplace.
  rewrite results_no_match; [done|].
  change (pattern (new_global (str "^\/|\/[gimuy]*$") delimiters)) with delimiters.
  apply search_None. intros b _.
  apply delimiters_need_slash. intros Hb. apply Hno. by eapply list_elem_of_lookup_2.
Qed.

Lemma search_first r (s : jsstring) a e n : forall i,
  i <= a < i + n ->
  (forall b, i <= b < a -> match_at r s b = None) ->
  match_at r s a = Some e ->
  search r s i n = Some (a, e).
Proof.
  induction n as [|n IH]; intros i Ha Hnone Hm; [lia|]. simpl.
  destruct (decide (i = a)) as [->|Hne]; [by rewrite Hm|].
  rewrite Hnone by lia. apply IH; [lia| |done]. intros b Hb. apply Hnone. lia.
Qed.

Lemma exec_first (R : RegExpObj) (s : jsstring) a e :
  tracking R = true -> sticky R = false ->
  lastIndex R <= a <= length s ->
  (forall b, lastIndex R <= b < a -> match_at (pattern R) s b = None) ->
  match_at (pattern R) s a = Some e ->
  RegExpBuiltinExec R s = (Some (mkExec a (substring a e s)), set_lastIndex e R).
Proof.
  intros Htr Hy Ha Hnone Hm. unfold RegExpBuiltinExec, scan_start.
  rewrite Htr, Hy. by rewrite (search_first _ _ a e); [|lia|done|done].
Qed.

Lemma exec_last (R : RegExpObj) (s : jsstring) :
  tracking R = true -> sticky R = false ->
  (forall b, lastIndex R <= b <= length s -> match_at (pattern R) s b = None) ->
  RegExpBuiltinExec R s = (None, set_lastIndex 0 R).
Proof.
  intros Htr Hy Hnone. unfold RegExpBuiltinExec, scan_start. rewrite Htr, Hy.
  destruct (search _ _ _ _) as [[a e]|] eqn:Hs; [|done].
  apply search_Some in Hs as (Ha & Hm & _). rewrite Hnone in Hm; [done|lia].
Qed.

Lemma star_unfold m k fuel i :
  repeat_matcher m true k (S fuel) 0 None i =
    match m i (fun j => if j =? i then None else repeat_matcher m true k fuel 0 None j) with
    | Some z => Some z
    | None => k i
    end.
Proof. reflexivity. Qed.

(** The flag letters after the closing delimiter are all taken by the
    starred class, up to the end of the input. *)
Lemma flags_to_the_end (s : jsstring) k fuel flags : forall i,
  drop i s = flags -> i <= length s ->
  Forall (fun c => c ∈ str "gimuy") flags ->
  length flags < fuel ->
  k (length s) = Some (length s) ->
  repeat_matcher
    (matchR (RClass false [CChar "g"; CChar "i"; CChar "m"; CChar "u"; CChar "y"]) s)
    true k fuel 0 None i = Some (length s).
Proof.
  set (m := matchR (RClass false [CChar "g"; CChar "i"; CChar "m"; CChar "u"; CChar "y"]) s).
  assert (Hm : forall i d, m i d =
            match_char (class_matches false
              [CChar "g"; CChar "i"; CChar "m"; CChar "u"; CChar "y"]) s i d)
    by reflexivity.
  revert fuel. induction flags as [|c flags IH]; intros fuel i Hdrop Hi Hall Hfuel Hk.
  - apply drop_nil_inv in Hdrop. assert (i = length s) as -> by lia.
    destruct fuel as [|fuel]; [simpl in Hfuel; lia|]. rewrite star_unfold, Hm.
    unfold match_char.
    rewrite lookup_ge_None_2; [done|lia].
  - assert (Hc : s !! i = Some c).
    { rewrite <- (Nat.add_0_r i), <- lookup_drop, Hdrop. done. }
    assert (Hrest : drop (S i) s = flags).
    { rewrite (drop_S _ _ _ Hc) in Hdrop. by injection Hdrop. }
    apply Forall_cons in Hall as [Hcls Hall].
    destruct fuel as [|fuel]; [simpl in Hfuel; lia|]. rewrite star_unfold, Hm.
    unfold match_char. rewrite Hc.
    assert (Hclass : class_matches false
              [CChar "g"; CChar "i"; CChar "m"; CChar "u"; CChar "y"] c = true).
    { repeat (apply elem_of_cons in Hcls as [->|Hcls]; [reflexivity|]).
      by apply elem_of_nil in Hcls. }
    rewrite Hclass. replace (S i =? i) with false by (symmetry; apply Nat.eqb_neq; lia).
    apply lookup_lt_Some in Hc.
    rewrite (IH fuel (S i)); [done|done|lia|done|simpl in Hfuel; lia|done].
Qed.

Lemma delimiters_closing (s : jsstring) i flags :
  0 < i -> s !! i = Some "/"%char -> drop (S i) s = flags ->
  Forall (fun c => c ∈ str "gimuy") flags ->
  match_at delimiters s i = Some (length s).
Proof.
  intros Hpos Hc Hdrop Hall. unfold match_at, delimiters. simpl.
  replace (i =? 0) with false by (symmetry; apply Nat.eqb_neq; lia).
  unfold match_char at 1. rewrite Hc. simpl.
  apply lookup_lt_Some in Hc.
  apply (flags_to_the_end s _ _ flags); [done|lia|done| |by rewrite Nat.eqb_refl].
  rewrite <- Hdrop, length_drop. lia.
Qed.

(** A source written as a pattern literal loses its delimiters and its
    flags. *)
Lemma strip_delimiters_literal (body flags : jsstring) :
  "/"%char ∉ body -> Forall (fun c => c ∈ str "gimuy") flags ->
  strip_delimiters ("/"%char :: body ++ "/"%char :: flags) = body.
Proof.
  intros Hbody Hflags.
  set (s := "/"%char :: body ++ "/"%char :: flags).
  set (R := new_global (str "^\/|\/[gimuy]*$") delimiters).
  assert (Hlen : length s = S (length body + S (length flags))).
  { unfold s. simpl. rewrite length_app. done. }
  assert (Hclose : s !! S (length body) = Some "/"%char).
  { unfold s. simpl. by rewrite list_lookup_middle. }
  assert (Hdrop : drop (S (S (length body))) s = flags).
  { unfold s. cbn [drop].
    replace (S (length body)) with (length body + 1) by lia.
    by rewrite <- drop_drop, drop_app_length. }
  assert (Hinner : forall b, 1 <= b < S (length body) -> match_at delimiters s b = None).
  { intros b Hb. apply delimiters_need_slash. intros Hs. apply Hbody.
    destruct b as [|b]; [lia|]. unfold s in Hs. simpl in Hs.
    rewrite lookup_app_l in Hs by lia. by eapply list_elem_of_lookup_2. }
  assert (H1 : RegExpBuiltinExec (set_lastIndex 0 R) s
               = (Some (mkExec 0 (substring 0 1 s)), set_lastIndex 1 R)).
  { apply (exec_first _ s 0 1); [done|done|simpl; lia|intros b Hb; simpl in Hb; lia|].
    reflexivity. }
  assert (H2 : RegExpBuiltinExec (set_lastIndex 1 R) s
               = (Some (mkExec (S (length body)) (substring (S (length body)) (length s) s)),
                  set_lastIndex (length s) R)).
  { rewrite (exec_first _ s (S (length body)) (length s));
      [reflexivity|done|done|change (lastIndex (set_lastIndex 1 R)) with 1; lia
      |exact Hinner|].
    by apply (delimiters_closing s _ flags); [lia|..]. }
  assert (H3 : RegExpBuiltinExec (set_lastIndex (length s) R) s
               = (None, set_lastIndex 0 R)).
  { rewrite exec_last; [reflexivity|done|done|]. intros b Hb.
    change (lastIndex (set_lastIndex (length s) R)) with (length s) in Hb.
    apply delimiters_need_slash. rewrite lookup_ge_None_2; [done|lia]. }
  unfold strip_delimiters, RegExpReplace, RegExp_results. fold R. fold s.
  change (global R) with true. cbv iota.
  replace (length s + 2) with (S (S (S (length s - 1)))) by lia.
  assert (Hm1 : substring 0 1 s = ["/"%char]) by reflexivity.
  rewrite Hm1 in H1.
  cbn [collect]. rewrite H1. cbn [matched]. rewrite H2. cbn [matched].
  assert (Hm2 : substring (S (length body)) (length s) s = "/"%char :: flags).
  { unfold substring. rewrite (drop_S _ _ _ Hclose), Hdrop.
    rewrite take_ge; [done|]. rewrite Hlen. cbn [length]. lia. }
  rewrite Hm2, H3. cbn [fst].
  rewrite splice_cons_le by (cbn [index]; lia). cbn [index matched length].
  rewrite splice_cons_le by (cbn [index]; lia). cbn [index matched length splice].
  rewrite drop_ge by lia. unfold substring, s. cbn [drop take Nat.add Nat.sub].
  rewrite Nat.sub_0_r, drop_0, take_app_length. by rewrite !app_nil_r.
Qed.

Section Flags.
Context {host : Host}.

(** A string source written as a literal [/body/flags], with a body free
    of slashes and flags among [g i m u y], is compiled exactly as the
    bare source [body]: the flags the user wrote are dropped and the
    pattern is global like every other. A source without any slash is
    parsed as it is. *)
Theorem literal_flags_are_dropped (body flags : jsstring) (h : heap) :
  "/"%char ∉ body -> Forall (fun c => c ∈ str "gimuy") flags ->
  compile_source (SrcString ("/"%char :: body ++ "/"%char :: flags)) h
    = compile_source (SrcString body) h
  /\ compile_source (SrcString body) h =
       match RegExpCompile body with
       | Some r => (Some (length h), h ++ [new_global (EscapeRegExpPattern body) r])
       | None => (None, h)
       end.
Proof.
  intros Hbody Hflags. unfold compile_source.
  by rewrite strip_delimiters_literal, strip_delimiters_no_slash.
Qed.

End Flags.


(** ** A string spec: one source per comma-separated piece *)

Lemma split_comma_pieces (s : jsstring) :
  length (split_comma s) = S (count_occ ascii_dec s ","%char) /\
  Forall (fun piece => ","%char ∉ piece) (split_comma s).
Proof.
  induction s as [|c s [IHlen IHall]].
  - split; [done|]. constructor; [|constructor]. apply not_elem_of_nil.
  - cbn [split_comma count_occ]. destruct (code c =? 44) eqn:Hc.
    + apply Nat.eqb_eq in Hc. apply (code_inj c ","%char) in Hc. subst c.
      destruct (ascii_dec "," ","); [|done]. cbn [length]. split; [by rewrite IHlen|].
      constructor; [apply not_elem_of_nil|done].
    + apply Nat.eqb_neq in Hc.
      destruct (ascii_dec c ",") as [->|Hne]; [done|].
      destruct (split_comma s) as [|piece pieces]; [done|].
      split; [done|]. apply Forall_cons in IHall as [Hpiece Hpieces].
      constructor; [|done]. intros Hin. apply elem_of_cons in Hin as [Heq|Hin]; [|done].
      by subst c.
Qed.

Lemma trim_start_suffix (s : jsstring) : trim_start s `suffix_of` s.
Proof.
  induction s as [|c s IH]; [done|]. simpl. destruct (is_white_space c); [|done].
  by apply suffix_cons_r.
Qed.

Lemma trim_keeps x (s : jsstring) : x ∈ trim s -> x ∈ s.
Proof.
  unfold trim. rewrite elem_of_reverse. intros Hin.
  destruct (trim_start_suffix (reverse (trim_start s))) as [k1 Hk1].
  assert (Hin2 : x ∈ trim_start s).
  { apply elem_of_reverse. rewrite Hk1. apply elem_of_app. by right. }
  destruct (trim_start_suffix s) as [k2 Hk2]. rewrite Hk2. apply elem_of_app. by right.
Qed.

Lemma splice_deletes_only x (s : jsstring) results : forall next,
  x ∈ splice s results (fun _ => []) next -> x ∈ s.
Proof.
  induction results as [|m results IH]; intros next Hin; cbn [splice] in Hin.
  - eapply elem_of_sublist; [exact Hin|apply sublist_drop].
  - destruct (next <=? _); [|by eapply IH].
    apply elem_of_app in Hin as [Hin|Hin].
    + unfold substring in Hin. eapply elem_of_sublist; [exact Hin|].
      etransitivity; [apply sublist_take|apply sublist_drop].
    + by eapply IH.
Qed.

Lemma strip_delimiters_keeps x (s : jsstring) : x ∈ strip_delimiters s -> x ∈ s.
Proof.
  unfold strip_delimiters, RegExpReplace. destruct (RegExp_results _ _) as [results R'].
  apply splice_deletes_only.
Qed.

Lemma omap_length_le {A B} (f : A -> option B) (l : list A) :
  length (omap f l) <= length l.
Proof.
  induction l as [|a l IH]; [done|]. simpl.
  change (list_omap A B f l) with (omap f l). destruct (f a); simpl; lia.
Qed.

Section StringSpec.
Context {host : Host}.

Lemma map_sources_strings (ts : list jsstring) : forall (h : heap),
  exists rs,
    map_sources (SrcString <$> ts) h = (rs, h ++ omap fresh_object (SrcString <$> ts)) /\
    filter_Boolean rs = seq (length h) (length (omap fresh_object (SrcString <$> ts))).
Proof.
  induction ts as [|t ts IH]; intros h.
  - exists []. by rewrite app_nil_r.
  - rewrite fmap_cons. cbn [map_sources].
    assert (Hom : omap fresh_object (SrcString t :: (SrcString <$> ts)) =
              match fresh_object (SrcString t) with
              | Some R => R :: omap fresh_object (SrcString <$> ts)
              | None => omap fresh_object (SrcString <$> ts)
              end) by reflexivity.
    rewrite Hom. clear Hom.
    assert (Hfresh : fresh_object (SrcString t) =
              new_global (EscapeRegExpPattern (strip_delimiters t))
                <$> RegExpCompile (strip_delimiters t)) by reflexivity.
    rewrite Hfresh. clear Hfresh. unfold compile_source.
    destruct (RegExpCompile (strip_delimiters t)) as [r|] eqn:Hr;
      cbn [fmap option_fmap option_map].
    + destruct (IH (h ++ [new_global (EscapeRegExpPattern (strip_delimiters t)) r]))
        as (rs & Hmap & Hrs).
      rewrite Hmap. eexists. split; [by rewrite <- app_assoc|].
      change (filter_Boolean (Some (length h) :: rs))
        with (length h :: filter_Boolean rs).
      rewrite Hrs, length_app. cbn [length seq]. by rewrite Nat.add_1_r.
    + destruct (IH h) as (rs & Hmap & Hrs). rewrite Hmap. eexists. split; [done|]. done.
Qed.

Lemma fresh_from_strings (ts : list jsstring) (R : RegExpObj) :
  R ∈ omap fresh_object (SrcString <$> ts) ->
  exists t r, t ∈ ts /\ RegExpCompile (strip_delimiters t) = Some r /\
    R = new_global (EscapeRegExpPattern (strip_delimiters t)) r.
Proof.
  intros Hin. apply list_elem_of_omap in Hin as (src & Hsrc & Hfresh).
  apply list_elem_of_fmap in Hsrc as (t & -> & Ht). unfold fresh_object in Hfresh.
  destruct (RegExpCompile (strip_delimiters t)) as [r|] eqn:Hr; [|done].
  exists t, r. split; [done|]. split; [done|]. by injection Hfresh.
Qed.

(** A non-empty string spec never reuses a pattern of the store: the
    patterns it returns are exactly the objects it has just added, in order,
    at most one per comma-separated piece. Each is global, not sticky and at
    position 0, and is compiled from a text without any comma: a comma
    always separates, there is no way to write one inside a pattern. *)
Theorem string_spec_compiles_pieces (c : ascii) (s : jsstring) (h : heap) :
  exists fresh,
    compilePatterns (SpecString (c :: s)) h
      = Returned (seq (length h) (length fresh)) (h ++ fresh) /\
    length fresh <= S (count_occ ascii_dec (c :: s) ","%char) /\
    Forall (fun R =>
      global R = true /\ sticky R = false /\ lastIndex R = 0 /\
      exists t r, (","%char ∉ t) /\ RegExpCompile t = Some r /\
        source R = EscapeRegExpPattern t /\ pattern R = r) fresh.
Proof.
  set (ts := trim <$> split_comma (c :: s)).
  exists (omap fresh_object (SrcString <$> ts)).
  destruct (split_comma_pieces (c :: s)) as [Hlen Hpieces].
  split; [|split].
  - rewrite (compilePatterns_sources _ (SrcString <$> ts)) by done.
    destruct (map_sources_strings ts h) as (rs & -> & Hrs). by rewrite <- Hrs.
  - etransitivity; [apply omap_length_le|]. unfold ts. by rewrite !length_fmap, Hlen.
  - apply Forall_forall. intros R HR.
    apply fresh_from_strings in HR as (t & r & Ht & Hr & ->).
    repeat split. exists (strip_delimiters t), r. repeat split; [|done].
    intros Hin. apply strip_delimiters_keeps in Hin.
    unfold ts in Ht. apply list_elem_of_fmap in Ht as (piece & -> & Hpiece).
    apply trim_keeps in Hin. by eapply (proj1 (Forall_forall _ _) Hpieces).
Qed.

End StringSpec.


(** * Properties of [services/fileProcessor.js] *)

(** ** Which names are HTML files *)

Lemma mark_end_set i (st : ExtnameState) e :
  ext_end st = Some e -> mark_end i st = st.
Proof. destruct st as [sd sp en ms pd]. simpl. by intros ->. Qed.

Lemma mark_end_fields i (st : ExtnameState) :
  startDot (mark_end i st) = startDot st /\
  startPart (mark_end i st) = startPart st /\
  preDotState (mark_end i st) = preDotState st /\
  ext_end (mark_end i st) = Some (default (S i) (ext_end st)).
Proof. by destruct st as [sd sp [e|] ms pd]. Qed.

(** The units after the last dot: the end of the extension is marked at
    the first of them, nothing else changes. *)
Lemma extname_for_tail (l rest : jsstring) : forall st,
  Forall (fun c => code c <> 47 /\ code c <> 46) l ->
  startDot st = None ->
  extname_for (l ++ rest) st =
    extname_for rest (match l with [] => st | _ => mark_end (length (l ++ rest) - 1) st end).
Proof.
  induction l as [|c l IH]; intros st Hl Hdot; [done|].
  apply Forall_cons in Hl as [[H47 H46] Hl].
  change ((c :: l) ++ rest) with (c :: (l ++ rest)). cbn [extname_for length].
  rewrite (proj2 (Nat.eqb_neq _ _) H47), (proj2 (Nat.eqb_neq _ _) H46).
  replace (S (length (l ++ rest)) - 1) with (length (l ++ rest)) by lia.
  destruct (mark_end_fields (length (l ++ rest)) st) as (Hsd & _ & _ & Hend).
  assert (Hother : mark_other (mark_end (length (l ++ rest)) st)
                   = mark_end (length (l ++ rest)) st).
  { unfold mark_other. by rewrite Hsd, Hdot. }
  rewrite Hother, IH; [|done|by rewrite Hsd].
  destruct l as [|c' l]; [done|]. by rewrite (mark_end_set _ _ _ Hend).
Qed.

(** The units before the last dot: only [preDotState] changes, and the
    first unit of the name decides it. *)
Lemma extname_for_stem (l : jsstring) : forall st d e,
  Forall (fun c => code c <> 47) l ->
  startDot st = Some d -> ext_end st = Some e ->
  extname_for l st =
    match last l with
    | None => st
    | Some c =>
        mkExtnameState (Some d) (startPart st) (Some e) (matchedSlash st)
          (if code c =? 46 then 1%Z else (-1)%Z)
    end.
Proof.
  induction l as [|c l IH]; intros st d e Hl Hdot Hend; [done|].
  apply Forall_cons in Hl as [H47 Hl]. cbn [extname_for].
  rewrite (proj2 (Nat.eqb_neq _ _) H47), (mark_end_set _ _ _ Hend).
  set (st' := if code c =? 46 then mark_dot (length l) st else mark_other st).
  assert (Hst' : st' = mkExtnameState (Some d) (startPart st) (Some e) (matchedSlash st)
                         (if code c =? 46 then 1%Z else (-1)%Z)).
  { unfold st', mark_dot, mark_other. rewrite Hdot. destruct st as [sd sp en ms pd].
    simpl in *. subst sd en. destruct (code c =? 46); [|done].
    destruct (pd =? 1)%Z eqn:Hpd; [|done]. apply Z.eqb_eq in Hpd. by subst pd. }
  rewrite (IH st' d e); [|done|by rewrite Hst'|by rewrite Hst'].
  rewrite last_cons. destruct (last l) as [c'|]; [|done]. by rewrite Hst'.
Qed.

(** [path.extname] on a name split at its last dot. *)
Lemma extname_last_dot (stem ext : jsstring) :
  Forall (fun c => code c <> 47) stem ->
  Forall (fun c => code c <> 47 /\ code c <> 46) ext ->
  extname (stem ++ "."%char :: ext) =
    if decide (stem = [] \/ (stem = ["."%char] /\ ext = [])) then []
    else "."%char :: ext.
Proof.
  intros Hstem Hext. unfold extname.
  rewrite reverse_app, reverse_cons, <- app_assoc.
  rewrite extname_for_tail; [|by apply Forall_reverse|done].
  change ([ "."%char ] ++ reverse stem) with ("."%char :: reverse stem).
  set (st0 := mkExtnameState None 0 None true 0%Z).
  set (total := length (reverse ext ++ "."%char :: reverse stem)).
  assert (Htotal : total = length stem + S (length ext)).
  { unfold total. rewrite length_app, !length_reverse. simpl.
    rewrite length_reverse. lia. }
  clearbody total.
  set (st1 := match reverse ext with [] => st0 | _ => mark_end (total - 1) st0 end).
  cbn [extname_for]. change (code "." =? 47) with false.
  change (code "." =? 46) with true. cbv iota.
  set (st2 := mark_dot (length (reverse stem)) (mark_end (length (reverse stem)) st1)).
  assert (Hst2 : st2 = mkExtnameState (Some (length stem)) 0 (Some total) false 0%Z).
  { unfold st2, st1. rewrite length_reverse.
    destruct (reverse ext) as [|c l] eqn:Hrev.
    - apply (f_equal length) in Hrev. rewrite length_reverse in Hrev. simpl in Hrev.
      unfold mark_dot, mark_end, st0. simpl.
      replace total with (S (length stem)) by lia. done.
    - apply (f_equal length) in Hrev. rewrite length_reverse in Hrev. simpl in Hrev.
      unfold mark_dot, mark_end, st0. simpl.
      replace (total - 1) with (length stem + length ext) by lia.
      replace total with (S (length stem + length ext)) by lia. done. }
  rewrite (extname_for_stem _ st2 (length stem) total);
    [|by apply Forall_reverse|by rewrite Hst2|by rewrite Hst2].
  rewrite last_reverse. destruct stem as [|c stem]; cbn [head].
  - rewrite Hst2. rewrite decide_True; [done|by left].
  - cbn [startDot ext_end preDotState startPart]. rewrite Hst2. cbn [startPart].
    assert (Hsub : substring (length (c :: stem)) total ((c :: stem) ++ "."%char :: ext)
                   = "."%char :: ext).
    { unfold substring. rewrite drop_app_length, take_ge; [done|].
      cbn [length] in *. lia. }
    rewrite Hsub. destruct (code c =? 46) eqn:Hc.
    + apply Nat.eqb_eq in Hc. apply (code_inj c "."%char) in Hc. subst c.
      change ((1 =? 0)%Z) with false. change ((1 =? 1)%Z) with true. cbn [orb andb].
      destruct stem as [|c' stem]; destruct ext as [|x ext]; cbn [length] in Htotal.
      * subst total. rewrite decide_True; [done|by right].
      * replace (length ["."%char] =? total - 1) with false
          by (symmetry; apply Nat.eqb_neq; simpl; lia).
        rewrite decide_False; [done|]. by intros [?|[? ?]].
      * rewrite andb_false_r. rewrite decide_False; [done|]. by intros [?|[? ?]].
      * rewrite andb_false_r. rewrite decide_False; [done|]. by intros [?|[? ?]].
    + change ((-1 =? 0)%Z) with false. change ((-1 =? 1)%Z) with false. cbn [orb andb].
      rewrite decide_False; [done|]. intros [?|[Heq ?]]; [done|].
      injection Heq as -> _. done.
Qed.

Lemma extname_no_dot (path : jsstring) :
  Forall (fun c => code c <> 47 /\ code c <> 46) path -> extname path = [].
Proof.
  intros Hpath. unfold extname.
  rewrite <- (app_nil_r (reverse path)), extname_for_tail; [|by apply Forall_reverse|done].
  cbn [extname_for].
  destruct (reverse path); [done|]. unfold mark_end. done.
Qed.

Lemma toLowerCase_html (ext : jsstring) :
  toLowerCase ext = str "html" -> Forall (fun c => code c <> 47 /\ code c <> 46) ext.
Proof.
  intros Hlow. apply Forall_forall. intros c Hc.
  assert (Hin : toLowerCase_unit c ∈ str "html").
  { rewrite <- Hlow. by apply list_elem_of_fmap_2. }
  assert (Hcases : forall c, toLowerCase_unit c ∈ str "html" -> code c <> 47 /\ code c <> 46).
  { clear. intros c Hin. split; intros Hc.
    - apply (code_inj c "/"%char) in Hc. subst c. vm_compute in Hin.
      repeat (apply elem_of_cons in Hin as [Hin|Hin]; [discriminate Hin|]).
      by apply elem_of_nil in Hin.
    - apply (code_inj c "."%char) in Hc. subst c. vm_compute in Hin.
      repeat (apply elem_of_cons in Hin as [Hin|Hin]; [discriminate Hin|]).
      by apply elem_of_nil in Hin. }
  by apply Hcases.
Qed.

Lemma no_slash_codes (s : jsstring) :
  "/"%char ∉ s -> Forall (fun c => code c <> 47) s.
Proof.
  intros Hno. apply Forall_forall. intros c Hc H47. apply Hno.
  apply (code_inj c "/"%char) in H47. by subst c.
Qed.

(** A name without separator passes the test of [findHtmlFiles] exactly
    when it is a non-empty stem, a dot, and four letters that spell
    [html] in any mix of cases: [.html] alone is not an HTML file, and
    neither is [page.html.bak] or [page.htm]. *)
Theorem html_extension_rule (name : jsstring) :
  "/"%char ∉ name ->
  is_html name = true <->
  exists stem ext,
    name = stem ++ "."%char :: ext /\ stem <> [] /\ toLowerCase ext = str "html".
Proof.
  intros Hslash. unfold is_html. rewrite bool_decide_eq_true. split.
  - intros Hlow. destruct (decide ("."%char ∈ name)) as [Hdot|Hdot].
    + apply list_elem_of_split_r in Hdot as (stem & ext & -> & Hext).
      assert (Hstem : Forall (fun c => code c <> 47) stem).
      { apply no_slash_codes. intros Hin. apply Hslash. apply elem_of_app. by left. }
      assert (Hext' : Forall (fun c => code c <> 47 /\ code c <> 46) ext).
      { apply Forall_forall. intros c Hc. split; intros Hcode.
        - apply (code_inj c "/"%char) in Hcode. subst c. apply Hslash.
          apply elem_of_app. right. by right.
        - apply (code_inj c "."%char) in Hcode. by subst c. }
      rewrite (extname_last_dot _ _ Hstem Hext') in Hlow.
      destruct (decide (stem = [] \/ (stem = ["."%char] /\ ext = []))) as [Hd|Hd];
        [done|].
      exists stem, ext. split; [done|]. split; [tauto|].
      unfold toLowerCase in *. rewrite fmap_cons in Hlow. by injection Hlow.
    + rewrite extname_no_dot in Hlow; [done|].
      apply Forall_forall. intros c Hc. split; intros Hcode.
      * apply (code_inj c "/"%char) in Hcode. by subst c.
      * apply (code_inj c "."%char) in Hcode. by subst c.
  - intros (stem & ext & -> & Hstem & Hlow).
    pose proof (toLowerCase_html _ Hlow) as Hext.
    rewrite extname_last_dot; [|apply no_slash_codes; intros Hin; apply Hslash;
                                 apply elem_of_app; by left|done].
    rewrite decide_False.
    + unfold toLowerCase in *. rewrite fmap_cons, Hlow. done.
    + intros [?|[_ ->]]; done.
Qed.


(** ** The scan of [findHtmlFiles] *)

Lemma Dirent_nested_ind (P : Dirent -> Prop) :
  (forall n, P (File n)) ->
  (forall n m, P (Directory n (Rejected m))) ->
  (forall n entries, Forall P entries -> P (Directory n (Fulfilled entries))) ->
  (forall n, P (Other n)) ->
  forall entry, P entry.
Proof.
  intros Hfile Hlocked Hdir Hother.
  exact (fix go (entry : Dirent) : P entry :=
           match entry with
           | File n => Hfile n
           | Directory n (Rejected m) => Hlocked n m
           | Directory n (Fulfilled entries) =>
               Hdir n entries
                 ((fix all (es : list Dirent) : Forall P es :=
                     match es with
                     | [] => List.Forall_nil P
                     | e :: rest => List.Forall_cons P e rest (go e) (all rest)
                     end) entries)
           | Other n => Hother n
           end).
Qed.

Lemma holds_nil q entry : ~ holds [] q entry.
Proof.
  intros Hh. inversion Hh as [es e Hin|es n sub p e Hin _]; subst;
    by apply elem_of_nil in Hin.
Qed.

Lemma holds_cons e es q entry :
  holds (e :: es) q entry <-> holds [e] q entry \/ holds es q entry.
Proof.
  split.
  - intros Hh. inversion Hh as [es' e' Hin|es' n sub p e' Hin Hsub]; subst.
    + apply elem_of_cons in Hin as [->|Hin].
      * left. constructor. by left.
      * right. by constructor.
    + apply elem_of_cons in Hin as [<-|Hin].
      * left. eapply holds_below; [by left|done].
      * right. by eapply holds_below.
  - intros [Hh|Hh].
    + inversion Hh as [es' e' Hin|es' n sub p e' Hin Hsub]; subst.
      * apply list_elem_of_singleton in Hin as ->. constructor. by left.
      * apply list_elem_of_singleton in Hin as <-. eapply holds_below; [by left|done].
    + inversion Hh as [es' e' Hin|es' n sub p e' Hin Hsub]; subst.
      * constructor. by right.
      * eapply holds_below; [by right|done].
Qed.

Lemma holds_single e q entry :
  holds [e] q entry <->
  (q = [name e] /\ entry = e) \/
  exists n sub q', e = Directory n (Fulfilled sub) /\ q = n :: q' /\ holds sub q' entry.
Proof.
  split.
  - intros Hh. inversion Hh as [es' e' Hin|es' n sub p e' Hin Hsub]; subst.
    + apply list_elem_of_singleton in Hin as ->. by left.
    + apply list_elem_of_singleton in Hin as <-. right. by exists n, sub, p.
  - intros [[-> ->]|(n & sub & q' & -> & -> & Hsub)].
    + constructor. by left.
    + eapply holds_below; [by left|done].
Qed.

Lemma scan_for_spec (entries : list Dirent) :
  Forall (fun e => forall d f, scan_spec [e] d f (scan_entry d e f)) entries ->
  forall directory files,
    scan_spec entries directory files (scan_for scan_entry directory entries files).
Proof.
  induction 1 as [|e rest He _ IH]; intros directory files.
  - cbn [scan_for scan_spec]. split; [intros q n m; apply holds_nil|].
    exists []. rewrite app_nil_r. split; [done|]. intros p. split.
    + intros Hp. by apply elem_of_nil in Hp.
    + intros (q & n & _ & Hh & _). by apply holds_nil in Hh.
  - cbn [scan_for]. specialize (He directory files).
    destruct (scan_entry directory e files) as [m|files1]; cbn [scan_spec] in *.
    + destruct He as (q & n & Hh). exists q, n. apply holds_cons. by left.
    + destruct He as (Hnone1 & found1 & -> & Hfound1).
      specialize (IH directory (files ++ found1)).
      destruct (scan_for scan_entry directory rest (files ++ found1)) as [m|files2];
        cbn [scan_spec] in *.
      * destruct IH as (q & n & Hh). exists q, n. apply holds_cons. by right.
      * destruct IH as (Hnone2 & found2 & -> & Hfound2). split.
        -- intros q n m Hh. apply holds_cons in Hh as [Hh|Hh];
             [by eapply Hnone1|by eapply Hnone2].
        -- exists (found1 ++ found2). split; [by rewrite app_assoc|].
           intros p. rewrite elem_of_app, Hfound1, Hfound2. split.
           ++ intros [(q & n & -> & Hh & Hn)|(q & n & -> & Hh & Hn)];
                exists q, n; (split; [done|]); (split; [|done]); apply holds_cons;
                [by left|by right].
           ++ intros (q & n & -> & Hh & Hn). apply holds_cons in Hh as [Hh|Hh];
                [left|right]; by exists q, n.
Qed.

Lemma scan_entry_spec (entry : Dirent) :
  forall directory files,
    scan_spec [entry] directory files (scan_entry directory entry files).
Proof.
  induction entry as [n|n m|n sub IH|n] using Dirent_nested_ind; intros directory files.
  - cbn [scan_entry scan_spec name]. split.
    + intros q n' m Hh. apply holds_single in Hh as [[_ Heq]|(? & ? & ? & Heq & _)]; done.
    + exists (if is_html n then [directory ++ [n]] else []). split.
      * destruct (is_html n); [done|by rewrite app_nil_r].
      * intros p. split.
        -- intros Hp. destruct (is_html n) eqn:Hn; [|by apply elem_of_nil in Hp].
           apply list_elem_of_singleton in Hp as ->. exists [n], n.
           split; [done|]. split; [|done]. apply holds_single. by left.
        -- intros (q & n' & -> & Hh & Hn').
           apply holds_single in Hh as [[-> Heq]|(? & ? & ? & Heq & _)]; [|done].
           injection Heq as ->. rewrite Hn'. by apply list_elem_of_singleton.
  - cbn [scan_entry scan_spec]. exists [n], n. apply holds_single. by left.
  - cbn [scan_entry name]. pose proof (scan_for_spec sub IH (directory ++ [n]) files) as Hsub.
    destruct (scan_for scan_entry (directory ++ [n]) sub files) as [m|files'];
      cbn [scan_spec] in *.
    + destruct Hsub as (q & n' & Hh). exists (n :: q), n'.
      apply holds_single. right. by exists n, sub, q.
    + destruct Hsub as (Hnone & found & -> & Hfound). split.
      * intros q n' m Hh.
        apply holds_single in Hh as [[_ Heq]|(? & ? & q' & Heq & -> & Hh)]; [done|].
        injection Heq as <- <-. by eapply Hnone.
      * exists found. split; [done|]. intros p. rewrite Hfound. split.
        -- intros (q & n' & -> & Hh & Hn'). exists (n :: q), n'.
           split; [by rewrite <- app_assoc|]. split; [|done].
           apply holds_single. right. by exists n, sub, q.
        -- intros (q & n' & -> & Hh & Hn').
           apply holds_single in Hh as [[_ Heq]|(? & ? & q' & Heq & -> & Hh)]; [done|].
           injection Heq as <- <-. exists q', n'. split; [by rewrite <- app_assoc|done].
  - cbn [scan_entry scan_spec]. split.
    + intros q n' m Hh. apply holds_single in Hh as [[_ Heq]|(? & ? & ? & Heq & _)]; done.
    + exists []. rewrite app_nil_r. split; [done|]. intros p. split.
      * intros Hp. by apply elem_of_nil in Hp.
      * intros (q & n' & _ & Hh & _).
        apply holds_single in Hh as [[_ Heq]|(? & ? & ? & Heq & _)]; done.
Qed.

Lemma scan_for_entries (entries : list Dirent) directory files :
  scan_spec entries directory files (scan_for scan_entry directory entries files).
Proof.
  apply scan_for_spec, Forall_forall. intros e _. apply scan_entry_spec.
Qed.

(** The scan is all or nothing. When a directory anywhere below the input
    folder, or the input folder itself, cannot be listed, [findHtmlFiles]
    is rejected with the message of such a directory, whatever files it
    had found before. Otherwise it is fulfilled with exactly the paths
    that lead, through directories only, to a regular file whose name
    passes the extension test; links and other entries are never
    followed or returned. *)
Theorem findHtmlFiles_all_or_nothing (fs : FileSystem) :
  match findHtmlFiles fs with
  | Rejected m => locked (readdir fs) m
  | Fulfilled files =>
      (forall m, ~ locked (readdir fs) m) /\
      exists entries, readdir fs = Fulfilled entries /\
        forall p, p ∈ files <->
          exists n, holds entries p (File n) /\ is_html n = true
  end.
Proof.
  unfold findHtmlFiles, scan. destruct (readdir fs) as [m|entries]; [by left|].
  pose proof (scan_for_entries entries [] []) as Hspec.
  destruct (scan_for scan_entry [] entries []) as [m|files]; cbn [scan_spec] in Hspec.
  - destruct Hspec as (q & n & Hh). right. by exists entries, q, n.
  - destruct Hspec as (Hnone & found & -> & Hfound). split.
    + intros m [Heq|(entries' & q & n & Heq & Hh)]; [done|].
      injection Heq as <-. by eapply Hnone.
    + exists entries. split; [done|]. intros p. rewrite app_nil_l, Hfound. split.
      * intros (q & n & -> & Hh & Hn). by exists n.
      * intros (n & Hh & Hn). by exists p, n.
Qed.


(** ** The report of [processHTMLFilesForPreview] *)

Lemma obj_get_set {V : Type} (p key : list (list ascii)) (value : V) object :
  obj_get p (obj_set key value object) =
    if decide (p = key) then Some value else obj_get p object.
Proof.
  unfold obj_get. induction object as [|[k v] object IH]; cbn [obj_set find fst].
  - destruct (decide (p = key)) as [->|Hne].
    + by rewrite bool_decide_eq_true_2.
    + rewrite bool_decide_eq_false_2 by congruence. done.
  - destruct (decide (k = key)) as [->|Hk]; cbn [find fst].
    + destruct (decide (p = key)) as [->|Hne].
      * by rewrite bool_decide_eq_true_2.
      * rewrite !bool_decide_eq_false_2 by congruence. done.
    + destruct (decide (k = p)) as [->|Hkp].
      * rewrite bool_decide_eq_true_2; [|done]. destruct (decide (p = key)); [|done].
        by subst.
      * rewrite bool_decide_eq_false_2; [|done]. apply IH.
Qed.

Lemma obj_get_keys {V : Type} (p : list (list ascii)) (object : list (list (list ascii) * V)) :
  is_Some (obj_get p object) <-> p ∈ object.*1.
Proof.
  unfold obj_get. induction object as [|[k v] object IH]; cbn [find fst fmap list_fmap].
  - split; [by intros [? ?]|]. intros Hin. by apply elem_of_nil in Hin.
  - rewrite elem_of_cons. destruct (decide (k = p)) as [->|Hkp].
    + rewrite bool_decide_eq_true_2; [|done]. split; [by left|by eexists].
    + rewrite bool_decide_eq_false_2; [|done]. rewrite IH. split; [by right|].
      intros [->|?]; done.
Qed.

Lemma obj_set_keys {V : Type} (key : list (list ascii)) (value : V) object :
  NoDup object.*1 -> NoDup (obj_set key value object).*1.
Proof.
  induction object as [|[k v] object IH]; cbn [obj_set]; intros Hnd.
  - apply NoDup_singleton.
  - destruct (decide (k = key)) as [->|Hk]; [done|].
    cbn [fmap list_fmap fst] in *. apply NoDup_cons in Hnd as [Hk' Hnd].
    apply NoDup_cons. split; [|by apply IH].
    intros Hin. apply obj_get_keys in Hin. rewrite obj_get_set in Hin.
    destruct (decide (k = key)); [done|]. by apply obj_get_keys in Hin.
Qed.

Section PreviewReports.
Context {host : Host}.
Variable message_of : JSError -> jsstring.

Lemma filed_snoc_result (fs : FileSystem) spec (h : heap) seen res errs f v :
  filed message_of fs spec h seen res errs ->
  file_outcome message_of fs spec h f = Some (inl v) ->
  filed message_of fs spec h (seen ++ [f]) (obj_set f v res) errs.
Proof.
  intros Hfiled Hout p. rewrite obj_get_set.
  destruct (decide (p = f)) as [->|Hne].
  - split.
    + intros _. rewrite Hout. split; [done|].
      destruct (decide (f ∈ seen)) as [Hin|Hnin].
      * pose proof (proj1 (Hfiled f) Hin) as Hf. rewrite Hout in Hf. tauto.
      * by apply (proj2 (Hfiled f)).
    + intros Hnin. exfalso. apply Hnin. apply elem_of_app. right. by left.
  - split.
    + intros Hin. apply elem_of_app in Hin as [Hin|Hin].
      * by apply (proj1 (Hfiled p)).
      * by apply list_elem_of_singleton in Hin.
    + intros Hnin. apply (proj2 (Hfiled p)). intros Hin. apply Hnin.
      apply elem_of_app. by left.
Qed.

Lemma filed_snoc_error (fs : FileSystem) spec (h : heap) seen res errs f text :
  filed message_of fs spec h seen res errs ->
  file_outcome message_of fs spec h f = Some (inr text) ->
  filed message_of fs spec h (seen ++ [f]) res (obj_set f text errs).
Proof.
  intros Hfiled Hout p. rewrite obj_get_set.
  destruct (decide (p = f)) as [->|Hne].
  - split.
    + intros _. rewrite Hout. split; [|done].
      destruct (decide (f ∈ seen)) as [Hin|Hnin].
      * pose proof (proj1 (Hfiled f) Hin) as Hf. rewrite Hout in Hf. tauto.
      * by apply (proj2 (Hfiled f)).
    + intros Hnin. exfalso. apply Hnin. apply elem_of_app. right. by left.
  - split.
    + intros Hin. apply elem_of_app in Hin as [Hin|Hin].
      * by apply (proj1 (Hfiled p)).
      * by apply list_elem_of_singleton in Hin.
    + intros Hnin. apply (proj2 (Hfiled p)). intros Hin. apply Hnin.
      apply elem_of_app. by left.
Qed.

(** The loop over the files on a store at rest: every round sees the
    store it started from, plus objects at rest. *)
Lemma preview_for_filed (fs : FileSystem) spec (h : heap) :
  length DEFAULT_PATTERNS <= length h -> calm h -> spec_wf h spec ->
  forall files seen res errs extra,
    calm extra -> filed message_of fs spec h seen res errs -> NoDup res.*1 ->
    exists res' errs' extra',
      preview_for message_of fs spec files res errs (h ++ extra)
        = Returned (res', errs') (h ++ extra') /\
      calm extra' /\ filed message_of fs spec h (seen ++ files) res' errs' /\
      NoDup res'.*1.
Proof.
  intros Hloaded Hcalm Hwf.
  induction files as [|f files IH]; intros seen res errs extra Hextra Hfiled Hnd.
  - exists res, errs, extra. by rewrite app_nil_r.
  - cbn [preview_for].
    assert (Hsnoc : seen ++ f :: files = (seen ++ [f]) ++ files) by by rewrite <- app_assoc.
    rewrite Hsnoc.
    destruct (readFile fs [] f) as [m|content] eqn:Hread.
    + apply (IH (seen ++ [f])); [done| |done].
      apply filed_snoc_error; [done|]. unfold file_outcome. by rewrite Hread.
    + destruct (run_call_extend (CallPreview content spec) h extra Hloaded Hcalm Hextra Hwf)
        as [Hans Hheap].
      cbn [run_call] in Hans, Hheap.
      destruct (previewSensitiveContent (VString content) spec (h ++ extra))
        as [v h1|e h1|] eqn:Hrun;
        destruct (previewSensitiveContent (VString content) spec h)
          as [v0 h0|e0 h0|] eqn:Hbase; cbn [lift answer] in Hans; try discriminate Hans.
      * injection Hans as ->.
        destruct (Hheap h1) as (fresh & -> & Hfresh); [done|].
        rewrite <- app_assoc.
        apply (IH (seen ++ [f])); [by apply calm_app| |by apply obj_set_keys].
        apply filed_snoc_result; [done|]. unfold file_outcome. by rewrite Hread, Hbase.
      * injection Hans as ->.
        destruct (Hheap h1) as (fresh & -> & Hfresh); [done|].
        rewrite <- app_assoc.
        apply (IH (seen ++ [f])); [by apply calm_app| |done].
        apply filed_snoc_error; [done|]. unfold file_outcome. by rewrite Hread, Hbase.
      * exfalso. by apply (proj1 (preview_and_redact_end (VString content) spec h)).
Qed.

(** When every directory can be listed, the run succeeds and files each
    HTML file as if it were the only one and the store were the one the
    run started from: a file that is read and previewed has its preview
    under its path in [results], a file whose read is rejected or whose
    preview throws has a text in [errors] and nothing in [results], and
    no other path has an entry. [fileCount] counts the keys of [results],
    and the store is left at rest. *)
Theorem each_file_previewed_alone (fs : FileSystem) spec (h : heap) files :
  length DEFAULT_PATTERNS <= length h -> calm h -> spec_wf h spec ->
  findHtmlFiles fs = Fulfilled files ->
  exists res errs h',
    processHTMLFilesForPreview message_of fs spec h
      = Returned (mkPreviewReport true (Some res)
                    (if 0 <? length errs then Some errs else None) None (length res)) h' /\
    h `prefix_of` h' /\ calm h' /\ NoDup res.*1 /\
    filed message_of fs spec h files res errs.
Proof.
  intros Hloaded Hcalm Hwf Hfiles.
  destruct (preview_for_filed fs spec h Hloaded Hcalm Hwf files [] [] [] [])
    as (res & errs & extra & Hrun & Hextra & Hfiled & Hnd).
  - constructor.
  - intros p. split; [intros Hin; by apply elem_of_nil in Hin|done].
  - constructor.
  - exists res, errs, (h ++ extra). unfold processHTMLFilesForPreview, bind.
    rewrite Hfiles. rewrite app_nil_r in Hrun. rewrite Hrun.
    split; [done|]. split; [by apply prefix_app_r|]. split; [by apply calm_app|done].
Qed.

Lemma preview_for_bare (fs : FileSystem) q (h : heap) : forall files errs,
  exists errs',
    preview_for message_of fs (SpecRegExp q) files [] errs h = Returned ([], errs') h /\
    forall p, is_Some (obj_get p errs') <-> p ∈ files \/ is_Some (obj_get p errs).
Proof.
  induction files as [|f files IH]; intros errs.
  - exists errs. split; [done|]. intros p. split; [by right|].
    intros [Hin|?]; [by apply elem_of_nil in Hin|done].
  - cbn [preview_for].
    assert (Hstep : forall text,
      exists errs',
        preview_for message_of fs (SpecRegExp q) files [] (obj_set f text errs) h
          = Returned ([], errs') h /\
        forall p, is_Some (obj_get p errs') <-> p ∈ f :: files \/ is_Some (obj_get p errs)).
    { intros text. destruct (IH (obj_set f text errs)) as (errs' & Hrun & Hkeys).
      exists errs'. split; [done|]. intros p. rewrite Hkeys, obj_get_set, elem_of_cons.
      destruct (decide (p = f)) as [->|Hne].
      - split; [by left; left|]. intros _. right. by eexists.
      - split; [intros [?|?]; [left; by right|by right]|].
        intros [[?|?]|?]; [done|by left|by right]. }
    destruct (readFile fs [] f) as [m|content]; [apply Hstep|].
    change (previewSensitiveContent (VString content) (SpecRegExp q) h)
      with (Threw (A := JSValue) TypeError h).
    apply Hstep.
Qed.

(** A spec that is a bare pattern object, not a list: every file fails
    in [compilePatterns], yet the run reports success, with no result,
    [fileCount] 0 and one entry of [errors] for each HTML file; the store
    is untouched. *)
Theorem bare_pattern_fails_every_file (fs : FileSystem) q (h : heap) files :
  findHtmlFiles fs = Fulfilled files ->
  exists errs,
    processHTMLFilesForPreview message_of fs (SpecRegExp q) h
      = Returned (mkPreviewReport true (Some [])
                    (match files with [] => None | _ => Some errs end) None 0) h /\
    forall p, p ∈ files <-> is_Some (obj_get p errs).
Proof.
  intros Hfiles. destruct (preview_for_bare fs q h files []) as (errs & Hrun & Hkeys).
  exists errs. unfold processHTMLFilesForPreview, bind. rewrite Hfiles, Hrun.
  assert (Hiff : forall p, p ∈ files <-> is_Some (obj_get p errs)).
  { intros p. rewrite Hkeys. split; [by left|]. intros [?|[? ?]]; done. }
  split; [|done]. destruct files as [|f files].
  - destruct errs as [|[k v] errs]; [done|]. exfalso.
    assert (Hk : is_Some (obj_get k ((k, v) :: errs))).
    { apply obj_get_keys. by left. }
    apply Hiff in Hk. by apply elem_of_nil in Hk.
  - destruct errs as [|kv errs]; [|done]. exfalso.
    assert (Hf : is_Some (obj_get (V := jsstring) f [])) by (apply Hiff; by left).
    by destruct Hf.
Qed.

(** One directory that cannot be listed fails the whole run: nothing is
    previewed, the report has [success] false, no results and
    [fileCount] 0, and its message is that of such a directory. *)
Theorem unreadable_directory_fails_preview (fs : FileSystem) spec (h : heap) m :
  locked (readdir fs) m ->
  exists m',
    locked (readdir fs) m' /\
    processHTMLFilesForPreview message_of fs spec h
      = Returned (mkPreviewReport false None None
                    (Some (str "Failed to process directory: " ++ m')) 0) h.
Proof.
  intros Hlocked. unfold processHTMLFilesForPreview, findHtmlFiles, scan.
  destruct (readdir fs) as [m0|entries] eqn:Hdir.
  - exists m0. split; [by left|done].
  - pose proof (scan_for_entries entries [] []) as Hspec.
    destruct (scan_for scan_entry [] entries []) as [m'|files]; cbn [scan_spec] in Hspec.
    + destruct Hspec as (p & n & Hh). exists m'. split; [|done].
      right. by exists entries, p, n.
    + exfalso. destruct Hspec as [Hnone _].
      destruct Hlocked as [Heq|(entries' & p & n & Heq & Hh)]; [done|].
      injection Heq as <-. by eapply Hnone.
Qed.

End PreviewReports.


(** ** The report of [processHTMLFilesForRedaction] and what it writes *)

Lemma snoc_split {A : Type} (l : list A) x before y after :
  l ++ [x] = before ++ y :: after ->
  (after = [] /\ before = l /\ x = y) \/
  exists after', after = after' ++ [x] /\ l = before ++ y :: after'.
Proof.
  intros Heq. destruct after as [|a after _] using rev_ind.
  - left. apply app_inj_tail in Heq as [-> ->]. done.
  - right. exists after.
    change (before ++ y :: after ++ [a]) with (before ++ (y :: after) ++ [a]) in Heq.
    rewrite app_assoc in Heq. apply app_inj_tail in Heq as [-> ->]. done.
Qed.

Lemma holds_path entries q entry : holds entries q entry -> q <> [].
Proof. by destruct 1. Qed.

Lemma removelast_last (p : list (list ascii)) :
  p <> [] -> removelast p ++ [default [] (last p)] = p.
Proof.
  intros Hp. destruct p as [|x p _] using rev_ind; [done|].
  by rewrite removelast_last, last_snoc.
Qed.

Section RedactionReports.
Context {host : Host}.
Variable message_of : JSError -> jsstring.

Lemma writes_snoc_mkdir (fs : FileSystem) spec (h : heap) files calls d :
  writes_are_redactions fs spec h files calls ->
  writes_are_redactions fs spec h files (calls ++ [Mkdir d]).
Proof.
  intros Hw before p data after Heq.
  apply snoc_split in Heq as [(_ & _ & Heq)|(after' & _ & Heq)]; [done|].
  by eapply Hw.
Qed.

Lemma writes_snoc_write (fs : FileSystem) spec (h : heap) files calls p data :
  writes_are_redactions fs spec h files calls ->
  is_redaction fs spec h files calls p data ->
  writes_are_redactions fs spec h files (calls ++ [WriteFile p data]).
Proof.
  intros Hw Hnew before p' data' after Heq.
  apply snoc_split in Heq as [(_ & -> & Heq)|(after' & _ & Heq)].
  - by injection Heq as <- <-.
  - by eapply Hw.
Qed.

Lemma processed_snoc_mkdir (fs : FileSystem) calls processed d :
  processed_are_written fs calls processed ->
  processed_are_written fs (calls ++ [Mkdir d]) processed.
Proof.
  intros Hp p. rewrite (Hp p). split.
  - intros (before & data & after & -> & Hw). exists before, data, (after ++ [Mkdir d]).
    split; [by rewrite <- app_assoc|done].
  - intros (before & data & after & Heq & Hw).
    apply snoc_split in Heq as [(_ & _ & Heq)|(after' & _ & Heq)]; [done|].
    by exists before, data, after'.
Qed.

Lemma processed_snoc_rejected (fs : FileSystem) calls processed q data m :
  processed_are_written fs calls processed ->
  writeFile fs calls q data = Rejected m ->
  processed_are_written fs (calls ++ [WriteFile q data]) processed.
Proof.
  intros Hp Hrej p. rewrite (Hp p). split.
  - intros (before & data' & after & -> & Hw).
    exists before, data', (after ++ [WriteFile q data]).
    split; [by rewrite <- app_assoc|done].
  - intros (before & data' & after & Heq & Hw).
    apply snoc_split in Heq as [(_ & -> & Heq)|(after' & _ & Heq)].
    + injection Heq as <- <-. by rewrite Hrej in Hw.
    + by exists before, data', after'.
Qed.

Lemma processed_snoc_fulfilled (fs : FileSystem) calls processed q data u :
  processed_are_written fs calls processed ->
  writeFile fs calls q data = Fulfilled u ->
  processed_are_written fs (calls ++ [WriteFile q data]) (processed ++ [q]).
Proof.
  intros Hp Hful p. rewrite elem_of_app, (Hp p), list_elem_of_singleton. split.
  - intros [(before & data' & after & -> & Hw)| ->].
    + exists before, data', (after ++ [WriteFile q data]).
      split; [by rewrite <- app_assoc|done].
    + exists calls, data, []. split; [done|]. rewrite Hful. by destruct u.
  - intros (before & data' & after & Heq & Hw).
    apply snoc_split in Heq as [(_ & -> & Heq)|(after' & _ & Heq)].
    + right. by injection Heq as <- <-.
    + left. by exists before, data', after'.
Qed.

(** The loop over the files on a store at rest. *)
Lemma redact_for_written (fs : FileSystem) spec (h : heap) files :
  length DEFAULT_PATTERNS <= length h -> calm h -> spec_wf h spec ->
  forall rest processed errs calls extra,
    Forall (fun p => p ∈ files /\ p <> []) rest ->
    calm extra ->
    writes_are_redactions fs spec h files calls ->
    processed_are_written fs calls processed ->
    exists processed' errs' calls' extra',
      redact_for message_of fs spec rest processed errs calls (h ++ extra)
        = Returned (processed', errs', calls') (h ++ extra') /\
      calm extra' /\
      writes_are_redactions fs spec h files calls' /\
      processed_are_written fs calls' processed'.
Proof.
  intros Hloaded Hcalm Hwf.
  induction rest as [|f rest IH]; intros processed errs calls extra Hrest Hextra Hw Hp.
  - by exists processed, errs, calls, extra.
  - apply Forall_cons in Hrest as [[Hf Hne] Hrest]. cbn [redact_for].
    destruct (readFile fs calls f) as [m|content] eqn:Hread; [by apply IH|].
    destruct (run_call_extend (CallRedact content spec) h extra Hloaded Hcalm Hextra Hwf)
      as [Hans Hheap].
    cbn [run_call] in Hans, Hheap.
    destruct (redactSensitiveContent (VString content) spec (h ++ extra))
      as [data h1|e h1|] eqn:Hrun;
      destruct (redactSensitiveContent (VString content) spec h)
        as [data0 h0|e0 h0|] eqn:Hbase; cbn [lift answer] in Hans; try discriminate Hans.
    + injection Hans as ->.
      destruct (Hheap h1) as (fresh & -> & Hfresh); [done|].
      rewrite <- app_assoc.
      assert (Hextra' : calm (extra ++ fresh)) by by apply calm_app.
      unfold ensureOutputDir. rewrite (removelast_last f Hne).
      assert (Hw1 : writes_are_redactions fs spec h files (calls ++ [Mkdir (removelast f)]))
        by by apply writes_snoc_mkdir.
      assert (Hp1 : processed_are_written fs (calls ++ [Mkdir (removelast f)]) processed)
        by by apply processed_snoc_mkdir.
      assert (Hnew : is_redaction fs spec h files (calls ++ [Mkdir (removelast f)]) f data0).
      { split; [done|]. by exists calls, content, h0. }
      assert (Hgo : exists processed' errs' calls' extra',
        match writeFile fs (calls ++ [Mkdir (removelast f)]) f data0 with
        | Rejected m =>
            redact_for message_of fs spec rest processed
              (obj_set f (str "Error processing file: " ++ m) errs)
              ((calls ++ [Mkdir (removelast f)]) ++ [WriteFile f data0])
              (h ++ extra ++ fresh)
        | Fulfilled _ =>
            redact_for message_of fs spec rest (processed ++ [f]) errs
              ((calls ++ [Mkdir (removelast f)]) ++ [WriteFile f data0])
              (h ++ extra ++ fresh)
        end = Returned (processed', errs', calls') (h ++ extra') /\
        calm extra' /\
        writes_are_redactions fs spec h files calls' /\
        processed_are_written fs calls' processed').
      { destruct (writeFile fs (calls ++ [Mkdir (removelast f)]) f data0) as [m|u] eqn:Hwrite.
        - apply IH; [done|done|by apply writes_snoc_write|].
          by eapply processed_snoc_rejected.
        - apply IH; [done|done|by apply writes_snoc_write|].
          by eapply processed_snoc_fulfilled. }
      destruct (mkdir fs calls (removelast f)) as [err|]; [|exact Hgo].
      destruct (decide (err_code err = str "EEXIST")); [exact Hgo|].
      by apply IH.
    + injection Hans as ->.
      destruct (Hheap h1) as (fresh & -> & Hfresh); [done|].
      rewrite <- app_assoc. apply IH; [done|by apply calm_app|done|done].
    + exfalso. by apply (proj2 (preview_and_redact_end (VString content) spec h)).
Qed.

(** On a store at rest, when every directory can be listed, the run
    succeeds and every file it writes is a redaction: the write goes to
    the path, below the output folder, that an HTML file has below the
    input folder, right after the directory of that path was created, and
    its data is what [redactSensitiveContent] returns, on the store the
    run started from, for the content read at that path just before;
    nothing else is written. [processed] lists the files whose write
    was fulfilled, [fileCount] is its length, and the store is left at
    rest. *)
Theorem every_write_is_a_redaction (fs : FileSystem) out spec (h : heap) files :
  length DEFAULT_PATTERNS <= length h -> calm h -> spec_wf h spec ->
  findHtmlFiles fs = Fulfilled files ->
  exists listed errs calls h',
    processHTMLFilesForRedaction message_of fs out spec h
      = Returned (Redacted.mkReport true listed
                    (if 0 <? length errs then Some errs else None)
                    None (length listed) (Some out), calls) h' /\
    h `prefix_of` h' /\ calm h' /\
    writes_are_redactions fs spec h files calls /\
    processed_are_written fs calls listed.
Proof.
  intros Hloaded Hcalm Hwf Hfiles.
  assert (Hpaths : Forall (fun p => p ∈ files /\ p <> []) files).
  { apply Forall_forall. intros p Hp. split; [done|].
    unfold findHtmlFiles, scan in Hfiles.
    destruct (readdir fs) as [m|entries]; [done|].
    pose proof (scan_for_entries entries [] []) as Hspec. rewrite Hfiles in Hspec.
    destruct Hspec as (_ & found & Heq & Hfound). rewrite app_nil_l in Heq. subst found.
    apply Hfound in Hp as (q & n & -> & Hh & _). by apply holds_path in Hh. }
  destruct (redact_for_written fs spec h files Hloaded Hcalm Hwf files [] [] [] [])
    as (listed & errs & calls & extra & Hrun & Hextra & Hw & Hp).
  - done.
  - constructor.
  - intros before p data after Heq. by destruct before.
  - intros p. split; [intros Hin; by apply elem_of_nil in Hin|].
    intros (before & data & after & Heq & _). by destruct before.
  - exists listed, errs, calls, (h ++ extra).
    unfold processHTMLFilesForRedaction, bind. rewrite Hfiles.
    rewrite app_nil_r in Hrun. rewrite Hrun.
    split; [done|]. split; [by apply prefix_app_r|]. split; [by apply calm_app|done].
Qed.

Lemma redact_for_bare (fs : FileSystem) q (h : heap) : forall files errs,
  exists errs',
    redact_for message_of fs (SpecRegExp q) files [] errs [] h
      = Returned ([], errs', []) h /\
    forall p, is_Some (obj_get p errs') <-> p ∈ files \/ is_Some (obj_get p errs).
Proof.
  induction files as [|f files IH]; intros errs.
  - exists errs. split; [done|]. intros p. split; [by right|].
    intros [Hin|?]; [by apply elem_of_nil in Hin|done].
  - cbn [redact_for].
    assert (Hstep : forall text,
      exists errs',
        redact_for message_of fs (SpecRegExp q) files [] (obj_set f text errs) [] h
          = Returned ([], errs', []) h /\
        forall p, is_Some (obj_get p errs') <-> p ∈ f :: files \/ is_Some (obj_get p errs)).
    { intros text. destruct (IH (obj_set f text errs)) as (errs' & Hrun & Hkeys).
      exists errs'. split; [done|]. intros p. rewrite Hkeys, obj_get_set, elem_of_cons.
      destruct (decide (p = f)) as [->|Hne].
      - split; [by left; left|]. intros _. right. by eexists.
      - split; [intros [?|?]; [left; by right|by right]|].
        intros [[?|?]|?]; [done|by left|by right]. }
    destruct (readFile fs [] f) as [m|content]; [apply Hstep|].
    change (redactSensitiveContent (VString content) (SpecRegExp q) h)
      with (Threw (A := JSValue) TypeError h).
    apply Hstep.
Qed.

(** A spec that is a bare pattern object: the run creates no directory
    and writes no file, [processed] is empty and [fileCount] 0, every HTML
    file has an entry in [errors], and still [success] is true. *)
Theorem bare_pattern_writes_nothing (fs : FileSystem) out q (h : heap) files :
  findHtmlFiles fs = Fulfilled files ->
  exists errs,
    processHTMLFilesForRedaction message_of fs out (SpecRegExp q) h
      = Returned (Redacted.mkReport true []
                    (match files with [] => None | _ => Some errs end)
                    None 0 (Some out), []) h /\
    forall p, p ∈ files <-> is_Some (obj_get p errs).
Proof.
  intros Hfiles. destruct (redact_for_bare fs q h files []) as (errs & Hrun & Hkeys).
  exists errs. unfold processHTMLFilesForRedaction, bind. rewrite Hfiles, Hrun.
  assert (Hiff : forall p, p ∈ files <-> is_Some (obj_get p errs)).
  { intros p. rewrite Hkeys. split; [by left|]. intros [?|[? ?]]; done. }
  split; [|done]. destruct files as [|f files].
  - destruct errs as [|[k v] errs]; [done|]. exfalso.
    assert (Hk : is_Some (obj_get k ((k, v) :: errs))).
    { apply obj_get_keys. by left. }
    apply Hiff in Hk. by apply elem_of_nil in Hk.
  - destruct errs as [|kv errs]; [|done]. exfalso.
    assert (Hf : is_Some (obj_get (V := jsstring) f [])) by (apply Hiff; by left).
    by destruct Hf.
Qed.

(** One directory that cannot be listed fails the whole run before
    anything is read or written: [success] is false, [processed] is the
    empty array, [fileCount] is 0 and there is no [outputFolder]. *)
Theorem unreadable_directory_fails_redaction (fs : FileSystem) out spec (h : heap) m :
  locked (readdir fs) m ->
  exists m',
    locked (readdir fs) m' /\
    processHTMLFilesForRedaction message_of fs out spec h
      = Returned (Redacted.mkReport false [] None
                    (Some (str "Failed to process directory: " ++ m')) 0 None, []) h.
Proof.
  intros Hlocked. unfold processHTMLFilesForRedaction, findHtmlFiles, scan.
  destruct (readdir fs) as [m0|entries] eqn:Hdir.
  - exists m0. split; [by left|done].
  - pose proof (scan_for_entries entries [] []) as Hspec.
    destruct (scan_for scan_entry [] entries []) as [m'|files]; cbn [scan_spec] in Hspec.
    + destruct Hspec as (p & n & Hh). exists m'. split; [|done].
      right. by exists entries, p, n.
    + exfalso. destruct Hspec as [Hnone _].
      destruct Hlocked as [Heq|(entries' & p & n & Heq & Hh)]; [done|].
      injection Heq as <-. by eapply Hnone.
Qed.

End RedactionReports.


(** * Instances and counterexamples on the store of the loaded module *)

(** A mixed spec run on the example host: of "foo, (bar ,baz" the middle
    source is refused, the other two are compiled in order. *)
Lemma invalid_sources_dropped_witness :
  exists ps h',
    compilePatterns (host := literal_host) (SpecString (str "foo, (bar ,baz")) DEFAULT_HEAP
      = Returned ps h' /\
    Forall2 (fun p R => h' !! p = Some R) ps
      [ new_global (str "foo") (RSeqs (RChar <$> str "foo"));
        new_global (str "baz") (RSeqs (RChar <$> str "baz")) ] /\
    ((forall src, src ∈ SrcString <$> (trim <$> split_comma (str "foo, (bar ,baz")) ->
        compiled_object (host := literal_host) DEFAULT_HEAP src = None) ->
       ps = [] /\
       forall fuel content,
         identifySensitiveText (host := literal_host) fuel content
           (SpecString (str "foo, (bar ,baz")) DEFAULT_HEAP = Returned (mkScan [] 0) h').
Proof.
  refine (invalid_sources_dropped (host := literal_host)
            (SpecString (str "foo, (bar ,baz"))
            (SrcString <$> (trim <$> split_comma (str "foo, (bar ,baz")))
            DEFAULT_HEAP eq_refl _).
  vm_compute. repeat constructor.
Defined.

(** C2 as stated fails for the empty array: it is an empty spec, and it
    compiles to the empty list, not to the defaults. *)
Lemma empty_list_is_not_defaults :
  ~ (forall (host : Host) (spec : PatternSpec) (h : heap),
       spec_is_empty spec -> compilePatterns spec h = Returned DEFAULT_PATTERNS h).
Proof.
  intros Hevery.
  specialize (Hevery literal_host (SpecList []) DEFAULT_HEAP).
  discriminate Hevery. right; by right.
Qed.

(** The compiler's cases at the empty array on the store of the loaded
    module. *)
Lemma defaults_only_for_falsy_specs_witness :
  (SpecList [] = SpecAbsent \/ SpecList [] = SpecString [] ->
     compilePatterns (host := literal_host) (SpecList []) DEFAULT_HEAP
       = Returned DEFAULT_PATTERNS DEFAULT_HEAP)
  /\ (SpecList [] = SpecList [] ->
        compilePatterns (host := literal_host) (SpecList []) DEFAULT_HEAP
          = Returned [] DEFAULT_HEAP)
  /\ (forall p, SpecList [] = SpecRegExp p ->
        compilePatterns (host := literal_host) (SpecList []) DEFAULT_HEAP
          = Threw TypeError DEFAULT_HEAP)
  /\ (forall l, spec_sources (SpecList []) = Some l ->
        exists ps h',
          compilePatterns (host := literal_host) (SpecList []) DEFAULT_HEAP
            = Returned ps h' /\
          forall p, p ∈ ps -> SrcRegExp p ∈ l \/ length DEFAULT_HEAP <= p < length h')
  /\ (forall h',
        compilePatterns (host := literal_host) (SpecList []) DEFAULT_HEAP
          = Returned DEFAULT_PATTERNS h' ->
        SpecList [] = SpecAbsent \/ SpecList [] = SpecString [] \/
        exists l, SpecList [] = SpecList l /\
                  forall p, p ∈ DEFAULT_PATTERNS -> SrcRegExp p ∈ l).
Proof.
  apply (defaults_only_for_falsy_specs (host := literal_host) (SpecList []) DEFAULT_HEAP).
  simpl. lia.
Defined.

(** C5 as stated fails: [null] is not text, and on it
    [identifySensitiveText] with the default patterns returns normally,
    with no match, instead of failing with an InvalidInput error. *)
Lemma null_content_is_scanned :
  ~ (forall (host : Host) (fuel : nat) (content : JSValue) (spec : PatternSpec)
            (h : heap),
       (forall s, content <> VString s) ->
       (exists h', identifySensitiveText fuel content spec h = Threw InvalidInputError h') /\
       (exists h', previewSensitiveContent content spec h = Threw InvalidInputError h') /\
       (exists h', redactSensitiveContent content spec h = Threw InvalidInputError h')).
Proof.
  intros Hevery.
  destruct (Hevery literal_host 1 VNull SpecAbsent DEFAULT_HEAP) as [[h' Hid] _]; [done|].
  vm_compute in Hid. discriminate Hid.
Qed.

(** [null] with the default patterns: scanned as the string "null" by
    [identifySensitiveText], a TypeError for the other two operations. *)
Lemma non_text_content_witness :
  identifySensitiveText (host := literal_host) 1 VNull SpecAbsent DEFAULT_HEAP
    = identifySensitiveText (host := literal_host) 1 (VString (ToString VNull))
        SpecAbsent DEFAULT_HEAP
  /\ (forall ps h1,
        compilePatterns (host := literal_host) SpecAbsent DEFAULT_HEAP = Returned ps h1 ->
        previewSensitiveContent (host := literal_host) VNull SpecAbsent DEFAULT_HEAP
          = match ps with [] => Returned VNull h1 | _ => Threw TypeError h1 end
        /\ redactSensitiveContent (host := literal_host) VNull SpecAbsent DEFAULT_HEAP
          = Threw TypeError DEFAULT_HEAP)
  /\ (forall h',
        identifySensitiveText (host := literal_host) 1 VNull SpecAbsent DEFAULT_HEAP
          <> Threw InvalidInputError h' /\
        previewSensitiveContent (host := literal_host) VNull SpecAbsent DEFAULT_HEAP
          <> Threw InvalidInputError h' /\
        redactSensitiveContent (host := literal_host) VNull SpecAbsent DEFAULT_HEAP
          <> Threw InvalidInputError h').
Proof.
  apply (non_text_content (host := literal_host) 1 VNull SpecAbsent DEFAULT_HEAP).
  intros s. discriminate.
Defined.

(** A paragraph without sensitive text passes through the default
    patterns unchanged. *)
Lemma redact_without_matches_witness :
  exists h2,
    redactSensitiveContent (host := literal_host) (VString (str "<p>Hello, world</p>"))
      SpecAbsent DEFAULT_HEAP
    = Returned (VString (str "<p>Hello, world</p>")) h2.
Proof.
  apply (redact_without_matches (host := literal_host) (str "<p>Hello, world</p>")
           SpecAbsent DEFAULT_HEAP DEFAULT_PATTERNS DEFAULT_HEAP).
  - simpl. lia.
  - reflexivity.
  - intros p R Hp HR.
    repeat (apply elem_of_cons in Hp as [->|Hp];
            [vm_compute in HR; injection HR as <-; vm_compute; reflexivity|]).
    by apply elem_of_nil in Hp.
Defined.

(** The default patterns, at rest, on "a@b.com 123-45-6789": the scan
    returns, its matches are one complete run per pattern from offset 0,
    and the store is left as it was. *)
Lemma matches_are_pattern_major_witness :
  exists r h2,
    identifySensitiveText (host := literal_host) 30 (VString (str "a@b.com 123-45-6789"))
      SpecAbsent DEFAULT_HEAP = Returned r h2 /\
    count r = length (matches r) /\
    exists groups,
      matches r = concat groups /\
      grouped (str "a@b.com 123-45-6789") DEFAULT_HEAP DEFAULT_PATTERNS groups h2 /\
      h2 = DEFAULT_HEAP /\
      Forall2 (fun p g => exists R, DEFAULT_HEAP !! p = Some R /\
                 scanned (pattern R) false (RegExp_toString R)
                   (str "a@b.com 123-45-6789") 0 g) DEFAULT_PATTERNS groups.
Proof.
  destruct (matches_are_pattern_major (host := literal_host) 30
              (str "a@b.com 123-45-6789") SpecAbsent DEFAULT_HEAP
              DEFAULT_PATTERNS DEFAULT_HEAP) as [Hgroups Hends].
  - reflexivity.
  - destruct Hends as (r & h2 & Hid).
    + repeat constructor; eexists; (split; [reflexivity|]); left;
        (split; [reflexivity|]); apply no_empty_match_spec; vm_compute; reflexivity.
    + vm_compute. lia.
    + exists r, h2. split; [exact Hid|].
      destruct (Hgroups r h2 Hid) as (Hcount & groups & Hconcat & Hgrouped & Hcalm).
      split; [exact Hcount|]. exists groups. split; [exact Hconcat|].
      split; [exact Hgrouped|]. apply Hcalm.
      repeat (constructor; [split; [reflexivity|intros _; reflexivity]|]). constructor.
Defined.

(** C9 as stated fails for a precompiled pattern that is handed over at
    a scan position other than 0: on "aa" with [/a/g] at position 1,
    [identifySensitiveText] returns, and reports the "a" at offset 1
    only; the first match of the pattern, at offset 0, is left out. *)
Lemma stale_position_skips_a_match :
  ~ (forall (host : Host) (fuel : nat) (s : jsstring) (spec : PatternSpec) (h : heap)
            ps h1 r h2 p (R : RegExpObj) a e,
       compilePatterns spec h = Returned ps h1 ->
       identifySensitiveText fuel (VString s) spec h = Returned r h2 ->
       p ∈ ps -> h1 !! p = Some R ->
       match_at (pattern R) s a = Some e -> a < e ->
       (forall b, b < a -> match_at (pattern R) s b = None) ->
       exists m, m ∈ matches r /\ m_index m = a /\ m_pattern m = RegExp_toString R).
Proof.
  intros Hevery.
  destruct (Hevery literal_host 3 (str "aa") (SpecList [SrcRegExp 4])
              (DEFAULT_HEAP ++ [mkRegExp (str "a") (RChar "a") true false 1])
              [4] (DEFAULT_HEAP ++ [mkRegExp (str "a") (RChar "a") true false 1])
              (mkScan [mkMatch (str "a") 1 1 (str "/a/g")] 1)
              (DEFAULT_HEAP ++ [mkRegExp (str "a") (RChar "a") true false 0])
              4 (mkRegExp (str "a") (RChar "a") true false 1) 0 1)
    as (m & Hin & Hidx & _).
  - vm_compute. reflexivity.
  - vm_compute. reflexivity.
  - by left.
  - reflexivity.
  - reflexivity.
  - lia.
  - intros b Hb. lia.
  - apply list_elem_of_singleton in Hin. subst m. discriminate Hidx.
Qed.

(** C7 as stated fails when a later pattern matches text an earlier one
    wrapped: in "5551234567@b.com" the e-mail pattern wraps the whole
    address and the phone pattern then wraps the digits inside it, so the
    result is not the content with pieces wrapped once. *)
Lemma nested_markers :
  ~ (forall (host : Host) (s : jsstring) (spec : PatternSpec) (h : heap) out h2,
       previewSensitiveContent (VString s) spec h = Returned (VString out) h2 ->
       wrapped s out).
Proof.
  intros Hevery.
  specialize (Hevery literal_host (str "5551234567@b.com") SpecAbsent DEFAULT_HEAP
                (mark_open ++ mark_open ++ str "5551234567" ++ mark_close
                   ++ str "@b.com" ++ mark_close)
                DEFAULT_HEAP eq_refl).
  inversion Hevery as [| |m s out Hw Hs Hout].
  destruct m as [|c m]; vm_compute in Hs, Hout; congruence.
Qed.

(** The four passes of the default patterns over "mail a@b.com". *)
Lemma preview_runs_pass_by_pass_witness :
  exists out h2,
    previewSensitiveContent (host := literal_host)
      (VString (str "mail a@b.com")) SpecAbsent DEFAULT_HEAP
      = Returned (VString out) h2 /\
    passes highlight DEFAULT_HEAP DEFAULT_PATTERNS (str "mail a@b.com") out /\
    (length DEFAULT_PATTERNS <= 1 -> wrapped (str "mail a@b.com") out).
Proof.
  apply (preview_runs_pass_by_pass (host := literal_host) (str "mail a@b.com")
           SpecAbsent DEFAULT_HEAP DEFAULT_PATTERNS DEFAULT_HEAP).
  - simpl. lia.
  - reflexivity.
  - intros p R Hp HR.
    repeat (apply elem_of_cons in Hp as [->|Hp];
            [vm_compute in HR; injection HR as <-; split; reflexivity|]).
    by apply elem_of_nil in Hp.
Defined.

(** C10 as stated fails for a precompiled sticky pattern: on "aa" with
    [/a/y], fresh at scan position 0, [previewSensitiveContent] marks the
    first "a" and leaves the pattern at position 1, so the same call made
    again marks the second "a" instead. *)
Lemma sticky_pattern_keeps_its_position :
  ~ (forall (host : Host) (c : Call) (h h1 : heap),
       spec_wf h (call_spec c) ->
       heap_after (run_call c h) = Some h1 ->
       answer (run_call c h1) = answer (run_call c h)).
Proof.
  intros Hevery.
  specialize (Hevery literal_host (CallPreview (str "aa") (SpecList [SrcRegExp 4]))
                (DEFAULT_HEAP ++ [mkRegExp (str "a") (RChar "a") false true 0])
                (DEFAULT_HEAP ++ [mkRegExp (str "a") (RChar "a") false true 1])).
  vm_compute in Hevery.
  assert (Hwf : Forall (fun src : PatternSource =>
                  match src with SrcRegExp p => p < 5 | _ => True end) [SrcRegExp 4])
    by (repeat constructor).
  specialize (Hevery Hwf eq_refl). discriminate Hevery.
Qed.

(** A redaction gives the same answer on the store of the loaded module
    and after a scan and a preview with a custom pattern. *)
Lemma stateless_at_rest_witness :
  exists h',
    run_calls (host := literal_host)
      [ CallIdentify 20 (str "a@b.com x@y.org") SpecAbsent;
        CallPreview (str "call 555-123-4567") (SpecString (str "call")) ]
      DEFAULT_HEAP = Some h' /\
    answer (run_call (host := literal_host)
              (CallRedact (str "Contact me at a@b.com") SpecAbsent) h')
      = answer (run_call (host := literal_host)
                  (CallRedact (str "Contact me at a@b.com") SpecAbsent) DEFAULT_HEAP) /\
    DEFAULT_HEAP `prefix_of` h' /\ calm h'.
Proof.
  eexists. split; [vm_compute; reflexivity|].
  apply (stateless_at_rest (host := literal_host) DEFAULT_HEAP
           (CallRedact (str "Contact me at a@b.com") SpecAbsent)
           [ CallIdentify 20 (str "a@b.com x@y.org") SpecAbsent;
             CallPreview (str "call 555-123-4567") (SpecString (str "call")) ]).
  - simpl. lia.
  - repeat (constructor; [split; [reflexivity|intros _; reflexivity]|]). constructor.
  - exact I.
  - repeat (constructor; [exact I|]). constructor.
  - vm_compute. reflexivity.
Defined.

(** * Instances of the further properties *)

(** A custom digit pattern, compiled by the example host from "4111",
    scanned over a card number. *)
Lemma identify_returns_for_consuming_patterns_witness :
  exists r h2,
    identifySensitiveText (host := literal_host) 25 (VString (str "4111 1111 1111 1111"))
      (SpecString (str "4111")) DEFAULT_HEAP = Returned r h2.
Proof.
  apply (identify_returns_for_consuming_patterns (host := literal_host) 25
           (str "4111 1111 1111 1111") (SpecString (str "4111")) DEFAULT_HEAP [4]
           (DEFAULT_HEAP ++ [new_global (str "4111") (RSeqs (RChar <$> str "4111"))])).
  - simpl. lia.
  - reflexivity.
  - intros p R Hp HR. apply elem_of_cons in Hp as [->|Hp]; [|by apply elem_of_nil in Hp].
    vm_compute in HR. injection HR as <-. split; reflexivity.
  - vm_compute. lia.
Defined.

(** The default patterns left at scan positions 3, 0, 7 and 1 by some
    interrupted use still scan a text to its end. *)
Lemma identify_returns_with_defaults_witness :
  exists r h2,
    identifySensitiveText (host := literal_host) 12 (VString (str "a@b.com 12"))
      SpecAbsent
      (zip_with set_lastIndex [3; 0; 7; 1] DEFAULT_HEAP) = Returned r h2.
Proof.
  apply (identify_returns_with_defaults (host := literal_host)).
  - exists []. vm_compute. reflexivity.
  - vm_compute. lia.
Defined.

(** The four passes of the default patterns over a line with an SSN. *)
Lemma redact_runs_pass_by_pass_witness :
  exists out h2,
    redactSensitiveContent (host := literal_host) (VString (str "ssn 123-45-6789"))
      SpecAbsent DEFAULT_HEAP = Returned (VString out) h2 /\
    passes (fun _ => REDACTED) DEFAULT_HEAP DEFAULT_PATTERNS (str "ssn 123-45-6789") out.
Proof.
  apply (redact_runs_pass_by_pass (host := literal_host) (str "ssn 123-45-6789")
           SpecAbsent DEFAULT_HEAP DEFAULT_PATTERNS DEFAULT_HEAP).
  - simpl. lia.
  - reflexivity.
  - intros p R Hp HR.
    repeat (apply elem_of_cons in Hp as [->|Hp];
            [vm_compute in HR; injection HR as <-; split; reflexivity|]).
    by apply elem_of_nil in Hp.
Defined.

(** The custom pattern "secret" over a line that holds it twice. *)
Lemma reported_spans_are_rewritten_witness :
  exists r h1 h2,
    identifySensitiveText (host := literal_host) 5 (VString (str "a secret, a secret"))
      (SpecString (str "secret")) DEFAULT_HEAP = Returned r h2 /\
    redactSensitiveContent (host := literal_host) (VString (str "a secret, a secret"))
      (SpecString (str "secret")) DEFAULT_HEAP
      = Returned (VString (splice (str "a secret, a secret") (to_exec <$> matches r)
                             (fun _ => REDACTED) 0)) h1 /\
    previewSensitiveContent (host := literal_host) (VString (str "a secret, a secret"))
      (SpecString (str "secret")) DEFAULT_HEAP
      = Returned (VString (splice (str "a secret, a secret") (to_exec <$> matches r)
                             highlight 0)) h1 /\
    length (splice (str "a secret, a secret") (to_exec <$> matches r)
              (fun _ => REDACTED) 0) + matched_length (matches r)
      = length (str "a secret, a secret") + count r * length REDACTED.
Proof.
  eexists _, _, _. split; [vm_compute; reflexivity|].
  eapply (reported_spans_are_rewritten (host := literal_host) 5
            (str "a secret, a secret") (SpecString (str "secret")) DEFAULT_HEAP 4
            (DEFAULT_HEAP ++ [new_global (str "secret") (RSeqs (RChar <$> str "secret"))])
            (new_global (str "secret") (RSeqs (RChar <$> str "secret")))).
  - simpl. lia.
  - reflexivity.
  - reflexivity.
  - reflexivity.
  - reflexivity.
  - reflexivity.
  - vm_compute. reflexivity.
Defined.

(** A heading without sensitive text: the scan counts 0 and the text
    passes through both rewriting operations. *)
Lemma nothing_found_nothing_rewritten_witness :
  (exists h3,
     redactSensitiveContent (host := literal_host) (VString (str "<h1>Title</h1>"))
       SpecAbsent DEFAULT_HEAP = Returned (VString (str "<h1>Title</h1>")) h3) /\
  (exists h3,
     previewSensitiveContent (host := literal_host) (VString (str "<h1>Title</h1>"))
       SpecAbsent DEFAULT_HEAP = Returned (VString (str "<h1>Title</h1>")) h3).
Proof.
  apply (nothing_found_nothing_rewritten (host := literal_host) 1
           (str "<h1>Title</h1>") SpecAbsent DEFAULT_HEAP (mkScan [] 0) DEFAULT_HEAP).
  - simpl. lia.
  - repeat (constructor; [split; [reflexivity|intros _; reflexivity]|]). constructor.
  - vm_compute. reflexivity.
  - reflexivity.
Defined.

(** An array of nothing but unusable elements on the store of the loaded
    module: nothing is raised. *)
Lemma text_fails_only_on_bare_pattern_witness :
  (forall e h',
     identifySensitiveText (host := literal_host) 3 (VString (str "a(b"))
       (SpecList [SrcString (str "("); SrcOther]) DEFAULT_HEAP <> Threw e h') /\
  (exists out h',
     previewSensitiveContent (host := literal_host) (VString (str "a(b"))
       (SpecList [SrcString (str "("); SrcOther]) DEFAULT_HEAP
     = Returned (VString out) h') /\
  (exists out h',
     redactSensitiveContent (host := literal_host) (VString (str "a(b"))
       (SpecList [SrcString (str "("); SrcOther]) DEFAULT_HEAP
     = Returned (VString out) h').
Proof.
  apply (text_fails_only_on_bare_pattern (host := literal_host) 3 (str "a(b")
           (SpecList [SrcString (str "("); SrcOther]) DEFAULT_HEAP).
  simpl. lia.
Defined.

(** "/secret/i" is compiled as "secret". *)
Lemma literal_flags_are_dropped_witness :
  compile_source (host := literal_host)
    (SrcString ("/"%char :: str "secret" ++ "/"%char :: str "i")) DEFAULT_HEAP
    = compile_source (host := literal_host) (SrcString (str "secret")) DEFAULT_HEAP
  /\ compile_source (host := literal_host) (SrcString (str "secret")) DEFAULT_HEAP =
       match RegExpCompile (Host := literal_host) (str "secret") with
       | Some r =>
           (Some (length DEFAULT_HEAP),
            DEFAULT_HEAP ++ [new_global
                               (EscapeRegExpPattern (Host := literal_host) (str "secret")) r])
       | None => (None, DEFAULT_HEAP)
       end.
Proof.
  apply (literal_flags_are_dropped (host := literal_host) (str "secret") (str "i")
           DEFAULT_HEAP).
  - intros Hin. vm_compute in Hin.
    repeat (apply elem_of_cons in Hin as [Hin|Hin]; [discriminate Hin|]).
    by apply elem_of_nil in Hin.
  - vm_compute. repeat constructor.
Defined.

(** [Guide.HTML] is an HTML file. *)
Lemma html_extension_rule_witness :
  is_html (str "Guide.HTML") = true <->
  exists stem ext,
    str "Guide.HTML" = stem ++ "."%char :: ext /\ stem <> [] /\
    toLowerCase ext = str "html".
Proof.
  apply html_extension_rule. intros Hin. vm_compute in Hin.
  repeat (apply elem_of_cons in Hin as [Hin|Hin]; [discriminate Hin|]).
  by apply elem_of_nil in Hin.
Defined.

(** The example folder with the default patterns: one preview, one error. *)
Lemma each_file_previewed_alone_witness :
  exists res errs h',
    processHTMLFilesForPreview (host := literal_host) example_message example_folder
      SpecAbsent DEFAULT_HEAP
      = Returned (mkPreviewReport true (Some res)
                    (if 0 <? length errs then Some errs else None) None (length res)) h' /\
    DEFAULT_HEAP `prefix_of` h' /\ calm h' /\ NoDup res.*1 /\
    filed (host := literal_host) example_message example_folder SpecAbsent DEFAULT_HEAP
      [[str "index.html"]; [str "docs"; str "Guide.HTML"]] res errs.
Proof.
  apply (each_file_previewed_alone (host := literal_host) example_message example_folder
           SpecAbsent DEFAULT_HEAP [[str "index.html"]; [str "docs"; str "Guide.HTML"]]).
  - simpl. lia.
  - repeat (constructor; [split; [reflexivity|intros _; reflexivity]|]). constructor.
  - exact I.
  - vm_compute. reflexivity.
Defined.

(** The example folder with a bare pattern object as spec. *)
Lemma bare_pattern_fails_every_file_witness :
  exists errs,
    processHTMLFilesForPreview (host := literal_host) example_message example_folder
      (SpecRegExp 0) DEFAULT_HEAP
      = Returned (mkPreviewReport true (Some []) (Some errs) None 0) DEFAULT_HEAP /\
    forall p, p ∈ [[str "index.html"]; [str "docs"; str "Guide.HTML"]]
              <-> is_Some (obj_get p errs).
Proof.
  apply (bare_pattern_fails_every_file (host := literal_host) example_message
           example_folder 0 DEFAULT_HEAP
           [[str "index.html"]; [str "docs"; str "Guide.HTML"]]).
  vm_compute. reflexivity.
Defined.

(** The folder with a directory that cannot be listed. *)
Lemma unreadable_directory_fails_preview_witness :
  exists m',
    locked (readdir locked_folder) m' /\
    processHTMLFilesForPreview (host := literal_host) example_message locked_folder
      SpecAbsent DEFAULT_HEAP
      = Returned (mkPreviewReport false None None
                    (Some (str "Failed to process directory: " ++ m')) 0) DEFAULT_HEAP.
Proof.
  apply (unreadable_directory_fails_preview (host := literal_host) example_message
           locked_folder SpecAbsent DEFAULT_HEAP (str "EACCES: permission denied")).
  right. eexists _, [str "private"], (str "private"). split; [reflexivity|].
  apply (holds_here _ (Directory (str "private") (Rejected (str "EACCES: permission denied")))).
  right. left.
Defined.

(** The example folder redacted with the default patterns. *)
Lemma every_write_is_a_redaction_witness :
  exists listed errs calls h',
    processHTMLFilesForRedaction (host := literal_host) example_message example_folder
      (str "out") SpecAbsent DEFAULT_HEAP
      = Returned (Redacted.mkReport true listed
                    (if 0 <? length errs then Some errs else None)
                    None (length listed) (Some (str "out")), calls) h' /\
    DEFAULT_HEAP `prefix_of` h' /\ calm h' /\
    writes_are_redactions (host := literal_host) example_folder SpecAbsent DEFAULT_HEAP
      [[str "index.html"]; [str "docs"; str "Guide.HTML"]] calls /\
    processed_are_written example_folder calls listed.
Proof.
  apply (every_write_is_a_redaction (host := literal_host) example_message example_folder
           (str "out") SpecAbsent DEFAULT_HEAP
           [[str "index.html"]; [str "docs"; str "Guide.HTML"]]).
  - simpl. lia.
  - repeat (constructor; [split; [reflexivity|intros _; reflexivity]|]). constructor.
  - exact I.
  - vm_compute. reflexivity.
Defined.

(** The example folder redacted with a bare pattern object as spec. *)
Lemma bare_pattern_writes_nothing_witness :
  exists errs,
    processHTMLFilesForRedaction (host := literal_host) example_message example_folder
      (str "out") (SpecRegExp 0) DEFAULT_HEAP
      = Returned (Redacted.mkReport true [] (Some errs) None 0 (Some (str "out")), [])
          DEFAULT_HEAP /\
    forall p, p ∈ [[str "index.html"]; [str "docs"; str "Guide.HTML"]]
              <-> is_Some (obj_get p errs).
Proof.
  apply (bare_pattern_writes_nothing (host := literal_host) example_message
           example_folder (str "out") 0 DEFAULT_HEAP
           [[str "index.html"]; [str "docs"; str "Guide.HTML"]]).
  vm_compute. reflexivity.
Defined.

(** The folder with a directory that cannot be listed, redacted. *)
Lemma unreadable_directory_fails_redaction_witness :
  exists m',
    locked (readdir locked_folder) m' /\
    processHTMLFilesForRedaction (host := literal_host) example_message locked_folder
      (str "out") SpecAbsent DEFAULT_HEAP
      = Returned (Redacted.mkReport false [] None
                    (Some (str "Failed to process directory: " ++ m')) 0 None, [])
          DEFAULT_HEAP.
Proof.
  apply (unreadable_directory_fails_redaction (host := literal_host) example_message
           locked_folder (str "out") SpecAbsent DEFAULT_HEAP
           (str "EACCES: permission denied")).
  right. eexists _, [str "private"], (str "private"). split; [reflexivity|].
  apply (holds_here _ (Directory (str "private") (Rejected (str "EACCES: permission denied")))).
  right. left.
Defined.
